(** * EpubReader: the persistence gateway and the reading session

    A shallow embedding of [services/db.ts], [types.ts] and of the event
    handlers of [components/Reader.tsx], with the properties of the
    reading-position and annotation logic proved over it.

    The rendering engine (epubjs) is an external collaborator of the
    repository: it is an interface here ([Reader.Engine]), and every theorem
    about the reader holds for every implementation of it.

    The functions of the gateway are [async] and the reader drops their
    promises: a call of the reader is in flight ([Reader.inflight]) until
    the database has served its requests ([Reader.RequestServed]), in an
    order that the session does not decide. *)

From Stdlib Require Import ZArith NArith QArith List Bool Lia String Ascii SpecFloat.
From Stdlib.Strings Require Import Byte.
From Stdlib Require DecimalZ.
From stdpp Require Import base option list gmap sorting.

Local Open Scope Z_scope.

(* ===================================================================== *)
(** * JavaScript values                                                   *)
(* ===================================================================== *)

Module JS.

(** A JavaScript string is a sequence of UTF-16 code units. *)
Abbreviation jsstring := (list N).

(** An ASCII literal as a JavaScript string. *)
Definition js (s : string) : jsstring :=
  List.map N_of_ascii (list_ascii_of_string s).

(** [ToBoolean] on strings: only the empty string is falsy. *)
Definition truthy (s : jsstring) : bool :=
  match s with [] => false | _ :: _ => true end.

(** The code units [String.prototype.trim] strips: ECMAScript WhiteSpace
    (TAB, VT, FF, SP, NBSP, ZWNBSP and the space separators) and
    LineTerminator (LF, CR, LS, PS). *)
Definition is_white_space (c : N) : bool :=
  ((c =? 0x09) || (c =? 0x0A) || (c =? 0x0B) || (c =? 0x0C) || (c =? 0x0D)
   || (c =? 0x20) || (c =? 0xA0) || (c =? 0x1680)
   || ((0x2000 <=? c) && (c <=? 0x200A))
   || (c =? 0x2028) || (c =? 0x2029) || (c =? 0x202F) || (c =? 0x205F)
   || (c =? 0x3000) || (c =? 0xFEFF))%N.

Fixpoint trimStart (s : jsstring) : jsstring :=
  match s with
  | [] => []
  | c :: s' => if is_white_space c then trimStart s' else s
  end.

Definition trimEnd (s : jsstring) : jsstring := rev (trimStart (rev s)).

Definition trim (s : jsstring) : jsstring := trimEnd (trimStart s).

(** A JavaScript number is an IEEE 754 binary64 value. *)
Abbreviation number := spec_float.

Definition prec : Z := 53.
Definition emax : Z := 1024.

(** An integer as a number (exact below 2^53). *)
Definition of_Z (z : Z) : number := binary_normalize prec emax z 0 false.

(** The [*] operator on numbers. *)
Definition mul (x y : number) : number := SFmul prec emax x y.

(** The greatest integer below the finite value [(-1)^s * m * 2^e]. *)
Definition floorZ (s : bool) (m : positive) (e : Z) : Z :=
  let v := if s then Z.neg m else Z.pos m in
  if 0 <=? e then v * 2 ^ e else v / 2 ^ (- e).

(** [Math.floor]: NaN, the infinities and the zeros are returned as they
    are; a finite value is rounded towards minus infinity. *)
Definition Math_floor (x : number) : number :=
  match x with
  | S754_finite s m e =>
      match floorZ s m e with
      | Z0 => S754_zero s
      | z => of_Z z
      end
  | _ => x
  end.

(** The integer a number stands for, when it is integral. *)
Definition integer_value (x : number) : option Z :=
  match x with
  | S754_zero _ => Some 0
  | S754_finite s m e =>
      let v := if s then Z.neg m else Z.pos m in
      if 0 <=? e then Some (v * 2 ^ e)
      else if v mod 2 ^ (- e) =? 0 then Some (v / 2 ^ (- e)) else None
  | _ => None
  end.

(** The record of a right shift by [k] bits of the exact mantissa [m0]:
    the quotient, with the round and sticky bits clear when nothing was
    shifted out. *)
Definition shifted (m0 : Z) (k : Z) (mrs : shr_record) : Prop :=
  shr_m mrs = m0 / 2 ^ k
  ∧ (m0 mod 2 ^ k = 0 → shr_r mrs = false ∧ shr_s mrs = false).

(** Numeric comparison [<=] on numbers (false when either side is NaN). *)
Definition leb (x y : number) : bool := SFleb x y.

(** [x] is a well-formed binary64 value. *)
Definition is_binary64 (x : number) : bool := valid_binary prec emax x.

(** [Math.max] and [Math.min] on integral values. *)
Definition Math_max (a b : Z) : Z := Z.max a b.
Definition Math_min (a b : Z) : Z := Z.min a b.

(** [Array.prototype.sort(compareFn)]. The sort is stable; for a consistent
    comparator its result is the one of inserting the elements, from the
    last to the first, in front of the first element that they do not
    come after. *)
Fixpoint sort_insert {A} (compareFn : A → A → Z) (x : A) (l : list A) : list A :=
  match l with
  | [] => [x]
  | y :: l' =>
      if compareFn x y <=? 0 then x :: l else y :: sort_insert compareFn x l'
  end.

Definition Array_sort {A} (compareFn : A → A → Z) (l : list A) : list A :=
  foldr (sort_insert compareFn) [] l.

(** [s.startsWith(pattern)] *)
Fixpoint startsWith (pattern s : jsstring) : bool :=
  match pattern, s with
  | [], _ => true
  | _ :: _, [] => false
  | p :: pattern', c :: s' => (p =? c)%N && startsWith pattern' s'
  end.

(** [s.replace(pattern, replacement)] for a string pattern and a
    replacement without [$]: the first occurrence is replaced. *)
Fixpoint replace (pattern replacement s : jsstring) : jsstring :=
  if startsWith pattern s then replacement ++ drop (length pattern) s
  else match s with
       | [] => []
       | c :: s' => c :: replace pattern replacement s'
       end.

End JS.

Import JS.

(* ===================================================================== *)
(** * types.ts                                                            *)
(* ===================================================================== *)

Module Types.

Record Highlight := mkHighlight {
  cfiRange : jsstring;
  color : jsstring;             (* hex code *)
  text : option jsstring;       (* text?: string *)
  created : Z                   (* Date.now(), integral milliseconds *)
}.

Record Book := mkBook {
  id : jsstring;
  title : jsstring;
  author : jsstring;
  coverUrl : option jsstring;
  data : list byte;             (* ArrayBuffer *)
  addedAt : Z;
  lastLocationCfi : jsstring;
  progress : number;            (* 0 to 100 *)
  totalLocations : option Z;
  highlights : option (list Highlight)   (* highlights?: Highlight[] *)
}.

Inductive Theme := light | sepia | night.
Inductive FontFamily := serif | sans.

(** [fontSize] is a percentage; it only ever holds integral values (the
    default 100 and the steps of 10 of the toolbar), on which the
    arithmetic of JavaScript numbers is exact. *)
Record ReaderSettings := mkSettings {
  theme : Theme;
  fontSize : Z;
  fontFamily : FontFamily
}.

Definition DEFAULT_SETTINGS : ReaderSettings :=
  {| theme := light; fontSize := 100; fontFamily := serif |}.

(** Object spreads [{ ...book, field: v }] and in-place field writes. *)
Definition with_location (b : Book) (cfi : jsstring) (p : number) : Book :=
  {| id := id b; title := title b; author := author b; coverUrl := coverUrl b;
     data := data b; addedAt := addedAt b;
     lastLocationCfi := cfi; progress := p;
     totalLocations := totalLocations b; highlights := highlights b |}.

Definition with_highlights (b : Book) (hs : list Highlight) : Book :=
  {| id := id b; title := title b; author := author b; coverUrl := coverUrl b;
     data := data b; addedAt := addedAt b;
     lastLocationCfi := lastLocationCfi b; progress := progress b;
     totalLocations := totalLocations b; highlights := Some hs |}.

Definition with_fontSize (s : ReaderSettings) (n : Z) : ReaderSettings :=
  {| theme := theme s; fontSize := n; fontFamily := fontFamily s |}.

Definition with_theme (s : ReaderSettings) (t : Theme) : ReaderSettings :=
  {| theme := t; fontSize := fontSize s; fontFamily := fontFamily s |}.

#[global] Instance Highlight_eq_dec : EqDecision Highlight.
Proof. solve_decision. Defined.

End Types.

(* ===================================================================== *)
(** * services/db.ts                                                      *)
(* ===================================================================== *)

Module Db.
Import Types.

(** The object store ['books'] of the database, keyed by [keyPath: 'id']. *)
Abbreviation store := (gmap jsstring Book).

(** The key-path invariant of the object store: a record is filed under
    its own [id]. *)
Definition store_wf (s : store) : Prop :=
  ∀ k b, s !! k = Some b → id b = k.

(** How an [async] function settles. *)
Inductive Promise (A : Type) :=
  | Fulfilled (a : A)
  | Rejected (err : jsstring).
Arguments Fulfilled {A} a.
Arguments Rejected {A} err.

(** An [async] function over the database: it settles and leaves a store. *)
Definition IDB (A : Type) : Type := store → Promise A * store.

Definition resolve {A} (a : A) : IDB A := λ s, (Fulfilled a, s).

(** [const x = await m; k x] *)
Definition await {A B} (m : IDB A) (k : A → IDB B) : IDB B :=
  λ s, match m s with
       | (Fulfilled a, s') => k a s'
       | (Rejected e, s') => (Rejected e, s')
       end.

Notation "'const' x ':=' 'await' m 'in' k" := (await m (λ x, k))
  (at level 10, x name, m at level 100, k at level 200).

(** The database is taken to open: [getDB] fulfils. *)
Definition getDB : IDB unit := resolve tt.

Definition db_get (k : jsstring) : IDB (option Book) := λ s, (Fulfilled (s !! k), s).
Definition db_put (b : Book) : IDB unit := λ s, (Fulfilled tt, <[id b := b]> s).
Definition db_delete (k : jsstring) : IDB unit := λ s, (Fulfilled tt, delete k s).

Definition saveBook (book : Book) : IDB unit :=
  const _ := await getDB in
  db_put book.

Definition getBook (k : jsstring) : IDB (option Book) :=
  const _ := await getDB in
  db_get k.

Definition deleteBook (k : jsstring) : IDB unit :=
  const _ := await getDB in
  db_delete k.

Definition updateBookProgress (k cfi : jsstring) (p : number) : IDB unit :=
  const _ := await getDB in
  const book := await db_get k in
  match book with
  | Some b => db_put (with_location b cfi p)
  | None => resolve tt
  end.

Definition addBookHighlight (k : jsstring) (highlight : Highlight) : IDB unit :=
  const _ := await getDB in
  const book := await db_get k in
  match book with
  | Some b =>
      (* const highlights = book.highlights || []; highlights.push(highlight) *)
      let hs := default [] (highlights b) in
      db_put (with_highlights b (hs ++ [highlight]))
  | None => resolve tt
  end.

Definition removeBookHighlight (k cfi : jsstring) : IDB unit :=
  const _ := await getDB in
  const book := await db_get k in
  match book with
  | Some b =>
      match highlights b with
      | Some hs =>
          db_put (with_highlights b (filter (λ h, cfiRange h ≠ cfi) hs))
      | None => resolve tt
      end
  | None => resolve tt
  end.

(** The order of the string keys of an object store: by code units, a
    proper prefix first. *)
Fixpoint key_leb (a b : jsstring) : bool :=
  match a, b with
  | [], _ => true
  | _ :: _, [] => false
  | x :: a', y :: b' => (x <? y)%N || ((x =? y)%N && key_leb a' b')
  end.

Definition key_le (a b : jsstring) : Prop := key_leb a b = true.

#[global] Instance key_le_dec a b : Decision (key_le a b).
Proof. unfold key_le. apply _. Defined.

(** [db.getAll('books')]: the records in ascending order of their keys. *)
Definition db_getAll : IDB (list Book) := λ s,
  (Fulfilled ((merge_sort (λ p q, key_le p.1 q.1) (map_to_list s)).*2), s).

Definition getAllBooks : IDB (list Book) :=
  const _ := await getDB in
  db_getAll.

(** The writes of the gateway, to speak of their sequences. *)
Inductive Write :=
  | SaveBook (book : Book)
  | DeleteBook (k : jsstring)
  | UpdateBookProgress (k cfi : jsstring) (p : number)
  | AddBookHighlight (k : jsstring) (highlight : Highlight)
  | RemoveBookHighlight (k cfi : jsstring).

Definition write (s : store) (op : Write) : store :=
  match op with
  | SaveBook book => snd (saveBook book s)
  | DeleteBook k => snd (deleteBook k s)
  | UpdateBookProgress k cfi p => snd (updateBookProgress k cfi p s)
  | AddBookHighlight k highlight => snd (addBookHighlight k highlight s)
  | RemoveBookHighlight k cfi => snd (removeBookHighlight k cfi s)
  end.

End Db.

(* ===================================================================== *)
(** * services/db.ts: the connection                                      *)
(* ===================================================================== *)

Module Connection.

(** The module variable [dbPromise], and the number of calls of [openDB]
    made so far. A promise is known by the call of [openDB] that made
    it. *)
Record State := mkState { dbPromise : option nat; opened : nat }.

(** [let dbPromise = null] *)
Definition loaded : State := {| dbPromise := None; opened := 0%nat |}.

Definition getDB (c : State) : nat * State :=
  match dbPromise c with
  | None =>
      let promise := opened c in
      (promise, {| dbPromise := Some promise; opened := S (opened c) |})
  | Some promise => (promise, c)
  end.

(** [upgrade(db)], on the names of the object stores of the database. *)
Definition upgrade (objectStoreNames : list jsstring) : list jsstring :=
  if bool_decide (js "books" ∈ objectStoreNames) then objectStoreNames
  else objectStoreNames ++ [js "books"].

(** [n] calls of [getDB] in a row: the promises they return. *)
Fixpoint calls (n : nat) (c : State) : list nat * State :=
  match n with
  | O => ([], c)
  | S n' =>
      let '(promise, c1) := getDB c in
      let '(promises, c2) := calls n' c1 in
      (promise :: promises, c2)
  end.

End Connection.

(* ===================================================================== *)
(** * services/db.ts: two calls in flight                                 *)
(* ===================================================================== *)

(** The functions of the gateway are [async]: between two of their awaits
    the requests of another call can be served. Every request is a
    transaction of its own. *)
Module Overlap.
Import Types Db.

(** An [async] function of the gateway, suspended at an [await]: the
    request it waits for, and how it goes on with the answer. *)
Inductive Job :=
  | Settled
  | AwaitDB (next : Job)                               (* await getDB() *)
  | AwaitGet (k : jsstring) (next : option Book → Job) (* await db.get('books', k) *)
  | AwaitPut (b : Book) (next : Job).                  (* await db.put('books', b) *)

(** The request of [j] is served, and [j] runs on to its next [await]. *)
Definition resume (j : Job) (s : store) : Job * store :=
  match j with
  | Settled => (Settled, s)
  | AwaitDB next => (next, s)
  | AwaitGet k next => (next (s !! k), s)
  | AwaitPut b next => (next, <[id b := b]> s)
  end.

Definition updateBookProgress (k cfi : jsstring) (p : number) : Job :=
  AwaitDB (AwaitGet k (λ book,
    match book with
    | Some b => AwaitPut (with_location b cfi p) Settled
    | None => Settled
    end)).

Definition addBookHighlight (k : jsstring) (highlight : Highlight) : Job :=
  AwaitDB (AwaitGet k (λ book,
    match book with
    | Some b =>
        let hs := default [] (highlights b) in
        AwaitPut (with_highlights b (hs ++ [highlight])) Settled
    | None => Settled
    end)).

Definition removeBookHighlight (k cfi : jsstring) : Job :=
  AwaitDB (AwaitGet k (λ book,
    match book with
    | Some b =>
        match highlights b with
        | Some hs =>
            AwaitPut (with_highlights b (filter (λ h, cfiRange h ≠ cfi) hs)) Settled
        | None => Settled
        end
    | None => Settled
    end)).

(** The call is served alone, request after request, to its end. *)
Fixpoint finish (j : Job) (s : store) : store :=
  match j with
  | Settled => s
  | AwaitDB next => finish next s
  | AwaitGet k next => finish (next (s !! k)) s
  | AwaitPut b next => finish next (<[id b := b]> s)
  end.

(** Two calls in flight; [order] tells whose request is served next. *)
Inductive Side := First | Second.

Fixpoint overlap (order : list Side) (a b : Job) (s : store) : store :=
  match order with
  | [] => s
  | First :: order' => let '(a', s') := resume a s in overlap order' a' b s'
  | Second :: order' => let '(b', s') := resume b s in overlap order' a b' s'
  end.

(** Whose requests are the last two that [order] serves. *)
Definition last_two (order : list Side) : option (Side * Side) :=
  match reverse order with
  | y :: x :: _ => Some (x, y)
  | _ => None
  end.

(** How often [order] serves side [x]. *)
Fixpoint served (x : Side) (order : list Side) : nat :=
  match order with
  | [] => 0%nat
  | y :: order' =>
      match x, y with
      | First, First | Second, Second => S (served x order')
      | _, _ => served x order'
      end
  end.

End Overlap.

(* ===================================================================== *)
(** * components/Reader.tsx                                               *)
(* ===================================================================== *)

Module Reader.
Import Types.

(** ** The rendering engine as the reader consumes it *)

(** The entries of the style object of [applyTheme] that depend on the
    settings (the other entries are constants). *)
Record ThemeObj := mkThemeObj {
  body_font_family : jsstring;
  body_color : jsstring;
  body_font_size : Z;            (* `${s.fontSize}% !important` *)
  img_filter : jsstring;
  selection_background : jsstring
}.

(** What the reader asks of its collaborators, in program order. The overlay
    style of every [annotations.add] is the same constant object
    (yellow fill, opacity 0.3, multiply) and is left out. *)
Inductive Call :=
  | RenderTo
  | Display (target : option jsstring)
  | ThemesRegister (name : jsstring) (t : ThemeObj)
  | ThemesSelect (name : jsstring)
  | LocationsGenerate (chars : Z)
  | AnnotationsAdd (type cfiRange className : jsstring)
  | AnnotationsRemove (cfiRange type : jsstring)
  | RemoveAllRanges
  | SetIsReady (b : bool).

(** The epubjs book and rendition. [perform c e] is the engine after call
    [c]; [throws c e] tells whether the call ends in a thrown error. The
    reader consults [throws] for the overlay calls ([annotations.add],
    [annotations.remove]) only: these are the calls whose failure it
    anticipates, and every other call is taken to return.
    [percentageFromCfi] is [book.locations.percentageFromCfi]; a [null]
    result is given as the number it multiplies as, [+0]. *)
Class Engine (E : Type) := {
  perform : Call → E → E;
  throws : Call → E → bool;
  percentageFromCfi : E → jsstring → number
}.

(** ** The state of a reading session *)

Record Popup := mkPopup { popup_cfiRange : jsstring; x : Q; y : Z }.

(** [location.start.cfi] of a relocation. *)
Record Location := mkLocation { start_cfi : jsstring }.

(** [doc.getSelection()] at a mouseup; [rangeCfi] is the string
    [new CFI(selection.getRangeAt(0), contents.cfiBase).toString()]
    that the engine derives from the selected range. *)
Record Selection := mkSelection {
  isCollapsed : bool;
  rangeCount : nat;
  toString : jsstring;
  rangeCfi : jsstring
}.

(** The callbacks given to [setTimeout]. *)
Inductive Task :=
  | ResetJustCreated                       (* justCreatedHighlightRef.current = false *)
  | Reconcile (hs : list Highlight).       (* the closure over [highlights] *)

Record Timer := mkTimer { tid : nat; due : Z; task : Task }.

Section WithEngine.
Context {E : Type} `{Engine E}.

(** Props, refs, [useState] values, the collaborators, and the event loop.
    [containerRef] is the width of the mount element when it is mounted;
    [settingsCleanup] is the timer that the cleanup of the settings effect
    clears; [pendingDisplay] is the unsettled [rendition.display] promise
    with the settings its continuation closes over;
    [highlightsFromBook] tells whether the [highlights] state is the very
    array [book.highlights] (a state setter compares the new state with the
    old one by identity, and the spread and [filter] make new arrays);
    [inflight] are the
    calls of the persistence gateway that have not settled, in the order
    of their issue. *)
Record World := mkWorld {
  book : Book;
  settings : ReaderSettings;
  containerRef : option Q;
  renditionRef : bool;
  bookRef : bool;
  isHighlightModeRef : bool;
  justCreatedHighlightRef : bool;
  highlightsLoadedRef : bool;
  isReady : bool;
  currentCfi : jsstring;
  progress : number;
  isHighlightMode : bool;
  highlights : list Highlight;
  highlightsFromBook : bool;
  highlightPopup : option Popup;
  engine : E;
  log : list Call;
  db : Db.store;
  inflight : list Overlap.Job;
  now : Z;
  timers : list Timer;
  nextTimerId : nat;
  settingsCleanup : option nat;
  pendingDisplay : option ReaderSettings;
  pendingGenerate : bool
}.

Definition set_settings (v : ReaderSettings) (w : World) : World :=
  mkWorld (book w) v (containerRef w) (renditionRef w) (bookRef w)
    (isHighlightModeRef w) (justCreatedHighlightRef w) (highlightsLoadedRef w)
    (isReady w) (currentCfi w) (progress w) (isHighlightMode w) (highlights w)
    (highlightsFromBook w) (highlightPopup w) (engine w) (log w) (db w)
    (inflight w) (now w) (timers w) (nextTimerId w) (settingsCleanup w)
    (pendingDisplay w) (pendingGenerate w).

Definition set_renditionRef (v : bool) (w : World) : World :=
  mkWorld (book w) (settings w) (containerRef w) v (bookRef w)
    (isHighlightModeRef w) (justCreatedHighlightRef w) (highlightsLoadedRef w)
    (isReady w) (currentCfi w) (progress w) (isHighlightMode w) (highlights w)
    (highlightsFromBook w) (highlightPopup w) (engine w) (log w) (db w)
    (inflight w) (now w) (timers w) (nextTimerId w) (settingsCleanup w)
    (pendingDisplay w) (pendingGenerate w).

Definition set_bookRef (v : bool) (w : World) : World :=
  mkWorld (book w) (settings w) (containerRef w) (renditionRef w) v
    (isHighlightModeRef w) (justCreatedHighlightRef w) (highlightsLoadedRef w)
    (isReady w) (currentCfi w) (progress w) (isHighlightMode w) (highlights w)
    (highlightsFromBook w) (highlightPopup w) (engine w) (log w) (db w)
    (inflight w) (now w) (timers w) (nextTimerId w) (settingsCleanup w)
    (pendingDisplay w) (pendingGenerate w).

Definition set_isHighlightModeRef (v : bool) (w : World) : World :=
  mkWorld (book w) (settings w) (containerRef w) (renditionRef w) (bookRef w)
    v (justCreatedHighlightRef w) (highlightsLoadedRef w) (isReady w)
    (currentCfi w) (progress w) (isHighlightMode w) (highlights w)
    (highlightsFromBook w) (highlightPopup w) (engine w) (log w) (db w)
    (inflight w) (now w) (timers w) (nextTimerId w) (settingsCleanup w)
    (pendingDisplay w) (pendingGenerate w).

Definition set_justCreatedHighlightRef (v : bool) (w : World) : World :=
  mkWorld (book w) (settings w) (containerRef w) (renditionRef w) (bookRef w)
    (isHighlightModeRef w) v (highlightsLoadedRef w) (isReady w)
    (currentCfi w) (progress w) (isHighlightMode w) (highlights w)
    (highlightsFromBook w) (highlightPopup w) (engine w) (log w) (db w)
    (inflight w) (now w) (timers w) (nextTimerId w) (settingsCleanup w)
    (pendingDisplay w) (pendingGenerate w).

Definition set_highlightsLoadedRef (v : bool) (w : World) : World :=
  mkWorld (book w) (settings w) (containerRef w) (renditionRef w) (bookRef w)
    (isHighlightModeRef w) (justCreatedHighlightRef w) v (isReady w)
    (currentCfi w) (progress w) (isHighlightMode w) (highlights w)
    (highlightsFromBook w) (highlightPopup w) (engine w) (log w) (db w)
    (inflight w) (now w) (timers w) (nextTimerId w) (settingsCleanup w)
    (pendingDisplay w) (pendingGenerate w).

Definition set_isReady (v : bool) (w : World) : World :=
  mkWorld (book w) (settings w) (containerRef w) (renditionRef w) (bookRef w)
    (isHighlightModeRef w) (justCreatedHighlightRef w) (highlightsLoadedRef w)
    v (currentCfi w) (progress w) (isHighlightMode w) (highlights w)
    (highlightsFromBook w) (highlightPopup w) (engine w) (log w) (db w)
    (inflight w) (now w) (timers w) (nextTimerId w) (settingsCleanup w)
    (pendingDisplay w) (pendingGenerate w).

Definition set_currentCfi (v : jsstring) (w : World) : World :=
  mkWorld (book w) (settings w) (containerRef w) (renditionRef w) (bookRef w)
    (isHighlightModeRef w) (justCreatedHighlightRef w) (highlightsLoadedRef w)
    (isReady w) v (progress w) (isHighlightMode w) (highlights w)
    (highlightsFromBook w) (highlightPopup w) (engine w) (log w) (db w)
    (inflight w) (now w) (timers w) (nextTimerId w) (settingsCleanup w)
    (pendingDisplay w) (pendingGenerate w).

Definition set_progress (v : number) (w : World) : World :=
  mkWorld (book w) (settings w) (containerRef w) (renditionRef w) (bookRef w)
    (isHighlightModeRef w) (justCreatedHighlightRef w) (highlightsLoadedRef w)
    (isReady w) (currentCfi w) v (isHighlightMode w) (highlights w)
    (highlightsFromBook w) (highlightPopup w) (engine w) (log w) (db w)
    (inflight w) (now w) (timers w) (nextTimerId w) (settingsCleanup w)
    (pendingDisplay w) (pendingGenerate w).

Definition set_isHighlightMode (v : bool) (w : World) : World :=
  mkWorld (book w) (settings w) (containerRef w) (renditionRef w) (bookRef w)
    (isHighlightModeRef w) (justCreatedHighlightRef w) (highlightsLoadedRef w)
    (isReady w) (currentCfi w) (progress w) v (highlights w)
    (highlightsFromBook w) (highlightPopup w) (engine w) (log w) (db w)
    (inflight w) (now w) (timers w) (nextTimerId w) (settingsCleanup w)
    (pendingDisplay w) (pendingGenerate w).

Definition set_highlights (v : list Highlight) (w : World) : World :=
  mkWorld (book w) (settings w) (containerRef w) (renditionRef w) (bookRef w)
    (isHighlightModeRef w) (justCreatedHighlightRef w) (highlightsLoadedRef w)
    (isReady w) (currentCfi w) (progress w) (isHighlightMode w) v
    (highlightsFromBook w) (highlightPopup w) (engine w) (log w) (db w)
    (inflight w) (now w) (timers w) (nextTimerId w) (settingsCleanup w)
    (pendingDisplay w) (pendingGenerate w).

Definition set_highlightsFromBook (v : bool) (w : World) : World :=
  mkWorld (book w) (settings w) (containerRef w) (renditionRef w) (bookRef w)
    (isHighlightModeRef w) (justCreatedHighlightRef w) (highlightsLoadedRef w)
    (isReady w) (currentCfi w) (progress w) (isHighlightMode w) (highlights w)
    v (highlightPopup w) (engine w) (log w) (db w) (inflight w) (now w)
    (timers w) (nextTimerId w) (settingsCleanup w) (pendingDisplay w)
    (pendingGenerate w).

Definition set_highlightPopup (v : option Popup) (w : World) : World :=
  mkWorld (book w) (settings w) (containerRef w) (renditionRef w) (bookRef w)
    (isHighlightModeRef w) (justCreatedHighlightRef w) (highlightsLoadedRef w)
    (isReady w) (currentCfi w) (progress w) (isHighlightMode w) (highlights w)
    (highlightsFromBook w) v (engine w) (log w) (db w) (inflight w) (now w)
    (timers w) (nextTimerId w) (settingsCleanup w) (pendingDisplay w)
    (pendingGenerate w).

Definition set_engine (v : E) (w : World) : World :=
  mkWorld (book w) (settings w) (containerRef w) (renditionRef w) (bookRef w)
    (isHighlightModeRef w) (justCreatedHighlightRef w) (highlightsLoadedRef w)
    (isReady w) (currentCfi w) (progress w) (isHighlightMode w) (highlights w)
    (highlightsFromBook w) (highlightPopup w) v (log w) (db w) (inflight w)
    (now w) (timers w) (nextTimerId w) (settingsCleanup w) (pendingDisplay w)
    (pendingGenerate w).

Definition set_log (v : list Call) (w : World) : World :=
  mkWorld (book w) (settings w) (containerRef w) (renditionRef w) (bookRef w)
    (isHighlightModeRef w) (justCreatedHighlightRef w) (highlightsLoadedRef w)
    (isReady w) (currentCfi w) (progress w) (isHighlightMode w) (highlights w)
    (highlightsFromBook w) (highlightPopup w) (engine w) v (db w) (inflight w)
    (now w) (timers w) (nextTimerId w) (settingsCleanup w) (pendingDisplay w)
    (pendingGenerate w).

Definition set_db (v : Db.store) (w : World) : World :=
  mkWorld (book w) (settings w) (containerRef w) (renditionRef w) (bookRef w)
    (isHighlightModeRef w) (justCreatedHighlightRef w) (highlightsLoadedRef w)
    (isReady w) (currentCfi w) (progress w) (isHighlightMode w) (highlights w)
    (highlightsFromBook w) (highlightPopup w) (engine w) (log w) v
    (inflight w) (now w) (timers w) (nextTimerId w) (settingsCleanup w)
    (pendingDisplay w) (pendingGenerate w).

Definition set_inflight (v : list Overlap.Job) (w : World) : World :=
  mkWorld (book w) (settings w) (containerRef w) (renditionRef w) (bookRef w)
    (isHighlightModeRef w) (justCreatedHighlightRef w) (highlightsLoadedRef w)
    (isReady w) (currentCfi w) (progress w) (isHighlightMode w) (highlights w)
    (highlightsFromBook w) (highlightPopup w) (engine w) (log w) (db w) v
    (now w) (timers w) (nextTimerId w) (settingsCleanup w) (pendingDisplay w)
    (pendingGenerate w).

Definition set_now (v : Z) (w : World) : World :=
  mkWorld (book w) (settings w) (containerRef w) (renditionRef w) (bookRef w)
    (isHighlightModeRef w) (justCreatedHighlightRef w) (highlightsLoadedRef w)
    (isReady w) (currentCfi w) (progress w) (isHighlightMode w) (highlights w)
    (highlightsFromBook w) (highlightPopup w) (engine w) (log w) (db w)
    (inflight w) v (timers w) (nextTimerId w) (settingsCleanup w)
    (pendingDisplay w) (pendingGenerate w).

Definition set_timers (v : list Timer) (w : World) : World :=
  mkWorld (book w) (settings w) (containerRef w) (renditionRef w) (bookRef w)
    (isHighlightModeRef w) (justCreatedHighlightRef w) (highlightsLoadedRef w)
    (isReady w) (currentCfi w) (progress w) (isHighlightMode w) (highlights w)
    (highlightsFromBook w) (highlightPopup w) (engine w) (log w) (db w)
    (inflight w) (now w) v (nextTimerId w) (settingsCleanup w)
    (pendingDisplay w) (pendingGenerate w).

Definition set_nextTimerId (v : nat) (w : World) : World :=
  mkWorld (book w) (settings w) (containerRef w) (renditionRef w) (bookRef w)
    (isHighlightModeRef w) (justCreatedHighlightRef w) (highlightsLoadedRef w)
    (isReady w) (currentCfi w) (progress w) (isHighlightMode w) (highlights w)
    (highlightsFromBook w) (highlightPopup w) (engine w) (log w) (db w)
    (inflight w) (now w) (timers w) v (settingsCleanup w) (pendingDisplay w)
    (pendingGenerate w).

Definition set_settingsCleanup (v : option nat) (w : World) : World :=
  mkWorld (book w) (settings w) (containerRef w) (renditionRef w) (bookRef w)
    (isHighlightModeRef w) (justCreatedHighlightRef w) (highlightsLoadedRef w)
    (isReady w) (currentCfi w) (progress w) (isHighlightMode w) (highlights w)
    (highlightsFromBook w) (highlightPopup w) (engine w) (log w) (db w)
    (inflight w) (now w) (timers w) (nextTimerId w) v (pendingDisplay w)
    (pendingGenerate w).

Definition set_pendingDisplay (v : option ReaderSettings) (w : World) : World :=
  mkWorld (book w) (settings w) (containerRef w) (renditionRef w) (bookRef w)
    (isHighlightModeRef w) (justCreatedHighlightRef w) (highlightsLoadedRef w)
    (isReady w) (currentCfi w) (progress w) (isHighlightMode w) (highlights w)
    (highlightsFromBook w) (highlightPopup w) (engine w) (log w) (db w)
    (inflight w) (now w) (timers w) (nextTimerId w) (settingsCleanup w) v
    (pendingGenerate w).

Definition set_pendingGenerate (v : bool) (w : World) : World :=
  mkWorld (book w) (settings w) (containerRef w) (renditionRef w) (bookRef w)
    (isHighlightModeRef w) (justCreatedHighlightRef w) (highlightsLoadedRef w)
    (isReady w) (currentCfi w) (progress w) (isHighlightMode w) (highlights w)
    (highlightsFromBook w) (highlightPopup w) (engine w) (log w) (db w)
    (inflight w) (now w) (timers w) (nextTimerId w) (settingsCleanup w)
    (pendingDisplay w) v.

(** ** Handlers: they run to completion or end in a thrown error *)

Inductive Completion (A : Type) :=
  | Returned (a : A)
  | Threw.
Arguments Returned {A} a.
Arguments Threw {A}.

Definition M (A : Type) : Type := World → Completion A * World.

#[global] Instance M_ret : MRet M := λ A a w, (Returned a, w).

#[global] Instance M_bind : MBind M := λ A B k m w,
  match m w with
  | (Returned a, w') => k a w'
  | (Threw, w') => (Threw, w')
  end.

Definition throw {A} : M A := λ w, (Threw, w).
Definition get : M World := λ w, (Returned w, w).
Definition modify (f : World → World) : M unit := λ w, (Returned tt, f w).

(** [try { m } catch (e) { }] *)
Definition try_catch (m : M unit) : M unit := λ w, (Returned tt, snd (m w)).

(** [l.forEach(f)]: a throwing callback ends the loop. *)
Fixpoint forEach {A} (l : list A) (f : A → M unit) : M unit :=
  match l with
  | [] => mret tt
  | a :: l' => f a ;; forEach l' f
  end.

(** An event handler or timer callback at the top of the event loop: an
    uncaught error is reported and the loop goes on. *)
Definition run (m : M unit) (w : World) : World := snd (m w).

Definition emit (c : Call) : M unit :=
  modify (λ w, set_log (log w ++ [c]) w).

Definition call (c : Call) : M unit :=
  modify (λ w, set_engine (perform c (engine w)) (set_log (log w ++ [c]) w)).

Definition overlay_call (c : Call) : M unit :=
  w ← get;
  call c ;;
  if throws c (engine w) then throw else mret tt.

(** A call of an [async] function of the persistence gateway whose promise
    is dropped: the function runs up to its first [await] and returns; the
    call is in flight from then on, and the handler goes on without it. *)
Definition persist (call : Overlap.Job) : M unit :=
  modify (λ w, set_inflight (inflight w ++ [call]) w).

Definition setTimeout (k : Task) (delay : Z) : M nat :=
  w ← get;
  modify (λ w, set_nextTimerId (S (nextTimerId w))
                 (set_timers (timers w ++ [mkTimer (nextTimerId w) (now w + delay) k]) w)) ;;
  mret (nextTimerId w).

Definition clearTimeout (t : nat) : M unit :=
  modify (λ w, set_timers (filter (λ x, tid x ≠ t) (timers w)) w).

(** ** The component *)

(** The style object of [applyTheme]. *)
Definition themeObj (s : ReaderSettings) : ThemeObj :=
  let selectionColor :=
    match theme s with
    | night => js "rgba(150, 150, 150, 0.4)"
    | sepia => js "rgba(91, 70, 54, 0.3)"
    | light => js "rgba(255, 232, 66, 0.3)"
    end in
  let textColor :=
    match theme s with
    | night => js "#c0c0c0"
    | sepia => js "#5b4636"
    | light => js "#2b2b2b"
    end in
  {| body_font_family :=
       match fontFamily s with
       | serif => js "Merriweather, serif !important"
       | sans => js "Inter, sans-serif !important"
       end;
     body_color := textColor ++ js " !important";
     body_font_size := fontSize s;
     img_filter :=
       match theme s with
       | night => js "brightness(0.8) contrast(1.1)"
       | _ => js "none"
       end;
     selection_background := selectionColor ++ js " !important" |}.

Definition applyTheme (s : ReaderSettings) : M unit :=
  call (ThemesRegister (js "custom") (themeObj s)) ;;
  call (ThemesSelect (js "custom")).

(** The body of the [setTimeout] of the settings effect. *)
Definition reconcile (highlights : list Highlight) : M unit :=
  w ← get;
  if negb (renditionRef w) then mret tt else
  (* Clear existing annotations *)
  forEach highlights (λ h,
    try_catch (overlay_call (AnnotationsRemove (cfiRange h) (js "highlight")))) ;;
  (* Re-add all highlights with proper styling *)
  forEach highlights (λ highlight,
    overlay_call (AnnotationsAdd (js "highlight") (cfiRange highlight) (js "hl"))).

(** [useEffect(..., [settings, isReady, applyTheme, highlights])]: the
    cleanup of the previous run, then the effect. *)
Definition settingsEffect : M unit :=
  w ← get;
  match settingsCleanup w with
  | Some timeoutId => clearTimeout timeoutId
  | None => mret tt
  end ;;
  if renditionRef w && isReady w then
    applyTheme (settings w) ;;
    timeoutId ← setTimeout (Reconcile (highlights w)) 100;
    modify (set_settingsCleanup (Some timeoutId))
  else modify (set_settingsCleanup None).

(** [useEffect(..., [isReady, book.highlights])]: the initial highlight
    load. Setting the state to the array it holds does not render again. *)
Definition highlightsLoadEffect : M unit :=
  w ← get;
  match Types.highlights (book w) with
  | Some hs =>
      if renditionRef w && isReady w && negb (highlightsLoadedRef w)
         && (0 <? length hs)%nat
      then
        modify (set_highlightsLoadedRef true) ;;
        if highlightsFromBook w then mret tt
        else
          modify (λ w, set_highlightsFromBook true (set_highlights hs w)) ;;
          settingsEffect
      else mret tt
  | None => mret tt
  end.

Definition updateLocationState (location : Location) : M unit :=
  w ← get;
  if negb (bookRef w) then mret tt else
  let startCfi := start_cfi location in
  modify (set_currentCfi startCfi) ;;
  let percentage := percentageFromCfi (engine w) startCfi in
  let percentageNum := Math_floor (mul percentage (of_Z 100)) in
  modify (set_progress percentageNum) ;;
  persist (Overlap.updateBookProgress (id (book w)) startCfi percentageNum).

(** [useEffect(..., [])]: Initialize EPUB. *)
Definition initEffect : M unit :=
  w ← get;
  match containerRef w with
  | None => mret tt
  | Some _ =>
      modify (set_bookRef true) ;;
      call RenderTo ;;
      modify (set_renditionRef true) ;;
      let startLocation :=
        if truthy (lastLocationCfi (book w))
        then Some (lastLocationCfi (book w)) else None in
      call (Display startLocation) ;;
      modify (λ w, set_pendingDisplay (Some (settings w)) w)
  end.

(** The continuation of [rendition.display(startLocation)], and the render
    that follows [setIsReady(true)]. *)
Definition displaySettled : M unit :=
  w ← get;
  match pendingDisplay w with
  | None => mret tt
  | Some s =>
      modify (set_pendingDisplay None) ;;
      emit (SetIsReady true) ;;
      modify (set_isReady true) ;;
      applyTheme s ;;
      call (LocationsGenerate 1000) ;;
      modify (set_pendingGenerate true) ;;
      settingsEffect ;;
      highlightsLoadEffect
  end.

(** The continuation of [locations.generate(1000)]; [location] is
    [rendition.location]. *)
Definition locationsGenerated (location : option Location) : M unit :=
  w ← get;
  if pendingGenerate w then
    modify (set_pendingGenerate false) ;;
    match location with
    | Some l => updateLocationState l
    | None => mret tt
    end
  else mret tt.

(** The [mouseup] listener of a content document. *)
Definition mouseup (selection : option Selection) : M unit :=
  w ← get;
  if negb (isHighlightModeRef w) then mret tt else
  match selection with
  | None => mret tt
  | Some sel =>
      if isCollapsed sel || (rangeCount sel =? 0)%nat then mret tt else
      let text := trim (toString sel) in
      if negb (truthy text) then mret tt else
      let cfi := rangeCfi sel in
      if truthy cfi then
        modify (set_justCreatedHighlightRef true) ;;
        _ ← setTimeout ResetJustCreated 300;
        overlay_call (AnnotationsAdd (js "highlight") cfi (js "hl")) ;;
        call RemoveAllRanges ;;
        let newHighlight :=
          {| cfiRange := cfi; color := js "#ffff00";
             text := Some text; created := now w |} in
        modify (λ w, set_highlightsFromBook false
                       (set_highlights (highlights w ++ [newHighlight]) w)) ;;
        persist (Overlap.addBookHighlight (id (book w)) newHighlight) ;;
        settingsEffect
      else mret tt
  end.

(** The [markClicked] listener. *)
Definition markClicked (cfi : jsstring) : M unit :=
  w ← get;
  if justCreatedHighlightRef w then mret tt else
  match containerRef w with
  | Some width =>
      modify (set_highlightPopup
                (Some {| popup_cfiRange := cfi; x := (width / 2)%Q; y := 60 |}))
  | None => mret tt
  end.

Definition deleteHighlight (cfi : jsstring) : M unit :=
  w ← get;
  (if renditionRef w
   then overlay_call (AnnotationsRemove cfi (js "highlight")) else mret tt) ;;
  modify (λ w, set_highlightsFromBook false
                 (set_highlights (filter (λ h, cfiRange h ≠ cfi) (highlights w)) w)) ;;
  persist (Overlap.removeBookHighlight (id (book w)) cfi) ;;
  modify (set_highlightPopup None) ;;
  settingsEffect.

(** The font-size and theme buttons of the toolbar. *)
Definition fontSmaller (s : ReaderSettings) : ReaderSettings :=
  with_fontSize s (Math_max 50 (fontSize s - 10)).

Definition fontLarger (s : ReaderSettings) : ReaderSettings :=
  with_fontSize s (Math_min 200 (fontSize s + 10)).

Definition onUpdateSettings (s : ReaderSettings) : M unit :=
  modify (set_settings s) ;;
  settingsEffect.

Definition toggleHighlightMode : M unit :=
  modify (λ w, set_isHighlightMode (negb (isHighlightMode w)) w) ;;
  modify (λ w, set_isHighlightModeRef (isHighlightMode w) w).

(** ** The event loop *)

Inductive Event :=
  | Mount
  | DisplaySettled
  | LocationsGenerated (location : option Location)
  | Relocated (location : Location)
  | MouseUp (selection : option Selection)
  | MarkClicked (cfi : jsstring)
  | FontSmaller
  | FontLarger
  | SelectTheme (t : Theme)
  | ToggleHighlightMode
  | PopupDelete
  | PopupCancel
  | RequestServed (n : nat).

(** The database serves the request that the [n]th call in flight awaits:
    the call runs on to its next [await], or to its end, and then it is in
    flight no more. *)
Definition requestServed (n : nat) : M unit :=
  w ← get;
  match inflight w !! n with
  | Some call =>
      let '(call', store) := Overlap.resume call (db w) in
      modify (set_db store) ;;
      modify (set_inflight
                (match call' with
                 | Overlap.Settled => delete n (inflight w)
                 | _ => <[n := call']> (inflight w)
                 end))
  | None => mret tt
  end.

(** The engine listeners exist once the init effect has registered them. *)
Definition handle (ev : Event) : M unit :=
  w ← get;
  match ev with
  | Mount => initEffect
  | DisplaySettled => displaySettled
  | LocationsGenerated l => locationsGenerated l
  | Relocated l => if renditionRef w then updateLocationState l else mret tt
  | MouseUp sel => if renditionRef w then mouseup sel else mret tt
  | MarkClicked cfi => if renditionRef w then markClicked cfi else mret tt
  | FontSmaller => onUpdateSettings (fontSmaller (settings w))
  | FontLarger => onUpdateSettings (fontLarger (settings w))
  | SelectTheme t => onUpdateSettings (with_theme (settings w) t)
  | ToggleHighlightMode => toggleHighlightMode
  | PopupDelete =>
      match highlightPopup w with
      | Some p => deleteHighlight (popup_cfiRange p)
      | None => mret tt
      end
  | PopupCancel => modify (set_highlightPopup None)
  | RequestServed n => requestServed n
  end.

Definition run_task (k : Task) : M unit :=
  match k with
  | ResetJustCreated => modify (set_justCreatedHighlightRef false)
  | Reconcile hs => reconcile hs
  end.

(** Timers fire in the order of their due times, and in the order they were
    set when these are equal. *)
Fixpoint insert_timer (t : Timer) (l : list Timer) : list Timer :=
  match l with
  | [] => [t]
  | u :: l' => if due t <? due u then t :: l else u :: insert_timer t l'
  end.

Definition by_due (l : list Timer) : list Timer :=
  foldl (λ acc t, insert_timer t acc) [] l.

(** The clock reaches [t]: the timers due by then fire. *)
Definition advance (t : Z) (w : World) : World :=
  let ready := by_due (filter (λ x, due x ≤ t) (timers w)) in
  let w := set_timers (filter (λ x, ¬ due x ≤ t) (timers w))
             (set_now (Z.max (now w) t) w) in
  foldl (λ w x, run (run_task (task x)) w) w ready.

(** Event [ev] is delivered at time [t]. *)
Definition step (w : World) (tev : Z * Event) : World :=
  run (handle (snd tev)) (advance (fst tev) w).

Definition exec (w : World) (evs : list (Z * Event)) : World :=
  foldl step w evs.

(** The component as first rendered: [useState] initial values and refs. *)
Definition initial (b : Book) (s : ReaderSettings) (container : option Q)
    (e : E) (store : Db.store) : World :=
  {| book := b; settings := s; containerRef := container;
     renditionRef := false; bookRef := false;
     isHighlightModeRef := false; justCreatedHighlightRef := false;
     highlightsLoadedRef := false;
     isReady := false; currentCfi := []; progress := S754_zero false;
     isHighlightMode := false;
     highlights := default [] (Types.highlights b);
     highlightsFromBook := bool_decide (is_Some (Types.highlights b));
     highlightPopup := None;
     engine := e; log := []; db := store; inflight := [];
     now := 0; timers := []; nextTimerId := 0%nat; settingsCleanup := None;
     pendingDisplay := None; pendingGenerate := false |}.

(** The toolbar events that change [fontSize] or [theme]. *)
Definition is_settings_mutation (ev : Event) : bool :=
  match ev with
  | FontSmaller | FontLarger | SelectTheme _ => true
  | _ => false
  end.

(** The overlay calls of a reconciliation over [hs], in program order. *)
Definition removals (hs : list Highlight) : list Call :=
  (λ h, AnnotationsRemove (cfiRange h) (js "highlight")) <$> hs.

Definition additions (hs : list Highlight) : list Call :=
  (λ h, AnnotationsAdd (js "highlight") (cfiRange h) (js "hl")) <$> hs.

(** What makes an engine keep its overlays under their identifiers, with
    [visible e] the identifiers of the overlays on display: adding returns,
    removing takes the overlays of the identifier away, and adding an
    identifier that has no overlay puts up exactly one. *)
Record OverlayLaws (visible : E → list jsstring) : Prop := {
  add_returns : ∀ c e,
    throws (AnnotationsAdd (js "highlight") c (js "hl")) e = false;
  visible_remove : ∀ c e,
    visible (perform (AnnotationsRemove c (js "highlight")) e)
      ≡ₚ filter (λ k, k ≠ c) (visible e);
  visible_add : ∀ c e,
    c ∉ visible e →
    visible (perform (AnnotationsAdd (js "highlight") c (js "hl")) e)
      ≡ₚ c :: visible e
}.

(** The engine after a list of calls, whether they return or throw. *)
Definition performs (cs : list Call) (e : E) : E :=
  foldl (λ e c, perform c e) e cs.

(** The identifiers of the overlays that a log of calls asks to add. *)
Definition added_overlays (l : list Call) : list jsstring :=
  omap (λ c, match c with AnnotationsAdd _ cfi _ => Some cfi | _ => None end) l.

(** The mark-click suppression that a highlight creation at time [t0]
    starts: the flag is up, the clock has reached [t0], and every pending
    reset of the flag is due 300ms after [t0] at the earliest. *)
Definition suppressing (t0 : Z) (w : World) : Prop :=
  justCreatedHighlightRef w = true
  ∧ t0 ≤ now w
  ∧ Forall (λ x, task x = ResetJustCreated → t0 + 300 ≤ due x) (timers w).

(** [keeps P]: if [P] holds of the first world, it holds of the second. *)
Definition keeps (P : World → Prop) : relation World := λ w w', P w → P w'.

(** The calls that mark the session ready, apply a theme or start the
    construction of the location index. *)
Definition is_ready_action (c : Call) : bool :=
  match c with
  | SetIsReady _ | ThemesRegister _ _ | ThemesSelect _ | LocationsGenerate _ => true
  | _ => false
  end.

(** [calm w w']: if the second world is not ready, neither was the first,
    and the calls made in between are free of ready actions. *)
Definition calm : relation World := λ w w',
  isReady w' = false →
  isReady w = false
  ∧ ∃ l, log w' = log w ++ l ∧ Forall (λ c, is_ready_action c = false) l.

(** [extends w w']: the log of the second world continues the first's. *)
Definition extends : relation World := λ w w', ∃ l, log w' = log w ++ l.

(** The settings that the pending continuation of the display closed over
    are the settings of the session. *)
Definition captured_current (w : World) : Prop :=
  ∀ s, pendingDisplay w = Some s → s = settings w.

(** ** Relating the worlds before and after a handler *)

(** [frames R m]: whatever [m] does, and whether it returns or throws, the
    world it leaves is related by [R] to the world it started in. *)
Definition frames {A} (R : relation World) (m : M A) : Prop :=
  ∀ w, R w (snd (m w)).

(** [same f]: the two worlds agree on the field [f]. *)
Definition same {B} (f : World → B) : relation World := λ w w', f w' = f w.


(** ** What a handler makes of an invariant *)

(** [triple P m Q X]: from a world in [P], [m] returns in a world in [Q]
    or throws in a world in [X]. *)
Definition triple {A} (P : World → Prop) (m : M A)
    (Q : A → World → Prop) (X : World → Prop) : Prop :=
  ∀ w, P w →
    match m w with
    | (Returned a, w') => Q a w'
    | (Threw, w') => X w'
    end.

Definition never_throws {A} (m : M A) : Prop :=
  ∀ w, ∃ a w', m w = (Returned a, w').

(** ** The highlight mode and its ref *)

Definition mode_in_ref (w : World) : Prop :=
  isHighlightModeRef w = isHighlightMode w.

(** ** The pending reconciliations *)

Definition is_reconcile (k : Task) : bool :=
  match k with Reconcile _ => true | ResetJustCreated => false end.

Definition pending_reconciliations (w : World) : list Timer :=
  filter (λ x, is_reconcile (task x) = true) (timers w).

(** The timer ids are distinct and below the next id, and a pending
    reconciliation is the one that the cleanup of the settings effect
    holds, set at most 100ms ago. *)
Definition timers_owned (w : World) : Prop :=
  NoDup (tid <$> timers w)
  ∧ Forall (λ x, (tid x < nextTimerId w)%nat) (timers w)
  ∧ Forall (λ x, is_reconcile (task x) = true →
               settingsCleanup w = Some (tid x) ∧ due x ≤ now w + 100) (timers w).

(** Moreover a pending reconciliation closes over the highlights of the
    session. *)
Definition debounced (w : World) : Prop :=
  timers_owned w
  ∧ Forall (λ x, ∀ hs, task x = Reconcile hs → hs = highlights w) (timers w).

Definition clock (w : World) := (timers w, nextTimerId w, settingsCleanup w, now w).

(** ** The session and the record of its book *)

(** The store once the calls in flight have been served, each alone and
    to its end, in the order of their issue. With no call in flight it is
    the store. *)
Definition settled (w : World) : Db.store :=
  foldl (λ s call, Overlap.finish call s) (db w) (inflight w).

(** The events at which the database serves the call that was issued
    first: the calls in flight are served one at a time, in their order. *)
Definition serves_oldest (ev : Event) : bool :=
  match ev with
  | RequestServed n => (n =? 0)%nat
  | _ => true
  end.

(** The record of the book of the session in the settled store. *)
Definition stored (w : World) : option Book := settled w !! id (book w).

(** The store holds the highlights that the session holds. *)
Definition highlights_in_step (w : World) : Prop :=
  ∃ b, stored w = Some b ∧ id b = id (book w)
       ∧ default [] (Types.highlights b) = highlights w.

(** The initial highlight load has run, or has nothing to load. *)
Definition load_over (w : World) : Prop :=
  highlightsLoadedRef w = true ∨ default [] (Types.highlights (book w)) = [].

Definition shelf (w : World) :=
  (settled w, highlights w, highlightsLoadedRef w, book w).

Definition synced (bk : Book) (w : World) : Prop :=
  highlights_in_step w ∧ load_over w ∧ book w = bk.

(** The events that create or delete a highlight. *)
Definition is_highlight_edit (ev : Event) : bool :=
  match ev with
  | MouseUp _ | PopupDelete => true
  | _ => false
  end.

(** The book is being opened: the rendition exists and the highlights are
    the ones the book came with. *)
Definition opening (bk : Book) (w : World) : Prop :=
  highlights_in_step w ∧ book w = bk
  ∧ highlights w = default [] (Types.highlights (book w))
  ∧ renditionRef w = true.

Definition desk (w : World) := (shelf w, renditionRef w).

(** The store holds the position that the session shows; before the first
    relocation the session shows none, and the store holds the position
    [cfi0], [p0] that it held when the book was opened. *)
Definition position_in_step (cfi0 : jsstring) (p0 : number) (w : World) : Prop :=
  ∃ b, stored w = Some b ∧ id b = id (book w)
       ∧ ((currentCfi w = [] ∧ progress w = S754_zero false
           ∧ lastLocationCfi b = cfi0 ∧ Types.progress b = p0)
          ∨ (lastLocationCfi b = currentCfi w ∧ Types.progress b = progress w)).

Definition place (w : World) := (settled w, currentCfi w, progress w, book w).

Definition placed (cfi0 : jsstring) (p0 : number) (bk : Book) (w : World) : Prop :=
  position_in_step cfi0 p0 w ∧ book w = bk.

End WithEngine.

Arguments World E : clear implicits.
Arguments M E A : clear implicits.
Arguments Returned {A} a.
Arguments Threw {A}.

End Reader.

(* ===================================================================== *)
(** * components/Reader.tsx: the table of contents                        *)
(* ===================================================================== *)

Module Toc.

(** An entry of [nav.toc], as the component reads it. *)
#[local] Unset Elimination Schemes.
Inductive NavItem :=
  | mkNavItem (label href : jsstring) (subitems : option (list NavItem)).
#[local] Set Elimination Schemes.

Definition label (item : NavItem) : jsstring :=
  match item with mkNavItem l _ _ => l end.
Definition href (item : NavItem) : jsstring :=
  match item with mkNavItem _ h _ => h end.
Definition subitems (item : NavItem) : option (list NavItem) :=
  match item with mkNavItem _ _ s => s end.

(** A rendered [<li><button>]: its text, the target its click selects and
    its left padding in pixels. *)
Record Button := mkButton {
  button_text : jsstring;
  button_target : jsstring;
  paddingLeft : Z
}.

(** [<TocItem item onSelect level />]: the buttons in document order. *)
Fixpoint TocItem (level : Z) (item : NavItem) : list Button :=
  match item with
  | mkNavItem label href subitems =>
      {| button_text := label; button_target := href;
         paddingLeft := (level + 1) * 16 |}
      :: match subitems with
         | Some subs =>
             if (0 <? length subs)%nat
             then flat_map (TocItem (level + 1)) subs
             else []
         | None => []
         end
  end.

(** The list of the sidebar: [toc.map(item => <TocItem item />)], or
    nothing but the notice when the table of contents is empty. *)
Definition contents (toc : list NavItem) : option (list Button) :=
  if (length toc =? 0)%nat then None else Some (flat_map (TocItem 0) toc).

(** [inside d root item]: [item] is [root] or one of its descendants, [d]
    levels down. *)
Inductive inside : nat → NavItem → NavItem → Prop :=
  | inside_here item : inside 0 item item
  | inside_below d l h subs child item :
      child ∈ subs → inside d child item →
      inside (S d) (mkNavItem l h (Some subs)) item.

(** The number of entries of a subtree. *)
Fixpoint entries (item : NavItem) : nat :=
  match item with
  | mkNavItem _ _ subitems =>
      S (match subitems with
         | Some subs => list_sum (map entries subs)
         | None => 0
         end)
  end.

End Toc.

(* ===================================================================== *)
(** * JSON texts of the settings                                          *)
(* ===================================================================== *)

Module JSON.
Import Types.

(** The quotation mark. *)
Definition quote : N := 0x22%N.

Definition quoted (s : jsstring) : jsstring := quote :: s ++ [quote].

(** The decimal digits of an integer. *)
Fixpoint uint_text (d : Decimal.uint) : jsstring :=
  match d with
  | Decimal.Nil => []
  | Decimal.D0 d' => 0x30%N :: uint_text d'
  | Decimal.D1 d' => 0x31%N :: uint_text d'
  | Decimal.D2 d' => 0x32%N :: uint_text d'
  | Decimal.D3 d' => 0x33%N :: uint_text d'
  | Decimal.D4 d' => 0x34%N :: uint_text d'
  | Decimal.D5 d' => 0x35%N :: uint_text d'
  | Decimal.D6 d' => 0x36%N :: uint_text d'
  | Decimal.D7 d' => 0x37%N :: uint_text d'
  | Decimal.D8 d' => 0x38%N :: uint_text d'
  | Decimal.D9 d' => 0x39%N :: uint_text d'
  end.

(** [Number::toString] on an integral value of magnitude below 10^21:
    its decimal digits, after a minus sign when it is negative. *)
Definition number_text (z : Z) : jsstring :=
  match Z.to_int z with
  | Decimal.Pos d => uint_text d
  | Decimal.Neg d => 0x2D%N :: uint_text d
  end.

Definition theme_name (t : Theme) : jsstring :=
  match t with light => js "light" | sepia => js "sepia" | night => js "night" end.

Definition fontFamily_name (f : FontFamily) : jsstring :=
  match f with serif => js "serif" | sans => js "sans" end.

(** [JSON.stringify] on a settings object: its members in the order of
    their creation, which is the order of [DEFAULT_SETTINGS] (an object
    spread keeps the order of the object it copies). *)
Definition stringify (s : ReaderSettings) : jsstring :=
  js "{" ++ quoted (js "theme") ++ js ":" ++ quoted (theme_name (theme s))
  ++ js "," ++ quoted (js "fontSize") ++ js ":" ++ number_text (fontSize s)
  ++ js "," ++ quoted (js "fontFamily") ++ js ":"
  ++ quoted (fontFamily_name (fontFamily s)) ++ js "}".

(** The values of the members of a settings object. *)
Inductive value :=
  | Str (s : jsstring)
  | Num (z : Z).

(** JSON white space: space, tab, line feed, carriage return. *)
Definition is_ws (c : N) : bool :=
  ((c =? 0x20) || (c =? 0x09) || (c =? 0x0A) || (c =? 0x0D))%N.

Fixpoint skip_ws (s : jsstring) : jsstring :=
  match s with
  | c :: s' => if is_ws c then skip_ws s' else s
  | [] => []
  end.

(** The characters of a string up to its closing quotation mark. A string
    with an escape is not read (the settings have none), and a control
    character ends the reading as it ends [JSON.parse]. *)
Fixpoint read_string (s : jsstring) : option (jsstring * jsstring) :=
  match s with
  | [] => None
  | c :: s' =>
      if (c =? quote)%N then Some ([], s')
      else if ((c =? 0x5C) || (c <? 0x20))%N then None
      else '(str, rest) ← read_string s'; Some (c :: str, rest)
  end.

Definition digit_of (c : N) : option (Decimal.uint → Decimal.uint) :=
  if (c =? 0x30)%N then Some Decimal.D0
  else if (c =? 0x31)%N then Some Decimal.D1
  else if (c =? 0x32)%N then Some Decimal.D2
  else if (c =? 0x33)%N then Some Decimal.D3
  else if (c =? 0x34)%N then Some Decimal.D4
  else if (c =? 0x35)%N then Some Decimal.D5
  else if (c =? 0x36)%N then Some Decimal.D6
  else if (c =? 0x37)%N then Some Decimal.D7
  else if (c =? 0x38)%N then Some Decimal.D8
  else if (c =? 0x39)%N then Some Decimal.D9
  else None.

Fixpoint read_digits (s : jsstring) : Decimal.uint * jsstring :=
  match s with
  | c :: s' =>
      match digit_of c with
      | Some d => let '(ds, rest) := read_digits s' in (d ds, rest)
      | None => (Decimal.Nil, s)
      end
  | [] => (Decimal.Nil, [])
  end.

(** A number without fraction and exponent, in the form JSON allows (no
    leading zero); [-0] and numbers with a fraction or an exponent are not
    integers of the model and are not read. *)
Definition read_int (s : jsstring) : option (Z * jsstring) :=
  let '(negative, s1) :=
    match s with
    | c :: s' => if (c =? 0x2D)%N then (true, s') else (false, s)
    | [] => (false, [])
    end in
  let '(ds, rest) := read_digits s1 in
  let d := if negative then Decimal.Neg ds else Decimal.Pos ds in
  match ds with
  | Decimal.Nil => None
  | _ =>
      if negb (Decimal.int_beq (Decimal.norm d) d) then None
      else
        match rest with
        | c :: _ =>
            if ((c =? 0x2E) || (c =? 0x65) || (c =? 0x45))%N then None
            else Some (Z.of_int d, rest)
        | [] => Some (Z.of_int d, rest)
        end
  end.

Definition read_value (s : jsstring) : option (value * jsstring) :=
  match s with
  | c :: s' =>
      if (c =? quote)%N then '(str, rest) ← read_string s'; Some (Str str, rest)
      else '(z, rest) ← read_int s; Some (Num z, rest)
  | [] => None
  end.

(** The members after the opening brace or a comma, up to the closing
    brace; [fuel] bounds their number. *)
Fixpoint read_members (fuel : nat) (s : jsstring)
    : option (list (jsstring * value) * jsstring) :=
  match fuel with
  | O => None
  | S fuel' =>
      match skip_ws s with
      | c :: s1 =>
          if negb (c =? quote)%N then None else
          '(key, s2) ← read_string s1;
          match skip_ws s2 with
          | c2 :: s3 =>
              if negb (c2 =? 0x3A)%N then None else
              '(v, s4) ← read_value (skip_ws s3);
              match skip_ws s4 with
              | c4 :: s5 =>
                  if (c4 =? 0x7D)%N then Some ([(key, v)], s5)
                  else if (c4 =? 0x2C)%N then
                    '(ms, rest) ← read_members fuel' s5; Some ((key, v) :: ms, rest)
                  else None
              | [] => None
              end
          | [] => None
          end
      | [] => None
      end
  end.

Definition read_object (s : jsstring) : option (list (jsstring * value)) :=
  match skip_ws s with
  | c :: s1 =>
      if negb (c =? 0x7B)%N then None else
      match skip_ws s1 with
      | c1 :: s2 =>
          if (c1 =? 0x7D)%N
          then if bool_decide (skip_ws s2 = []) then Some [] else None
          else
            '(ms, rest) ← read_members (length s1) s1;
            if bool_decide (skip_ws rest = []) then Some ms else None
      | [] => None
      end
  | [] => None
  end.

(** The value of a property: of a name given twice, the last one counts. *)
Definition property (name : jsstring) (ms : list (jsstring * value)) : option value :=
  snd <$> last (filter (λ m, m.1 = name) ms).

Definition theme_of (s : jsstring) : option Theme :=
  if bool_decide (s = js "light") then Some light
  else if bool_decide (s = js "sepia") then Some sepia
  else if bool_decide (s = js "night") then Some night
  else None.

Definition fontFamily_of (s : jsstring) : option FontFamily :=
  if bool_decide (s = js "serif") then Some serif
  else if bool_decide (s = js "sans") then Some sans
  else None.

(** [JSON.parse] where it yields a settings object: a text of an object
    whose [theme], [fontSize] and [fontFamily] are of the declared types.
    [None] stands for every other outcome: a thrown [SyntaxError], or a
    value that is no [ReaderSettings]. *)
Definition parse (text : jsstring) : option ReaderSettings :=
  ms ← read_object text;
  t ← property (js "theme") ms;
  n ← property (js "fontSize") ms;
  f ← property (js "fontFamily") ms;
  match t, n, f with
  | Str t, Num n, Str f =>
      t ← theme_of t; f ← fontFamily_of f;
      Some {| theme := t; fontSize := n; fontFamily := f |}
  | _, _, _ => None
  end.

(** What follows a number in a text that [stringify] makes. *)
Definition ends_number (rest : jsstring) : Prop :=
  match rest with
  | [] => True
  | c :: _ => digit_of c = None ∧ ((c =? 0x2E) || (c =? 0x65) || (c =? 0x45))%N = false
  end.

(** The characters a string of a settings text is made of. *)
Definition plain (s : jsstring) : Prop :=
  Forall (λ c, (c =? quote)%N = false ∧ ((c =? 0x5C) || (c <? 0x20))%N = false) s.

End JSON.

(* ===================================================================== *)
(** * App.tsx and components/Library.tsx                                  *)
(* ===================================================================== *)

Module App.
Import Types.

Inductive View := library | reader.

(** The state of [App], the local storage and the database, what was
    written to the console and shown in alerts; and, of [Library], the
    upload flag and the value of the file input. *)
Record State := mkState {
  view : View;
  currentBook : option Book;
  books : list Book;
  isLoading : bool;
  settings : ReaderSettings;
  localStorage : gmap jsstring jsstring;
  db : Db.store;
  errors : list jsstring;
  alerts : list jsstring;
  isUploading : bool;
  fileInput : jsstring
}.

Definition set_view (v : View) (st : State) : State :=
  mkState v (currentBook st) (books st) (isLoading st) (settings st)
    (localStorage st) (db st) (errors st) (alerts st) (isUploading st)
    (fileInput st).

Definition set_currentBook (v : option Book) (st : State) : State :=
  mkState (view st) v (books st) (isLoading st) (settings st)
    (localStorage st) (db st) (errors st) (alerts st) (isUploading st)
    (fileInput st).

Definition set_books (v : list Book) (st : State) : State :=
  mkState (view st) (currentBook st) v (isLoading st) (settings st)
    (localStorage st) (db st) (errors st) (alerts st) (isUploading st)
    (fileInput st).

Definition set_isLoading (v : bool) (st : State) : State :=
  mkState (view st) (currentBook st) (books st) v (settings st)
    (localStorage st) (db st) (errors st) (alerts st) (isUploading st)
    (fileInput st).

Definition set_settings (v : ReaderSettings) (st : State) : State :=
  mkState (view st) (currentBook st) (books st) (isLoading st) v
    (localStorage st) (db st) (errors st) (alerts st) (isUploading st)
    (fileInput st).

Definition set_localStorage (v : gmap jsstring jsstring) (st : State) : State :=
  mkState (view st) (currentBook st) (books st) (isLoading st)
    (settings st) v (db st) (errors st) (alerts st) (isUploading st)
    (fileInput st).

Definition set_db (v : Db.store) (st : State) : State :=
  mkState (view st) (currentBook st) (books st) (isLoading st) (settings st)
    (localStorage st) v (errors st) (alerts st) (isUploading st)
    (fileInput st).

Definition set_errors (v : list jsstring) (st : State) : State :=
  mkState (view st) (currentBook st) (books st) (isLoading st) (settings st)
    (localStorage st) (db st) v (alerts st) (isUploading st) (fileInput st).

Definition set_alerts (v : list jsstring) (st : State) : State :=
  mkState (view st) (currentBook st) (books st) (isLoading st) (settings st)
    (localStorage st) (db st) (errors st) v (isUploading st) (fileInput st).

Definition set_isUploading (v : bool) (st : State) : State :=
  mkState (view st) (currentBook st) (books st) (isLoading st) (settings st)
    (localStorage st) (db st) (errors st) (alerts st) v (fileInput st).

Definition set_fileInput (v : jsstring) (st : State) : State :=
  mkState (view st) (currentBook st) (books st) (isLoading st) (settings st)
    (localStorage st) (db st) (errors st) (alerts st) (isUploading st) v.

(** [useState(() => ...)]: the settings a fresh page starts with. [None]
    stands for a saved text that [JSON.parse] rejects or that holds no
    settings. *)
Definition initialSettings (storage : gmap jsstring jsstring) : option ReaderSettings :=
  match storage !! js "peerfo-settings" with
  | Some saved => if truthy saved then JSON.parse saved else Some DEFAULT_SETTINGS
  | None => Some DEFAULT_SETTINGS
  end.

Definition loadBooks (st : State) : State :=
  let st :=
    match Db.getAllBooks (db st) with
    | (Db.Fulfilled loadedBooks, s) => set_books loadedBooks (set_db s st)
    | (Db.Rejected error, s) =>
        set_errors (errors st ++ [js "Failed to load library"]) (set_db s st)
    end in
  set_isLoading false st.

(** The first render and its effect. *)
Definition start (storage : gmap jsstring jsstring) (store : Db.store) : option State :=
  s ← initialSettings storage;
  Some (loadBooks
          {| view := library; currentBook := None; books := []; isLoading := true;
             settings := s; localStorage := storage; db := store;
             errors := []; alerts := []; isUploading := false; fileInput := [] |}).

Definition handleBookSelect (book : Book) (st : State) : State :=
  set_view reader (set_currentBook (Some book) st).

Definition handleCloseReader (st : State) : State :=
  loadBooks (set_currentBook None (set_view library st)).

Definition handleUpdateSettings (newSettings : ReaderSettings) (st : State) : State :=
  set_localStorage
    (<[js "peerfo-settings" := JSON.stringify newSettings]> (localStorage st))
    (set_settings newSettings st).

(** What [App] renders. *)
Inductive Screen :=
  | Spinner
  | LibraryScreen (books : list Book)
  | ReaderScreen (book : Book) (settings : ReaderSettings)
  | Blank.

Definition render (st : State) : Screen :=
  if isLoading st then Spinner else
  match view st, currentBook st with
  | library, _ => LibraryScreen (books st)
  | reader, Some b => ReaderScreen b (settings st)
  | reader, None => Blank
  end.

End App.

Module Library.
Import Types App.

(** [books.sort((a, b) => b.addedAt - a.addedAt)]: the cards in the order
    they are shown. *)
Definition cards (bs : list Book) : list Book :=
  Array_sort (λ a b, addedAt b - addedAt a) bs.

Definition handleDelete (confirmed : bool) (k : jsstring) (st : State) : State :=
  if confirmed then
    match Db.deleteBook k (db st) with
    | (Db.Fulfilled _, s) => loadBooks (set_db s st)
    | (Db.Rejected error, s) =>
        set_alerts (alerts st ++ [js "Failed to delete book. Please try again."])
          (set_errors (errors st ++ [js "Error deleting book:"]) (set_db s st))
    end
  else st.

(** [bookInstance.loaded.metadata]; a missing entry reads as the empty
    string, which [||] treats as it treats [undefined]. *)
Record Metadata := mkMetadata { meta_title : jsstring; creator : jsstring }.

(** The file of the change event and what the environment answers while it
    is imported. *)
Record Upload := mkUpload {
  file_name : jsstring;
  arrayBuffer : Db.Promise (list byte);          (* file.arrayBuffer() *)
  metadata : Db.Promise Metadata;                (* bookInstance.loaded.metadata *)
  coverUrlStr : Db.Promise (option jsstring);    (* bookInstance.coverUrl() *)
  response : Db.Promise unit;                    (* fetch(coverUrlStr) *)
  blob : Db.Promise unit;                        (* response.blob() *)
  reader_result : option jsstring;               (* reader.result at loadend *)
  generated_id : jsstring;                       (* generateId() *)
  date_now : Z                                   (* Date.now() *)
}.

Definition then_ {A B} (p : Db.Promise A) (k : A → Db.Promise B) : Db.Promise B :=
  match p with
  | Db.Fulfilled a => k a
  | Db.Rejected err => Db.Rejected err
  end.

(** The [try] block up to [newBook]. *)
Definition newBook (u : Upload) : Db.Promise Book :=
  then_ (arrayBuffer u) (λ buffer,
  then_ (metadata u) (λ md,
  then_ (coverUrlStr u) (λ url,
  then_ (match url with
         | Some str =>
             if truthy str
             then then_ (response u) (λ _, then_ (blob u) (λ _,
                    Db.Fulfilled (reader_result u)))
             else Db.Fulfilled None
         | None => Db.Fulfilled None
         end) (λ cover,
  Db.Fulfilled
    {| id := generated_id u;
       title := if truthy (meta_title md) then meta_title md
                else replace (js ".epub") [] (file_name u);
       author := if truthy (creator md) then creator md else js "Unknown";
       coverUrl := cover;
       data := buffer;
       addedAt := date_now u;
       lastLocationCfi := [];
       progress := of_Z 0;
       totalLocations := None;
       highlights := None |})))).

Definition handleFileUpload (file : option Upload) (st : State) : State :=
  match file with
  | None => st
  | Some u =>
      let st := set_isUploading true st in
      let st :=
        match newBook u with
        | Db.Fulfilled b =>
            match Db.saveBook b (db st) with
            | (Db.Fulfilled _, s) => loadBooks (set_db s st)
            | (Db.Rejected err, s) =>
                set_alerts (alerts st ++ [js "Could not load this EPUB file."])
                  (set_errors (errors st ++ [js "Failed to parse epub"]) (set_db s st))
            end
        | Db.Rejected err =>
            set_alerts (alerts st ++ [js "Could not load this EPUB file."])
              (set_errors (errors st ++ [js "Failed to parse epub"]) st)
        end in
      set_fileInput [] (set_isUploading false st)
  end.

End Library.

(* ===================================================================== *)
(** * A rendering engine for examples                                     *)
(* ===================================================================== *)

(** A small engine that keeps its overlays under their range identifiers,
    used to run the reader on concrete inputs. [annotations.add] throws for
    the identifiers in [unresolvable] and [annotations.remove] for those in
    [stale]; the overlays are listed in paint order. *)
Module TestEngine.
Import Types Reader.

Record t := mk {
  overlays : list jsstring;
  unresolvable : list jsstring;
  stale : list jsstring;
  fraction : number
}.

Definition with_overlays (e : t) (l : list jsstring) : t :=
  {| overlays := l; unresolvable := unresolvable e; stale := stale e;
     fraction := fraction e |}.

#[global] Instance engine : Engine t := {|
  perform c e :=
    match c with
    | AnnotationsAdd _ cfi _ =>
        if bool_decide (cfi ∈ unresolvable e) then e
        else with_overlays e (filter (λ k, k ≠ cfi) (overlays e) ++ [cfi])
    | AnnotationsRemove cfi _ =>
        if bool_decide (cfi ∈ stale e) then e
        else with_overlays e (filter (λ k, k ≠ cfi) (overlays e))
    | _ => e
    end;
  throws c e :=
    match c with
    | AnnotationsAdd _ cfi _ => bool_decide (cfi ∈ unresolvable e)
    | AnnotationsRemove cfi _ => bool_decide (cfi ∈ stale e)
    | _ => false
    end;
  percentageFromCfi e _ := fraction e
|}.

(** An engine without overlays in which every call returns. *)
Definition fresh : t :=
  {| overlays := []; unresolvable := []; stale := []; fraction := S754_zero false |}.

End TestEngine.

(** The same engine without failures. *)
Module PlainEngine.
Import Types Reader.

Record t := mk { overlays : list jsstring }.

#[global] Instance engine : Engine t := {|
  perform c e :=
    match c with
    | AnnotationsAdd _ cfi _ => mk (filter (λ k, k ≠ cfi) (overlays e) ++ [cfi])
    | AnnotationsRemove cfi _ => mk (filter (λ k, k ≠ cfi) (overlays e))
    | _ => e
    end;
  throws _ _ := false;
  percentageFromCfi _ _ := S754_zero false
|}.

End PlainEngine.

(* ===================================================================== *)
(** * Concrete records for the examples                                   *)
(* ===================================================================== *)

Module Sample.
Import Types.

Definition hl (cfi : string) (t : Z) : Highlight :=
  {| cfiRange := js cfi; color := js "#ffff00"; text := Some (js "quote");
     created := t |}.

Definition novel (hs : option (list Highlight)) : Book :=
  {| id := js "novel"; title := js "Novel"; author := js "Unknown";
     coverUrl := None; data := []; addedAt := 1; lastLocationCfi := [];
     progress := S754_zero false; totalLocations := None; highlights := hs |}.

(** A store holding the one book, with two highlights on different ranges. *)
Definition shelf : Db.store :=
  {[ js "novel" := novel (Some [hl "epubcfi(/6/4!/4/2,/1:0,/1:5)" 10;
                                hl "epubcfi(/6/4!/4/6,/1:3,/1:9)" 20]) ]}.

(** The same range highlighted twice. *)
Definition twice : list Highlight :=
  [hl "epubcfi(/6/4!/4/2,/1:0,/1:5)" 10; hl "epubcfi(/6/4!/4/2,/1:0,/1:5)" 30].

Definition shelf_twice : Db.store := {[ js "novel" := novel (Some twice) ]}.

Definition first_range : jsstring := js "epubcfi(/6/4!/4/2,/1:0,/1:5)".
Definition second_range : jsstring := js "epubcfi(/6/4!/4/6,/1:3,/1:9)".

Definition two : list Highlight :=
  [hl "epubcfi(/6/4!/4/2,/1:0,/1:5)" 10; hl "epubcfi(/6/4!/4/6,/1:3,/1:9)" 20].

(** An engine that cannot resolve the first range any more and that throws
    on the removal of the second. *)
Definition failing : TestEngine.t :=
  {| TestEngine.overlays := []; TestEngine.unresolvable := [first_range];
     TestEngine.stale := [second_range];
     TestEngine.fraction := S754_zero false |}.

(** A selection of a few words, with white space around them. *)
Definition third_range : jsstring := js "epubcfi(/6/4!/4/10,/1:2,/1:17)".
Definition fourth_range : jsstring := js "epubcfi(/6/4!/4/12,/1:0,/1:8)".

Definition words (cfi : jsstring) : Reader.Selection :=
  {| Reader.isCollapsed := false; Reader.rangeCount := 1;
     Reader.toString := js "  call me Ishmael "; Reader.rangeCfi := cfi |}.

(** The binary64 value nearest to 0.15. *)
Definition fifteen_percent : number := S754_finite false 5404319552844595 (-55).

(** An engine whose location index places every identifier at 0.15. *)
Definition indexed : TestEngine.t :=
  {| TestEngine.overlays := []; TestEngine.unresolvable := [];
     TestEngine.stale := []; TestEngine.fraction := fifteen_percent |}.

(** A session over the book, mounted and ready, on engine [e]. *)
Definition ready {E} `{Reader.Engine E} (e : E) : Reader.World E :=
  Reader.exec (Reader.initial (novel (Some two)) DEFAULT_SETTINGS (Some 800%Q) e shelf)
    [(0, Reader.Mount); (10, Reader.DisplaySettled)].

(** The same session with highlight mode switched on. *)
Definition highlighting {E} `{Reader.Engine E} (e : E) : Reader.World E :=
  Reader.exec (ready e) [(150, Reader.ToggleHighlightMode)].

(** A second book, added after the first, and the store after both were
    saved. *)
Definition atlas : Book :=
  {| id := js "atlas"; title := js "Atlas"; author := js "Unknown";
     coverUrl := None; data := []; addedAt := 2; lastLocationCfi := [];
     progress := S754_zero false; totalLocations := None; highlights := None |}.

Definition two_books : Db.store :=
  foldl Db.write ∅ [Db.SaveBook (novel (Some two)); Db.SaveBook atlas].

(** The library on screen over the one-book store. *)
Definition page : App.State :=
  {| App.view := App.library; App.currentBook := None; App.books := [];
     App.isLoading := false; App.settings := DEFAULT_SETTINGS;
     App.localStorage := ∅; App.db := shelf;
     App.errors := []; App.alerts := []; App.isUploading := false;
     App.fileInput := js "atlas.epub" |}.

(** A file whose metadata names no title, over a book without cover. *)
Definition atlas_file : Library.Upload :=
  {| Library.file_name := js "atlas.epub";
     Library.arrayBuffer := Db.Fulfilled [];
     Library.metadata := Db.Fulfilled (Library.mkMetadata [] []);
     Library.coverUrlStr := Db.Fulfilled None;
     Library.response := Db.Fulfilled tt;
     Library.blob := Db.Fulfilled tt;
     Library.reader_result := None;
     Library.generated_id := js "atlas";
     Library.date_now := 2 |}.

(** A relocation to the start of the second chapter. *)
Definition start_cfi_two : jsstring := js "epubcfi(/6/6!/4/2/1:0)".

Definition chapter_two : Reader.Location :=
  {| Reader.start_cfi := start_cfi_two |}.

(** From time [t] on the database serves the one call in flight, request
    after request. *)
Definition served (t : Z) : list (Z * Reader.Event) :=
  [(t, Reader.RequestServed 0); (t + 1, Reader.RequestServed 0);
   (t + 2, Reader.RequestServed 0)].

End Sample.

(** The annotation store's [remove] as the specification words it: the
    first entry whose identifier matches is removed. *)
Fixpoint remove_first (cfi : jsstring) (hs : list Types.Highlight) : list Types.Highlight :=
  match hs with
  | [] => []
  | h :: hs' =>
      if decide (Types.cfiRange h = cfi) then hs' else h :: remove_first cfi hs'
  end.

(* ===================================================================== *)
(** * Trimming                                                            *)
(* ===================================================================== *)

Module JSFacts.

Lemma trimStart_white (s : jsstring) :
  Forall (λ c, is_white_space c = true) s → trimStart s = [].
Proof. induction 1 as [|c s Hc _ IH]; simpl; [done|]. by rewrite Hc. Qed.

Lemma trimStart_nil (s : jsstring) :
  trimStart s = [] → Forall (λ c, is_white_space c = true) s.
Proof.
  induction s as [|c s IH]; simpl; [constructor|].
  destruct (is_white_space c) eqn:Hc; [|discriminate].
  intros Hs. constructor; auto.
Qed.

(** A string trims to the empty string exactly when it is made of white
    space only. *)
Lemma trim_nil_iff (s : jsstring) :
  trim s = [] ↔ Forall (λ c, is_white_space c = true) s.
Proof.
  unfold trim, trimEnd. split.
  - intros Ht. apply trimStart_nil.
    apply (f_equal (@rev N)) in Ht. rewrite rev_involutive in Ht. simpl in Ht.
    apply trimStart_nil in Ht.
    destruct (trimStart s) as [|c s'] eqn:Hs; [done|].
    assert (Hc : is_white_space c = true).
    { apply Forall_rev in Ht. rewrite rev_involutive in Ht. by inversion Ht. }
    destruct s as [|d s]; [discriminate|]. simpl in Hs.
    destruct (is_white_space d) eqn:Hd.
    + exfalso. clear -Hs Hc. induction s as [|e s IH]; simpl in Hs; [discriminate|].
      destruct (is_white_space e) eqn:He; [auto|]. inversion Hs; subst. congruence.
    + inversion Hs; subst. congruence.
  - intros Hs. by rewrite (trimStart_white s Hs).
Qed.

Lemma truthy_trim (s : jsstring) :
  ¬ Forall (λ c, is_white_space c = true) s → truthy (trim s) = true.
Proof.
  intros Hs. destruct (trim s) eqn:Ht; [|done].
  exfalso. by apply Hs, trim_nil_iff.
Qed.

End JSFacts.

(* ===================================================================== *)
(** * Rounding of binary64 products                                       *)
(* ===================================================================== *)

Module FloatFacts.

Lemma digits2_size p : digits2_pos p = Pos.size p.
Proof. induction p; simpl; congruence. Qed.

Lemma digits2_le p n : 0 <= n -> Zpos p < 2 ^ n -> Zpos (digits2_pos p) <= n.
Proof.
  intros Hn Hp. rewrite digits2_size.
  pose proof (Pos.size_le p) as Hs.
  assert (H2 : 2 ^ Zpos (Pos.size p) <= 2 * Zpos p).
  { assert (Hz : Zpos (2 ^ Pos.size p) <= Zpos p~0) by exact Hs.
    rewrite Pos2Z.inj_pow in Hz. lia. }
  destruct (Z.le_gt_cases (Zpos (Pos.size p)) n) as [|Hgt]; [assumption|].
  exfalso.
  assert (2 ^ (n + 1) <= 2 ^ Zpos (Pos.size p)) by (apply Z.pow_le_mono_r; lia).
  rewrite Z.pow_add_r in H by lia. lia.
Qed.

Section Iter.
Context {A : Type} (f : A -> A) (P : Z -> A -> Prop).
Hypothesis step : forall k x, 0 <= k -> P k x -> P (k + 1) (f x).

Lemma iter_pos_ind n : forall k x, 0 <= k -> P k x -> P (k + Zpos n) (SpecFloat.iter_pos f n x).
Proof.
  induction n as [n IH|n IH|]; intros k x Hk Hx; simpl.
  - replace (k + Zpos n~1) with (((k + 1) + Zpos n) + Zpos n) by lia.
    apply IH; [lia|]. apply IH; [lia|]. now apply step.
  - replace (k + Zpos n~0) with ((k + Zpos n) + Zpos n) by lia.
    apply IH; [lia|]. now apply IH.
  - now apply step.
Qed.
End Iter.

(* shr_1 on nonnegative mantissas *)
Lemma shr_1_m mrs : 0 <= shr_m mrs -> shr_m (shr_1 mrs) = shr_m mrs / 2.
Proof.
  destruct mrs as [m r s]; simpl. intros Hm.
  destruct m as [|p|p]; [reflexivity| |lia].
  destruct p as [p|p|]; simpl.
  - rewrite Pos2Z.inj_xI. apply Z.div_unique with 1; lia.
  - rewrite Pos2Z.inj_xO. apply Z.div_unique with 0; lia.
  - reflexivity.
Qed.

Lemma shr_1_r mrs : 0 <= shr_m mrs -> shr_r (shr_1 mrs) = Z.odd (shr_m mrs).
Proof.
  destruct mrs as [m r s]; simpl. intros Hm.
  destruct m as [|p|p]; [reflexivity| |lia].
  destruct p as [p|p|]; reflexivity.
Qed.

Lemma shr_1_s mrs : shr_s (shr_1 mrs) = shr_r mrs || shr_s mrs.
Proof.
  destruct mrs as [m r s]; simpl.
  destruct m as [|p|p]; [reflexivity| |]; destruct p; reflexivity.
Qed.

Lemma shifted_step m0 k mrs :
  0 <= m0 -> 0 <= k -> shifted m0 k mrs -> shifted m0 (k + 1) (shr_1 mrs).
Proof.
  intros Hm0 Hk [Hm Hrs].
  assert (Hpos : 0 < 2 ^ k) by (apply Z.pow_pos_nonneg; lia).
  assert (Hm' : 0 <= shr_m mrs) by (rewrite Hm; apply Z.div_pos; lia).
  assert (Hpow : 2 ^ (k + 1) = 2 ^ k * 2) by (rewrite Z.pow_add_r by lia; reflexivity).
  split.
  - rewrite shr_1_m by assumption. rewrite Hm, Hpow, Z.div_div by lia. reflexivity.
  - intros Hmod. rewrite shr_1_r, shr_1_s by assumption.
    rewrite Hpow in Hmod.
    assert (Hdiv : m0 = 2 ^ k * 2 * (m0 / (2 ^ k * 2))).
    { pose proof (Z.div_mod m0 (2 ^ k * 2)). lia. }
    assert (Hmodk : m0 mod 2 ^ k = 0).
    { rewrite Hdiv. rewrite <- Z.mul_assoc, Z.mul_comm. apply Z.mod_mul. lia. }
    destruct (Hrs Hmodk) as [-> ->]. split; [|reflexivity].
    rewrite Hm. 
    set (q := m0 / (2 ^ k * 2)) in *.
    replace (m0 / 2 ^ k) with (2 * q).
    + rewrite Z.odd_mul. reflexivity.
    + apply Z.div_unique with 0; lia.
Qed.

Lemma shifted_iter m0 n :
  0 <= m0 ->
  shifted m0 (Zpos n) (SpecFloat.iter_pos shr_1 n (Build_shr_record m0 false false)).
Proof.
  intros Hm0.
  apply (iter_pos_ind shr_1 (shifted m0)
           (fun k x Hk => shifted_step m0 k x Hm0 Hk) n 0); [lia|].
  split; simpl; [now rewrite Z.div_1_r|auto].
Qed.

(* rounding to nearest even never goes above the ceiling *)
Lemma round_shifted m0 k mrs :
  0 <= m0 -> 0 <= k -> shifted m0 k mrs ->
  let mr := round_nearest_even (shr_m mrs) (loc_of_shr_record mrs) in
  m0 / 2 ^ k <= mr ∧ (forall M, m0 <= M * 2 ^ k -> mr <= M).
Proof.
  intros Hm0 Hk [Hm Hrs] mr.
  assert (Hpos : 0 < 2 ^ k) by (apply Z.pow_pos_nonneg; lia).
  assert (Hcases : mr = shr_m mrs
                   ∨ (mr = shr_m mrs + 1 ∧ m0 mod 2 ^ k <> 0)).
  { unfold mr. destruct mrs as [m r s]; simpl in *.
    destruct r, s; simpl; auto;
      try (right; split; [reflexivity|]; intros H0; destruct (Hrs H0); discriminate).
    destruct (Z.even m); auto.
    right; split; [reflexivity|]; intros H0; destruct (Hrs H0); discriminate. }
  pose proof (Z.div_mod m0 (2 ^ k)) as Hdm.
  pose proof (Z.mod_pos_bound m0 (2 ^ k) Hpos) as Hmb.
  split.
  - destruct Hcases as [-> | [-> _]]; lia.
  - intros M HM.
    assert (Hq : m0 / 2 ^ k <= M).
    { apply Z.div_le_upper_bound; lia. }
    destruct Hcases as [-> | [-> Hne]]; [lia|].
    rewrite Hm. 
    assert (m0 / 2 ^ k <> M); [|lia].
    intros HeqM. nia.
Qed.

Lemma shr_stage (m e n : Z) :
  0 <= m ->
  shifted m (Z.max 0 n) (fst (shr (Build_shr_record m false false) e n))
  ∧ snd (shr (Build_shr_record m false false) e n) = e + Z.max 0 n.
Proof.
  intros Hm. destruct n as [|p|p]; simpl.
  - split; [|lia]. split; simpl; [now rewrite Z.div_1_r|auto].
  - split; [|lia].  apply (shifted_iter m p Hm).
  - split; [|lia]. split; simpl; [now rewrite Z.div_1_r|auto].
Qed.

Lemma Zdigits2_le (m n : Z) : 0 <= m -> 0 <= n -> m < 2 ^ n -> Zdigits2 m <= n.
Proof.
  intros Hm Hn Hlt. destruct m as [|p|p]; simpl; [lia| |lia].
  now apply digits2_le.
Qed.

Lemma fexp_small (d : Z) : d <= 7 -> fexp prec emax d < 0.
Proof. unfold fexp, emin, prec, emax. lia. Qed.

(* a mantissa below 100 * 2^(-e) has few digits *)
Lemma digits_below_100 (m e : Z) :
  0 <= m -> e <= 0 -> m <= 100 * 2 ^ (- e) -> Zdigits2 m + e <= 7.
Proof.
  intros Hm He Hle.
  assert (Hd : Zdigits2 m <= 7 - e); [|lia].
  apply Zdigits2_le; [lia|lia|].
  replace (7 - e) with (7 + - e) by lia. rewrite Z.pow_add_r by lia.
  assert (0 < 2 ^ (- e)) by (apply Z.pow_pos_nonneg; lia).
  change (2 ^ 7) with 128. lia.
Qed.

Lemma round_aux_below_100 (mx : positive) (ex : Z) :
  ex <= 0 -> Zpos mx <= 100 * 2 ^ (- ex) ->
  match binary_round_aux prec emax false (Zpos mx) ex loc_Exact with
  | S754_zero s => s = false
  | S754_finite s m e => s = false ∧ e <= 0 ∧ Zpos m <= 100 * 2 ^ (- e)
  | _ => False
  end.
Proof.
  intros Hex Hmx. unfold binary_round_aux, shr_fexp. simpl shr_record_of_loc.
  (* first shift *)
  set (n1 := fexp prec emax (Zdigits2 (Zpos mx) + ex) - ex).
  assert (Hn1 : ex + Z.max 0 n1 <= 0).
  { pose proof (fexp_small _ (digits_below_100 (Zpos mx) ex ltac:(lia) Hex Hmx)).
    unfold n1. lia. }
  destruct (shr_stage (Zpos mx) ex n1 ltac:(lia)) as [Hsh1 He1].
  destruct (shr _ ex n1) as [mrs1 e1]. simpl in Hsh1, He1. subst e1.
  set (k1 := Z.max 0 n1) in *.
  destruct (round_shifted (Zpos mx) k1 mrs1 ltac:(lia) ltac:(lia) Hsh1) as [Hlo Hhi].
  set (mr := round_nearest_even _ _) in *.
  assert (Hpow1 : 2 ^ (- ex) = 2 ^ (- (ex + k1)) * 2 ^ k1).
  { rewrite <- Z.pow_add_r by lia. f_equal. lia. }
  assert (Hmr : mr <= 100 * 2 ^ (- (ex + k1))).
  { apply Hhi. rewrite <- Z.mul_assoc, <- Hpow1. exact Hmx. }
  assert (Hmr0 : 0 <= mr).
  { assert (0 <= Zpos mx / 2 ^ k1) by (apply Z.div_pos; [lia|apply Z.pow_pos_nonneg; lia]).
    lia. }
  (* second shift *)
  set (e1 := ex + k1) in *.
  set (n2 := fexp prec emax (Zdigits2 mr + e1) - e1).
  assert (Hn2 : e1 + Z.max 0 n2 <= 0).
  { pose proof (fexp_small _ (digits_below_100 mr e1 Hmr0 Hn1 Hmr)).
    unfold n2. lia. }
  destruct (shr_stage mr e1 n2 Hmr0) as [[Hm2 _] He2].
  destruct (shr _ e1 n2) as [mrs2 e2]. simpl in Hm2, He2. subst e2.
  set (k2 := Z.max 0 n2) in *.
  assert (Hpow2 : 2 ^ (- e1) = 2 ^ (- (e1 + k2)) * 2 ^ k2).
  { rewrite <- Z.pow_add_r by lia. f_equal. lia. }
  assert (Hp2 : 0 < 2 ^ k2) by (apply Z.pow_pos_nonneg; lia).
  assert (Hm2le : shr_m mrs2 <= 100 * 2 ^ (- (e1 + k2))).
  { rewrite Hm2. apply Z.div_le_upper_bound; [lia|].
    rewrite Hpow2 in Hmr. lia. }
  assert (Hm2pos : 0 <= shr_m mrs2) by (rewrite Hm2; apply Z.div_pos; lia).
  destruct (shr_m mrs2) as [|m2|m2]; [reflexivity| |lia].
  replace (e1 + k2 <=? emax - prec) with true
    by (symmetry; apply Z.leb_le; unfold emax, prec; lia).
  auto.
Qed.

(** [of_Z] is exact on the integers from 1 to 100. *)
Lemma integer_value_of_Z (z : Z) :
  1 <= z <= 100 -> integer_value (of_Z z) = Some z.
Proof.
  intros Hz.
  assert (Hall : forallb (fun n => match integer_value (of_Z (Z.of_nat n)) with
                                   | Some z' => z' =? Z.of_nat n
                                   | None => false
                                   end) (seq 1 100) = true) by (vm_compute; reflexivity).
  rewrite forallb_forall in Hall.
  specialize (Hall (Z.to_nat z)). rewrite Z2Nat.id in Hall by lia.
  assert (Hin : In (Z.to_nat z) (seq 1 100)) by (apply in_seq; lia).
  specialize (Hall Hin).
  destruct (integer_value (of_Z z)) as [z'|]; [|discriminate].
  apply Z.eqb_eq in Hall. congruence.
Qed.

Lemma digits2_gt p : Zpos p < 2 ^ Zpos (digits2_pos p).
Proof.
  rewrite digits2_size. pose proof (Pos.size_gt p) as Hs.
  assert (Hz : Zpos p < Zpos (2 ^ Pos.size p)) by exact Hs.
  now rewrite Pos2Z.inj_pow in Hz.
Qed.

(** A binary64 value between 0 and 1 is at most [2^(-e)] in units of its
    exponent [e]. *)
Lemma unit_interval (s : bool) (m : positive) (e : Z) :
  is_binary64 (S754_finite s m e) = true ->
  leb (S754_zero false) (S754_finite s m e) = true ->
  leb (S754_finite s m e) (of_Z 1) = true ->
  s = false ∧ e <= -52 ∧ Zpos m <= 2 ^ (- e).
Proof.
  intros Hvalid H0 H1.
  destruct s; [discriminate H0|]. split; [reflexivity|].
  change (of_Z 1) with (S754_finite false 4503599627370496 (-52)) in H1.
  unfold leb, SFleb, SFcompare in H1.
  unfold is_binary64, valid_binary, bounded, canonical_mantissa in Hvalid.
  apply andb_prop in Hvalid as [Hcan _]. apply Z.eqb_eq in Hcan.
  unfold fexp, emin, prec, emax in Hcan.
  destruct (Z.compare_spec e (-52)) as [-> | Hlt | Hgt].
  - split; [lia|].
    destruct (Pos.compare_cont Eq m 4503599627370496) eqn:Hc; try discriminate H1.
    + apply Pos.compare_eq in Hc. subst m. vm_compute. discriminate.
    + apply Pos2Z.pos_lt_pos in Hc.
      assert (Hpow : 2 ^ (- -52) = 4503599627370496) by (vm_compute; reflexivity).
      rewrite Hpow. lia.
  - split; [lia|].
    pose proof (digits2_gt m) as Hd.
    assert (Hle : 2 ^ Zpos (digits2_pos m) <= 2 ^ (- e))
      by (apply Z.pow_le_mono_r; lia).
    lia.
  - discriminate H1.
Qed.

(** The floor of one hundred times a binary64 value between 0 and 1, as the
    arithmetic of numbers computes it, is an integer from 0 to 100. *)
Lemma floor_percent (f : number) :
  is_binary64 f = true ->
  leb (S754_zero false) f = true ->
  leb f (of_Z 1) = true ->
  exists z, 0 <= z <= 100 ∧ integer_value (Math_floor (mul f (of_Z 100))) = Some z.
Proof.
  intros Hvalid H0 H1.
  change (of_Z 100) with (S754_finite false 7036874417766400 (-46)).
  destruct f as [s|s| |s m e]; try discriminate H0.
  - exists 0. split; [lia|reflexivity].
  - destruct s; discriminate.
  - destruct (unit_interval s m e Hvalid H0 H1) as (-> & He & Hm).
    unfold mul, SFmul. cbn [xorb].
    assert (Hex : e + -46 <= 0) by lia.
    assert (Hp : Zpos (m * 7036874417766400) <= 100 * 2 ^ (- (e + -46))).
    { replace (- (e + -46)) with (- e + 46) by lia.
      rewrite Z.pow_add_r, Pos2Z.inj_mul by lia.
      change (2 ^ 46) with 70368744177664.
      change (Zpos 7036874417766400) with (100 * 70368744177664). lia. }
    pose proof (round_aux_below_100 (m * 7036874417766400) (e + -46) Hex Hp) as Hround.
    destruct (binary_round_aux prec emax false _ _ _) as [s'|s'| |s' m' e'];
      try contradiction.
    + exists 0. split; [lia|reflexivity].
    + destruct Hround as (-> & He' & Hm'). unfold Math_floor.
      assert (Hz : 0 <= floorZ false m' e' <= 100).
      { unfold floorZ. destruct (0 <=? e') eqn:Hle.
        - apply Z.leb_le in Hle. assert (e' = 0) by lia. subst e'.
          change (2 ^ (- 0)) with 1 in Hm'. change (2 ^ 0) with 1. lia.
        - assert (0 < 2 ^ (- e')) by (apply Z.pow_pos_nonneg; lia).
          split; [apply Z.div_pos; lia|]. apply Z.div_le_upper_bound; lia. }
      destruct (floorZ false m' e') as [|z|z] eqn:Hf.
      * exists 0. split; [lia|reflexivity].
      * exists (Zpos z). split; [lia|]. apply integer_value_of_Z. lia.
      * lia.
Qed.

End FloatFacts.

(* ===================================================================== *)
(** * Lists                                                               *)
(* ===================================================================== *)

Module ListFacts.
Section Filter.
Context {A : Type} (P : A → Prop) `{!∀ x, Decision (P x)}.

Lemma filter_id (l : list A) : (∀ x, x ∈ l → P x) → filter P l = l.
Proof.
  induction l as [|a l IH]; intros Hall; [reflexivity|].
  rewrite filter_cons_True by (apply Hall; left).
  f_equal. apply IH. intros x Hin. apply Hall. by right.
Qed.

Lemma filter_none (l : list A) : (∀ x, x ∈ l → ¬ P x) → filter P l = [].
Proof.
  induction l as [|a l IH]; intros Hall; [reflexivity|].
  rewrite filter_cons_False by (apply Hall; left).
  apply IH. intros x Hin. apply Hall. by right.
Qed.

End Filter.

Lemma Forall_filter {A} (P Q : A → Prop) `{!∀ x, Decision (Q x)} (l : list A) :
  Forall P l → Forall P (filter Q l).
Proof.
  rewrite !Forall_forall. intros Hl x Hx.
  apply list_elem_of_filter in Hx as [_ Hx]. by apply Hl.
Qed.

End ListFacts.

(* ===================================================================== *)
(** * Properties of the persistence gateway                               *)
(* ===================================================================== *)

Module DbFacts.
Import Types Db.

Lemma with_highlights_id (b : Book) hs :
  highlights b = Some hs → with_highlights b hs = b.
Proof. destruct b; simpl; intros ->; reflexivity. Qed.

Lemma filter_all (c : jsstring) (hs : list Highlight) :
  (∀ h, h ∈ hs → cfiRange h ≠ c) → filter (λ h, cfiRange h ≠ c) hs = hs.
Proof. apply ListFacts.filter_id. Qed.

(** When at most one entry matches, filtering the matches out removes the
    first match. *)
Lemma filter_remove_first (c : jsstring) (hs : list Highlight) :
  NoDup (cfiRange <$> hs) →
  filter (λ h, cfiRange h ≠ c) hs = remove_first c hs.
Proof.
  induction hs as [|h hs IH]; intros Hnd; [reflexivity|].
  rewrite fmap_cons in Hnd. apply NoDup_cons in Hnd as [Hnotin Hnd].
  simpl. destruct (decide (cfiRange h = c)) as [Heq|Hne].
  - rewrite filter_cons_False by (intros Hc; by apply Hc).
    apply filter_all. intros h' Hin Heq'. apply Hnotin.
    rewrite Heq, <- Heq'. by apply list_elem_of_fmap_2.
  - rewrite filter_cons_True by done. f_equal. by apply IH.
Qed.

Lemma removeBookHighlight_present (s : store) k b hs c :
  s !! k = Some b → highlights b = Some hs →
  removeBookHighlight k c s =
    (Fulfilled tt, <[id b := with_highlights b (filter (λ h, cfiRange h ≠ c) hs)]> s).
Proof.
  intros Hk Hhs. unfold removeBookHighlight, await, getDB, resolve, db_get. simpl.
  rewrite Hk, Hhs. reflexivity.
Qed.

(** The store keeps its key-path invariant under every write of the
    gateway. *)
Lemma db_put_wf (s : store) b : store_wf s → store_wf (snd (db_put b s)).
Proof.
  intros Hwf k b' Hl. simpl in Hl.
  destruct (decide (id b = k)) as [<-|Hne].
  - rewrite lookup_insert_eq in Hl. by inversion Hl.
  - rewrite lookup_insert_ne in Hl by done. by apply Hwf.
Qed.

(** C10. For a book id that is absent from the store, [updateBookProgress],
    [addBookHighlight] and [removeBookHighlight] each fulfil their promise
    and leave the store exactly as it was. *)
Theorem absent_book_writes_are_noops (s : store) (k cfi : jsstring) (p : number)
    (h : Highlight) (c : jsstring) :
  s !! k = None →
  updateBookProgress k cfi p s = (Fulfilled tt, s)
  ∧ addBookHighlight k h s = (Fulfilled tt, s)
  ∧ removeBookHighlight k c s = (Fulfilled tt, s).
Proof.
  intros Hk.
  unfold updateBookProgress, addBookHighlight, removeBookHighlight,
    await, getDB, resolve, db_get; simpl.
  rewrite Hk. auto.
Qed.

Lemma absent_book_writes_are_noops_witness :
  Sample.shelf !! js "missing" = None
  ∧ updateBookProgress (js "missing") (js "epubcfi(/6/2!/4/2/1:0)") (of_Z 42) Sample.shelf
      = (Fulfilled tt, Sample.shelf)
  ∧ addBookHighlight (js "missing") (Sample.hl "epubcfi(/6/2!/4/2,/1:0,/1:4)" 5) Sample.shelf
      = (Fulfilled tt, Sample.shelf)
  ∧ removeBookHighlight (js "missing") (js "epubcfi(/6/2!/4/2,/1:0,/1:4)") Sample.shelf
      = (Fulfilled tt, Sample.shelf).
Proof.
  assert (Hk : Sample.shelf !! js "missing" = None) by (vm_compute; reflexivity).
  split; [exact Hk|].
  exact (absent_book_writes_are_noops Sample.shelf (js "missing") _ _ _ _ Hk).
Defined.

(** C6, as the specification states it, fails: with the same range
    highlighted twice, [removeBookHighlight] does not remove the first
    matching entry only; it removes both. *)
Lemma removeBookHighlight_not_first_only :
  ¬ (∀ (s : store) k b hs c,
       s !! k = Some b → highlights b = Some hs →
       snd (removeBookHighlight k c s) !! k
         = Some (with_highlights b (remove_first c hs))).
Proof.
  intros Hclaim.
  specialize (Hclaim Sample.shelf_twice (js "novel") (Sample.novel (Some Sample.twice))
                Sample.twice (js "epubcfi(/6/4!/4/2,/1:0,/1:5)")).
  assert (Hl : Sample.shelf_twice !! js "novel" = Some (Sample.novel (Some Sample.twice)))
    by (unfold Sample.shelf_twice; apply lookup_singleton_eq).
  specialize (Hclaim Hl eq_refl).
  rewrite (removeBookHighlight_present _ _ _ _ _ Hl eq_refl) in Hclaim.
  simpl in Hclaim. rewrite lookup_insert_eq in Hclaim.
  vm_compute in Hclaim. discriminate Hclaim.
Qed.

(** C6, amended. For a stored book, [removeBookHighlight] fulfils and
    stores the highlights without every entry whose [cfiRange] equals the
    identifier; this is the removal of the first matching entry when the
    identifiers of the collection are distinct; and when no entry matches,
    the store is left exactly as it was. *)
Theorem removeBookHighlight_removes_matches (s : store) (k : jsstring) (b : Book)
    (hs : list Highlight) (c : jsstring) :
  s !! k = Some b → id b = k → highlights b = Some hs →
  removeBookHighlight k c s =
    (Fulfilled tt, <[k := with_highlights b (filter (λ h, cfiRange h ≠ c) hs)]> s)
  ∧ (NoDup (cfiRange <$> hs) →
     filter (λ h, cfiRange h ≠ c) hs = remove_first c hs)
  ∧ ((∀ h, h ∈ hs → cfiRange h ≠ c) →
     removeBookHighlight k c s = (Fulfilled tt, s)).
Proof.
  intros Hk Hid Hhs.
  pose proof (removeBookHighlight_present s k b hs c Hk Hhs) as Hrun.
  rewrite Hid in Hrun.
  split; [exact Hrun|]. split; [apply filter_remove_first|].
  intros Hnone. rewrite Hrun, (filter_all c hs Hnone), (with_highlights_id b hs Hhs).
  by rewrite insert_id.
Qed.

Lemma removeBookHighlight_removes_matches_witness :
  snd (removeBookHighlight (js "novel") (js "epubcfi(/6/4!/4/6,/1:3,/1:9)") Sample.shelf)
    !! js "novel"
  = Some (Sample.novel (Some [Sample.hl "epubcfi(/6/4!/4/2,/1:0,/1:5)" 10])).
Proof.
  pose proof (removeBookHighlight_removes_matches Sample.shelf (js "novel")
    (Sample.novel (Some [Sample.hl "epubcfi(/6/4!/4/2,/1:0,/1:5)" 10;
                         Sample.hl "epubcfi(/6/4!/4/6,/1:3,/1:9)" 20]))
    _ (js "epubcfi(/6/4!/4/6,/1:3,/1:9)")
    (lookup_singleton_eq _ _) eq_refl eq_refl) as [Hrun _].
  rewrite Hrun. simpl. rewrite lookup_insert_eq. reflexivity.
Defined.

(** ** The writes on a record that is there *)

Ltac gateway :=
  unfold saveBook, getBook, deleteBook, updateBookProgress, addBookHighlight,
    removeBookHighlight, await, getDB, resolve, db_get, db_put, db_delete; simpl.

Lemma updateBookProgress_present (s : store) k b cfi p :
  s !! k = Some b →
  updateBookProgress k cfi p s = (Fulfilled tt, <[id b := with_location b cfi p]> s).
Proof. intros Hk. gateway. by rewrite Hk. Qed.

Lemma addBookHighlight_present (s : store) k b h :
  s !! k = Some b →
  addBookHighlight k h s =
    (Fulfilled tt, <[id b := with_highlights b (default [] (highlights b) ++ [h])]> s).
Proof. intros Hk. gateway. by rewrite Hk. Qed.

Lemma removeBookHighlight_undefined (s : store) k b c :
  s !! k = Some b → highlights b = None →
  removeBookHighlight k c s = (Fulfilled tt, s).
Proof. intros Hk Hhs. gateway. by rewrite Hk, Hhs. Qed.

Lemma gateway_absent (s : store) k cfi p h c :
  s !! k = None →
  (updateBookProgress k cfi p s).2 = s
  ∧ (addBookHighlight k h s).2 = s
  ∧ (removeBookHighlight k c s).2 = s.
Proof. intros Hk. gateway. by rewrite Hk. Qed.

Lemma updateBookProgress_stored (s : store) k b cfi p :
  s !! k = Some b → id b = k →
  (updateBookProgress k cfi p s).2 !! k = Some (with_location b cfi p).
Proof.
  intros Hk Hid. rewrite (updateBookProgress_present _ _ _ _ _ Hk), Hid.
  apply lookup_insert_eq.
Qed.

Lemma addBookHighlight_stored (s : store) k b h :
  s !! k = Some b → id b = k →
  (addBookHighlight k h s).2 !! k
    = Some (with_highlights b (default [] (highlights b) ++ [h])).
Proof.
  intros Hk Hid. rewrite (addBookHighlight_present _ _ _ _ Hk), Hid.
  apply lookup_insert_eq.
Qed.

Lemma removeBookHighlight_stored (s : store) k b c :
  s !! k = Some b → id b = k →
  ∃ b', (removeBookHighlight k c s).2 !! k = Some b'
        ∧ id b' = k
        ∧ lastLocationCfi b' = lastLocationCfi b
        ∧ progress b' = progress b
        ∧ default [] (highlights b')
          = filter (λ h, cfiRange h ≠ c) (default [] (highlights b)).
Proof.
  intros Hk Hid. destruct (highlights b) as [hs|] eqn:Hhs.
  - rewrite (removeBookHighlight_present _ _ _ _ _ Hk Hhs), Hid. simpl.
    rewrite lookup_insert_eq. eexists. split; [reflexivity|]. by simpl.
  - rewrite (removeBookHighlight_undefined _ _ _ _ Hk Hhs). simpl.
    exists b. by rewrite Hhs.
Qed.

(** ** The key path *)

Lemma delete_wf (s : store) (k : jsstring) : store_wf s → store_wf (delete k s).
Proof. intros Hwf k' b Hl. apply lookup_delete_Some in Hl as [_ Hl]. by apply Hwf. Qed.

Lemma gateway_wf (s : store) :
  store_wf s →
  (∀ k cfi p, store_wf (updateBookProgress k cfi p s).2)
  ∧ (∀ k h, store_wf (addBookHighlight k h s).2)
  ∧ (∀ k c, store_wf (removeBookHighlight k c s).2).
Proof.
  intros Hwf. split; [|split].
  - intros k cfi p. destruct (s !! k) as [b|] eqn:Hk.
    + rewrite (updateBookProgress_present _ _ _ _ _ Hk).
      by apply (db_put_wf s (with_location b cfi p)).
    + by destruct (gateway_absent s k cfi p (mkHighlight [] [] None 0) [] Hk) as (-> & _).
  - intros k h. destruct (s !! k) as [b|] eqn:Hk.
    + rewrite (addBookHighlight_present _ _ _ _ Hk).
      by apply (db_put_wf s (with_highlights b _)).
    + by destruct (gateway_absent s k [] (S754_zero false) h [] Hk) as (_ & -> & _).
  - intros k c. destruct (s !! k) as [b|] eqn:Hk.
    + destruct (highlights b) as [hs|] eqn:Hhs.
      * rewrite (removeBookHighlight_present _ _ _ _ _ Hk Hhs).
        by apply (db_put_wf s (with_highlights b _)).
      * by rewrite (removeBookHighlight_undefined _ _ _ _ Hk Hhs).
    + by destruct (gateway_absent s k [] (S754_zero false) (mkHighlight [] [] None 0) c Hk)
        as (_ & _ & ->).
Qed.

Lemma write_wf (s : store) (op : Write) : store_wf s → store_wf (write s op).
Proof.
  intros Hwf. destruct op; simpl.
  - by apply db_put_wf.
  - by apply delete_wf.
  - by apply gateway_wf.
  - by apply gateway_wf.
  - by apply gateway_wf.
Qed.

Lemma writes_wf (s : store) (ops : list Write) :
  store_wf s → store_wf (foldl write s ops).
Proof.
  revert s. induction ops as [|op ops IH]; intros s Hwf; [exact Hwf|].
  simpl. by apply IH, write_wf.
Qed.

(** X1. A book that was saved is read back as it was saved, whatever the
    store held under its id before; the records of the other ids are read
    as before. *)
Theorem saved_book_is_read_back (s : store) (b : Book) :
  ∃ s', saveBook b s = (Fulfilled tt, s')
        ∧ getBook (id b) s' = (Fulfilled (Some b), s')
        ∧ (∀ k, k ≠ id b → getBook k s' = (Fulfilled (s !! k), s')).
Proof.
  exists (<[id b := b]> s). split; [reflexivity|]. split.
  - gateway. by rewrite lookup_insert_eq.
  - intros k Hk. gateway. by rewrite lookup_insert_ne.
Qed.

(** X2. After [deleteBook] the id reads as absent and the other ids read
    as before; deleting an absent id changes nothing; and a later
    [updateBookProgress], [addBookHighlight] or [removeBookHighlight] of
    the deleted id does not bring the record back. *)
Theorem deleted_book_stays_deleted (s : store) (k cfi : jsstring) (p : number)
    (h : Highlight) (c : jsstring) :
  ∃ s', deleteBook k s = (Fulfilled tt, s')
        ∧ getBook k s' = (Fulfilled None, s')
        ∧ (∀ k', k' ≠ k → getBook k' s' = (Fulfilled (s !! k'), s'))
        ∧ (s !! k = None → s' = s)
        ∧ updateBookProgress k cfi p s' = (Fulfilled tt, s')
        ∧ addBookHighlight k h s' = (Fulfilled tt, s')
        ∧ removeBookHighlight k c s' = (Fulfilled tt, s').
Proof.
  exists (delete k s). split; [reflexivity|].
  assert (Hk : delete k s !! k = None) by apply lookup_delete_eq.
  split; [gateway; by rewrite Hk|]. split.
  { intros k' Hne. gateway. by rewrite lookup_delete_ne. }
  split; [apply delete_id|].
  gateway. by rewrite Hk.
Qed.

(** X3. Whatever writes of the gateway are made, in whatever order, on a
    database that starts empty, every record is filed under its own id:
    [getBook k] never yields a record of another id. *)
Theorem gateway_keeps_key_path (ops : list Write) :
  let s := foldl write ∅ ops in
  store_wf s
  ∧ ∀ k b, (getBook k s).1 = Fulfilled (Some b) → id b = k.
Proof.
  intros s.
  assert (Hwf : store_wf s).
  { apply writes_wf. intros k b Hl. by rewrite lookup_empty in Hl. }
  split; [exact Hwf|]. intros k b Hget. apply Hwf.
  unfold getBook, await, getDB, resolve, db_get in Hget. simpl in Hget.
  by inversion Hget.
Qed.

(** X4. Removing the range of a highlight right after it was added, when no
    other stored highlight has that range, leaves the stored highlights as
    they were, an absent list having become the empty list; the store is
    the very same when the book had a list. *)
Theorem removing_an_added_highlight_restores (s : store) (k : jsstring) (b : Book)
    (h : Highlight) :
  s !! k = Some b → id b = k →
  (∀ h', h' ∈ default [] (highlights b) → cfiRange h' ≠ cfiRange h) →
  (removeBookHighlight k (cfiRange h) (addBookHighlight k h s).2).2
    = <[k := with_highlights b (default [] (highlights b))]> s
  ∧ (highlights b ≠ None →
     (removeBookHighlight k (cfiRange h) (addBookHighlight k h s).2).2 = s).
Proof.
  intros Hk Hid Hfresh.
  rewrite (addBookHighlight_present _ _ _ _ Hk), Hid. simpl.
  set (b1 := with_highlights b (default [] (highlights b) ++ [h])).
  assert (Hk1 : <[k := b1]> s !! k = Some b1) by apply lookup_insert_eq.
  rewrite (removeBookHighlight_present _ _ _ _ _ Hk1 eq_refl). simpl.
  rewrite Hid, insert_insert_eq.
  rewrite filter_app, (filter_all _ _ Hfresh).
  rewrite filter_cons_False, filter_nil, app_nil_r by (intros Hc; by apply Hc).
  split; [reflexivity|].
  intros Hsome. destruct (highlights b) as [hs|] eqn:Hhs; [|done].
  change (with_highlights b1 (default [] (Some hs))) with (with_highlights b hs).
  rewrite (with_highlights_id b hs Hhs). by apply insert_id.
Qed.

(** X5. Removing a range twice is removing it once, and the removals of
    two ranges can be made in either order. *)
Theorem highlight_removals_commute (s : store) (k c1 c2 : jsstring) :
  store_wf s →
  (removeBookHighlight k c1 (removeBookHighlight k c1 s).2).2
    = (removeBookHighlight k c1 s).2
  ∧ (removeBookHighlight k c2 (removeBookHighlight k c1 s).2).2
    = (removeBookHighlight k c1 (removeBookHighlight k c2 s).2).2.
Proof.
  intros Hwf.
  destruct (s !! k) as [b|] eqn:Hk.
  2:{ assert (H0 : ∀ c, (removeBookHighlight k c s).2 = s).
      { intros c. gateway. by rewrite Hk. }
      by rewrite !H0. }
  pose proof (Hwf _ _ Hk) as Hid.
  destruct (highlights b) as [hs|] eqn:Hhs.
  2:{ assert (H0 : ∀ c, (removeBookHighlight k c s).2 = s).
      { intros c. by rewrite (removeBookHighlight_undefined _ _ _ _ Hk Hhs). }
      by rewrite !H0. }
  assert (Hrm : ∀ c c', (removeBookHighlight k c' (removeBookHighlight k c s).2).2
      = <[k := with_highlights b
                 (filter (λ h, cfiRange h ≠ c') (filter (λ h, cfiRange h ≠ c) hs))]> s).
  { intros c c'. rewrite (removeBookHighlight_present _ _ _ _ _ Hk Hhs), Hid. simpl.
    set (b1 := with_highlights b _).
    assert (Hk1 : <[k := b1]> s !! k = Some b1) by apply lookup_insert_eq.
    rewrite (removeBookHighlight_present _ _ _ _ _ Hk1 eq_refl). simpl.
    by rewrite Hid, insert_insert_eq. }
  rewrite !Hrm. split.
  - rewrite (removeBookHighlight_present _ _ _ _ _ Hk Hhs), Hid. simpl.
    do 2 f_equal. apply ListFacts.filter_id.
    intros h Hh. by apply list_elem_of_filter in Hh as [? _].
  - do 2 f_equal. rewrite !list_filter_filter. apply list_filter_iff. tauto.
Qed.

(** X6. A write of the position and a write of a highlight, one after the
    other, can be made in either order: the record then holds both; the
    write of the position leaves the stored highlights alone, and the
    write of a highlight leaves the stored position alone. *)
Theorem position_and_highlight_writes_commute (s : store) (k cfi : jsstring)
    (p : number) (h : Highlight) (b : Book) :
  s !! k = Some b → id b = k →
  (addBookHighlight k h (updateBookProgress k cfi p s).2).2
    = (updateBookProgress k cfi p (addBookHighlight k h s).2).2
  ∧ (addBookHighlight k h (updateBookProgress k cfi p s).2).2 !! k
    = Some (with_highlights (with_location b cfi p) (default [] (highlights b) ++ [h]))
  ∧ (∃ b', (updateBookProgress k cfi p s).2 !! k = Some b'
           ∧ highlights b' = highlights b)
  ∧ (∃ b', (addBookHighlight k h s).2 !! k = Some b'
           ∧ lastLocationCfi b' = lastLocationCfi b ∧ progress b' = progress b).
Proof.
  intros Hk Hid. gateway. rewrite Hk. simpl. rewrite Hid, !lookup_insert_eq. simpl.
  rewrite Hid, !insert_insert_eq, !lookup_insert_eq.
  split; [done|]. split; [done|]. split; eauto.
Qed.

(** ** All the books *)

Lemma key_leb_total a b : key_leb a b = true ∨ key_leb b a = true.
Proof.
  revert b. induction a as [|x a IH]; intros [|y b]; simpl; auto.
  destruct (N.ltb_spec x y) as [Hlt|Hge]; simpl; [auto|].
  destruct (N.ltb_spec y x) as [Hlt'|Hge']; simpl; [auto|].
  assert (x = y) as -> by lia. rewrite N.eqb_refl. simpl. apply IH.
Qed.

Lemma key_leb_trans a b c :
  key_leb a b = true → key_leb b c = true → key_leb a c = true.
Proof.
  revert b c. induction a as [|x a IH]; intros [|y b] [|z c]; simpl; try done.
  intros Hab Hbc.
  apply orb_true_iff in Hab as [Hab|Hab]; apply orb_true_iff in Hbc as [Hbc|Hbc];
    rewrite ?andb_true_iff, ?N.ltb_lt, ?N.eqb_eq in *; apply orb_true_iff;
    rewrite ?andb_true_iff, ?N.ltb_lt, ?N.eqb_eq.
  - left; lia.
  - left; lia.
  - left; lia.
  - right. destruct Hab as [-> Hab], Hbc as [-> Hbc]. split; [done|]. by eapply IH.
Qed.

#[local] Instance entry_le_total : Total (λ p q : jsstring * Book, key_le p.1 q.1).
Proof. intros p q. apply key_leb_total. Qed.

#[local] Instance entry_le_trans : Transitive (λ p q : jsstring * Book, key_le p.1 q.1).
Proof. intros p q r. apply key_leb_trans. Qed.

Lemma sorted_entries_ids (s : store) (l : list (jsstring * Book)) :
  store_wf s → (∀ p, p ∈ l → s !! p.1 = Some p.2) → id <$> l.*2 = l.*1.
Proof.
  intros Hwf. induction l as [|[k b] l IH]; intros Hl; [done|].
  simpl. f_equal.
  - apply (Hwf k b). apply (Hl (k, b)). left.
  - apply IH. intros p Hp. apply Hl. by right.
Qed.

Lemma getAllBooks_spec (s : store) :
  store_wf s →
  ∃ l, getAllBooks s = (Fulfilled l, s)
       ∧ (∀ b, b ∈ l ↔ s !! id b = Some b)
       ∧ NoDup (id <$> l)
       ∧ StronglySorted key_le (id <$> l)
       ∧ length l = size s.
Proof.
  intros Hwf.
  set (es := merge_sort (λ p q, key_le p.1 q.1) (map_to_list s)).
  assert (Hperm : es ≡ₚ map_to_list s) by apply merge_sort_Permutation.
  assert (Hes : ∀ p, p ∈ es → s !! p.1 = Some p.2).
  { intros [k b] Hp. rewrite Hperm in Hp. by apply elem_of_map_to_list in Hp. }
  assert (Hids : id <$> es.*2 = es.*1) by (by apply (sorted_entries_ids s)).
  exists (es.*2). split; [reflexivity|]. split; [|split; [|split]].
  - intros b. split.
    + intros Hb. apply list_elem_of_fmap in Hb as [[k b'] [-> Hp]]. simpl.
      pose proof (Hes _ Hp) as Hl. simpl in Hl.
      by rewrite (Hwf _ _ Hl).
    + intros Hb. apply list_elem_of_fmap. exists (id b, b). split; [done|].
      rewrite Hperm. by apply elem_of_map_to_list.
  - rewrite Hids, Hperm. apply NoDup_fst_map_to_list.
  - rewrite Hids.
    assert (Hs : StronglySorted (λ p q : jsstring * Book, key_le p.1 q.1) es)
      by (apply StronglySorted_merge_sort; apply _).
    clear -Hs. induction Hs as [|p l _ IH Hall]; [constructor|].
    simpl. constructor; [exact IH|]. by apply Forall_fmap.
  - rewrite length_fmap, Hperm. apply length_map_to_list.
Qed.

(** X8. [getAllBooks] fulfils with the records of the store, every one
    once, in ascending order of the ids, and leaves the store as it was.
    After [saveBook] the list holds the saved book, and besides it the
    records of the other ids; after [deleteBook] it holds the records of
    the other ids. *)
Theorem getAllBooks_lists_every_record (s : store) :
  store_wf s →
  ∃ l, getAllBooks s = (Fulfilled l, s)
       ∧ (∀ b, b ∈ l ↔ s !! id b = Some b)
       ∧ NoDup (id <$> l)
       ∧ StronglySorted key_le (id <$> l)
       ∧ length l = size s
       ∧ (∀ b, ∃ l', (getAllBooks (saveBook b s).2).1 = Fulfilled l'
            ∧ ∀ b', b' ∈ l' ↔ b' = b ∨ (b' ∈ l ∧ id b' ≠ id b))
       ∧ (∀ k, ∃ l', (getAllBooks (deleteBook k s).2).1 = Fulfilled l'
            ∧ ∀ b', b' ∈ l' ↔ b' ∈ l ∧ id b' ≠ k).
Proof.
  intros Hwf.
  destruct (getAllBooks_spec s Hwf) as (l & Hrun & Hin & Hnd & Hs & Hlen).
  exists l. do 5 (split; [done|]). split.
  - intros b.
    destruct (getAllBooks_spec (saveBook b s).2 (db_put_wf s b Hwf))
      as (l' & Hrun' & Hin' & _).
    exists l'. split; [by rewrite Hrun'|]. intros b'. rewrite Hin', Hin. simpl.
    destruct (decide (id b = id b')) as [Heq|Hne].
    + rewrite Heq, lookup_insert_eq. split.
      * intros [= ->]. by left.
      * intros [->|[_ Hne]]; [done|]. by destruct Hne.
    + rewrite lookup_insert_ne by done. split.
      * intros Hb'. right. by split.
      * intros [->|[Hb' _]]; [done|exact Hb'].
  - intros k.
    destruct (getAllBooks_spec (deleteBook k s).2 (delete_wf s k Hwf))
      as (l' & Hrun' & Hin' & _).
    exists l'. split; [by rewrite Hrun'|]. intros b'. rewrite Hin', Hin. simpl.
    rewrite lookup_delete_Some. split; intros [? ?]; split; auto.
Qed.


End DbFacts.

(* ===================================================================== *)
(** * Properties of the connection and of calls in flight                 *)
(* ===================================================================== *)

Module ConnectionFacts.
Import Connection.

Lemma calls_opened (n : nat) (p : nat) (k : nat) :
  calls n {| dbPromise := Some p; opened := k |}
  = (replicate n p, {| dbPromise := Some p; opened := k |}).
Proof. induction n as [|n IH]; simpl; [done|]. by rewrite IH. Qed.

(** X9. However often [getDB] is called, [openDB] is called once, by the
    first call, and every call returns the promise of that one call: the
    gateway never opens the database a second time, also not when the
    first attempt was rejected. And [upgrade] creates the object store
    only where it is missing: the stores that exist stay, and running it
    again changes nothing. *)
Theorem database_is_opened_once (n : nat) (objectStoreNames : list jsstring) :
  calls (S n) loaded
  = (replicate (S n) 0%nat, {| dbPromise := Some 0%nat; opened := 1%nat |})
  ∧ js "books" ∈ upgrade objectStoreNames
  ∧ upgrade (upgrade objectStoreNames) = upgrade objectStoreNames
  ∧ (∀ name, name ∈ objectStoreNames → name ∈ upgrade objectStoreNames)
  ∧ (js "books" ∈ objectStoreNames → upgrade objectStoreNames = objectStoreNames).
Proof.
  split.
  { unfold loaded. cbn [calls getDB dbPromise opened]. by rewrite calls_opened. }
  assert (Hin : js "books" ∈ upgrade objectStoreNames).
  { unfold upgrade. destruct (bool_decide_reflect (js "books" ∈ objectStoreNames));
      [done|]. apply elem_of_app. right. left. }
  split; [exact Hin|]. split; [|split].
  - unfold upgrade at 1. by rewrite bool_decide_eq_true_2.
  - intros name Hname. unfold upgrade. destruct (bool_decide _); [done|].
    apply elem_of_app. by left.
  - intros Hthere. unfold upgrade. by rewrite bool_decide_eq_true_2.
Qed.

End ConnectionFacts.

Module OverlapFacts.
Import Types Db DbFacts Overlap.

(** Alone, the suspended functions do what the functions of the gateway
    do. *)
Lemma alone_updateBookProgress k cfi p s :
  overlap [First; First; First] (updateBookProgress k cfi p) Settled s
    = (Db.updateBookProgress k cfi p s).2.
Proof.
  unfold Db.updateBookProgress, await, getDB, resolve, db_get, db_put. simpl.
  by destruct (s !! k).
Qed.

Lemma alone_addBookHighlight k h s :
  overlap [First; First; First] (addBookHighlight k h) Settled s
    = (Db.addBookHighlight k h s).2.
Proof.
  unfold Db.addBookHighlight, await, getDB, resolve, db_get, db_put. simpl.
  by destruct (s !! k).
Qed.

Lemma alone_removeBookHighlight k c s :
  overlap [First; First; First] (removeBookHighlight k c) Settled s
    = (Db.removeBookHighlight k c s).2.
Proof.
  unfold Db.removeBookHighlight, await, getDB, resolve, db_get, db_put. simpl.
  destruct (s !! k) as [b|]; [|done]. simpl. by destruct (highlights b).
Qed.

Lemma served_length order :
  (served First order + served Second order = length order)%nat.
Proof. induction order as [|[] order IH]; simpl; lia. Qed.

(** X7. The writes of the gateway read the record, change it and put it
    back, in requests of their own. When [updateBookProgress] and
    [addBookHighlight] for one book are in flight together, then, by the
    order in which their requests are served, the record ends with both
    changes or with one of them only: when both have read before either
    puts, which is when the last two requests served are the two puts, the
    one that puts last undoes the change of the other; in every other
    order the record ends with both changes. *)
Theorem overlapping_writes_lose_an_update (s : store) (k cfi : jsstring)
    (p : number) (h : Highlight) (b : Book) :
  s !! k = Some b → id b = k →
  let both := <[k := with_highlights (with_location b cfi p)
                        (default [] (highlights b) ++ [h])]> s in
  let position_only := (Db.updateBookProgress k cfi p s).2 in
  let highlight_only := (Db.addBookHighlight k h s).2 in
  (∀ order, served First order = 3%nat → served Second order = 3%nat →
     let s' := overlap order (updateBookProgress k cfi p) (addBookHighlight k h) s in
     s' = both ∨ s' = position_only ∨ s' = highlight_only)
  ∧ (∀ order, served First order = 3%nat → served Second order = 3%nat →
     let s' := overlap order (updateBookProgress k cfi p) (addBookHighlight k h) s in
     match last_two order with
     | Some (First, Second) => s' = highlight_only
     | Some (Second, First) => s' = position_only
     | _ => s' = both
     end)
  ∧ overlap [First; First; Second; Second; First; Second]
      (updateBookProgress k cfi p) (addBookHighlight k h) s = highlight_only
  ∧ overlap [First; First; Second; Second; Second; First]
      (updateBookProgress k cfi p) (addBookHighlight k h) s = position_only
  ∧ overlap [First; First; First; Second; Second; Second]
      (updateBookProgress k cfi p) (addBookHighlight k h) s = both
  ∧ highlight_only !! k = Some (with_highlights b (default [] (highlights b) ++ [h]))
  ∧ position_only !! k = Some (with_location b cfi p).
Proof.
  intros Hk Hid both position_only highlight_only.
  assert (Hp : position_only = <[k := with_location b cfi p]> s).
  { unfold position_only. by rewrite (updateBookProgress_present _ _ _ _ _ Hk), Hid. }
  assert (Hh : highlight_only
               = <[k := with_highlights b (default [] (highlights b) ++ [h])]> s).
  { unfold highlight_only. by rewrite (addBookHighlight_present _ _ _ _ Hk), Hid. }
  rewrite Hp, Hh. clear Hp Hh position_only highlight_only. subst both.
  assert (Hrun : ∀ order, length order = 6%nat →
    served First order = 3%nat → served Second order = 3%nat →
    let s' := overlap order (updateBookProgress k cfi p) (addBookHighlight k h) s in
    s' = <[k := with_highlights (with_location b cfi p)
                   (default [] (highlights b) ++ [h])]> s
    ∨ s' = <[k := with_location b cfi p]> s
    ∨ s' = <[k := with_highlights b (default [] (highlights b) ++ [h])]> s).
  { intros order Hlen.
    do 6 (destruct order as [|[] order]; [discriminate Hlen|..]).
    all: destruct order; [|discriminate Hlen].
    all: simpl served; intros H1 H2; try discriminate H1; try discriminate H2.
    all: simpl; rewrite ?Hk; simpl; rewrite ?Hid, ?lookup_insert_eq; simpl;
      rewrite ?Hid, ?insert_insert_eq; auto. }
  assert (Hlast : ∀ order, length order = 6%nat →
    served First order = 3%nat → served Second order = 3%nat →
    let s' := overlap order (updateBookProgress k cfi p) (addBookHighlight k h) s in
    match last_two order with
    | Some (First, Second) =>
        s' = <[k := with_highlights b (default [] (highlights b) ++ [h])]> s
    | Some (Second, First) => s' = <[k := with_location b cfi p]> s
    | _ => s' = <[k := with_highlights (with_location b cfi p)
                         (default [] (highlights b) ++ [h])]> s
    end).
  { intros order Hlen.
    do 6 (destruct order as [|[] order]; [discriminate Hlen|..]).
    all: destruct order; [|discriminate Hlen].
    all: simpl served; intros H1 H2; try discriminate H1; try discriminate H2.
    all: unfold last_two; simpl; rewrite ?Hk; simpl;
      rewrite ?Hid, ?lookup_insert_eq; simpl;
      rewrite ?Hid, ?insert_insert_eq; auto. }
  split.
  { intros order H1 H2. apply Hrun; [rewrite <- served_length; lia|done|done]. }
  split.
  { intros order H1 H2. apply Hlast; [rewrite <- served_length; lia|done|done]. }
  simpl. rewrite ?Hk. simpl. rewrite ?Hid, ?lookup_insert_eq. simpl.
  rewrite ?Hid, ?insert_insert_eq, ?lookup_insert_eq. auto 10.
Qed.

End OverlapFacts.

(* ===================================================================== *)
(** * Properties of the reading session                                   *)
(* ===================================================================== *)

Module ReaderFacts.
Import Types Reader.

Section WithEngine.
Context {E : Type} `{Engine E}.

Implicit Types (w : World E) (hs : list Highlight).

(** ** Running handlers *)

Lemma run_mret w : run (mret tt) w = w.
Proof. reflexivity. Qed.

Lemma run_get {A} (k : World E → M E A) w : (get ≫= k) w = k w w.
Proof. reflexivity. Qed.

Lemma run_modify {A} (f : World E → World E) (k : unit → M E A) w :
  (modify f ≫= k) w = k tt (f w).
Proof. reflexivity. Qed.

Lemma bind_assoc {A B C} (m : M E A) (k : A → M E B) (k' : B → M E C) w :
  ((m ≫= k) ≫= k') w = (m ≫= λ a, k a ≫= k') w.
Proof.
  unfold mbind, M_bind. destruct (m w) as [[a|] w']; reflexivity.
Qed.

(** ** Frames *)

#[local] Instance same_preorder {B} (f : World E → B) : PreOrder (same f).
Proof.
  split; [intros w; reflexivity|].
  intros w1 w2 w3 H12 H23. unfold same in *. congruence.
Qed.

Section Frames.
Context (R : relation (World E)) `{!PreOrder R}.

Lemma frames_mret {A} (a : A) : frames R (mret a).
Proof. intros w. simpl. reflexivity. Qed.

Lemma frames_get : frames R get.
Proof. intros w. simpl. reflexivity. Qed.

Lemma frames_throw {A} : frames R (@throw E A).
Proof. intros w. simpl. reflexivity. Qed.

Lemma frames_modify (f : World E → World E) :
  (∀ w, R w (f w)) → frames R (modify f).
Proof. intros Hf w. apply Hf. Qed.

Lemma frames_bind {A B} (m : M E A) (k : A → M E B) :
  frames R m → (∀ a, frames R (k a)) → frames R (m ≫= k).
Proof.
  intros Hm Hk w. unfold mbind, M_bind.
  specialize (Hm w). destruct (m w) as [[a|] w']; simpl in *; [|exact Hm].
  transitivity w'; [exact Hm|apply Hk].
Qed.

Lemma frames_try_catch (m : M E unit) : frames R m → frames R (try_catch m).
Proof. intros Hm w. apply Hm. Qed.

Lemma frames_forEach {A} (l : list A) (f : A → M E unit) :
  (∀ a, frames R (f a)) → frames R (forEach l f).
Proof.
  intros Hf. induction l as [|a l IH]; simpl.
  - apply frames_mret.
  - apply frames_bind; [apply Hf|intros _; exact IH].
Qed.

Lemma frames_run (m : M E unit) w : frames R m → R w (run m w).
Proof. intros Hm. apply Hm. Qed.

End Frames.

(** Splits a handler along its structure; what is left are the writes. *)
Ltac frames_apply lem :=
  apply lem;
  try lazymatch goal with |- PreOrder _ => typeclasses eauto end.

Ltac frames_step :=
  lazymatch goal with
  | |- frames _ (@mret _ _ _ _) => frames_apply frames_mret
  | |- frames _ get => frames_apply frames_get
  | |- frames _ throw => frames_apply frames_throw
  | |- frames _ (@mbind _ _ _ _ _ _) => frames_apply frames_bind; [|intros ?]
  | |- frames _ (try_catch _) => frames_apply frames_try_catch
  | |- frames _ (forEach _ _) => frames_apply frames_forEach; intros ?
  | |- frames _ (match ?x with _ => _ end) => destruct x
  | |- frames _ settingsEffect => first [eassumption | unfold settingsEffect]
  | |- frames _ displaySettled => first [eassumption | unfold displaySettled]
  | |- frames _ highlightsLoadEffect => unfold highlightsLoadEffect
  | |- frames _ (applyTheme _) => unfold applyTheme
  | |- frames _ _ =>
      progress unfold handle, initEffect, locationsGenerated,
        updateLocationState, mouseup, markClicked, deleteHighlight,
        onUpdateSettings, toggleHighlightMode, requestServed, reconcile, run_task,
        overlay_call, call, emit, persist, setTimeout, clearTimeout
  end.

Ltac frames_split := repeat frames_step.

(** The writes of a handler that do not touch the field of [same f]. *)
Ltac frames_same :=
  frames_split; try (apply frames_modify; intros ?; reflexivity).

(** The timers never write the highlights, the settings or the popup. *)
Lemma run_task_highlights (k : Task) : frames (same highlights) (run_task k).
Proof. destruct k; frames_same. Qed.

Lemma run_task_settings (k : Task) : frames (same settings) (run_task k).
Proof. destruct k; frames_same. Qed.

Lemma advance_frames (R : relation (World E)) `{!PreOrder R} (t : Z) w :
  (∀ k, frames R (run_task k)) →
  (∀ w l n, R w (set_timers l (set_now n w))) →
  R w (advance t w).
Proof.
  intros Htask Hset. unfold advance.
  set (w0 := set_timers _ _).
  assert (Hw0 : R w w0) by apply Hset.
  clearbody w0. revert w0 Hw0.
  induction (by_due _) as [|x l IH]; intros w0 Hw0; simpl; [exact Hw0|].
  apply IH. transitivity w0; [exact Hw0|]. apply frames_run, Htask.
Qed.

Lemma advance_highlights t w : highlights (advance t w) = highlights w.
Proof.
  apply (advance_frames (same highlights)); [apply run_task_highlights|].
  intros; reflexivity.
Qed.

Lemma advance_settings t w : settings (advance t w) = settings w.
Proof.
  apply (advance_frames (same settings)); [apply run_task_settings|].
  intros; reflexivity.
Qed.

Lemma settingsEffect_highlights : frames (same highlights) settingsEffect.
Proof. frames_same. Qed.

Lemma settingsEffect_settings : frames (same settings) settingsEffect.
Proof. frames_same. Qed.

Lemma onUpdateSettings_highlights s : frames (same highlights) (onUpdateSettings s).
Proof. frames_same. Qed.

Lemma onUpdateSettings_settings s w : settings (run (onUpdateSettings s) w) = s.
Proof.
  unfold onUpdateSettings, run. rewrite run_modify.
  apply (settingsEffect_settings (set_settings s w)).
Qed.

Lemma handle_settings ev w :
  settings (run (handle ev) w) =
    match ev with
    | FontSmaller => fontSmaller (settings w)
    | FontLarger => fontLarger (settings w)
    | SelectTheme t => with_theme (settings w) t
    | _ => settings w
    end.
Proof.
  destruct ev;
    try (apply (frames_run (same settings)); frames_same);
    unfold run, handle; rewrite run_get; apply onUpdateSettings_settings.
Qed.

Lemma fontSmaller_range s :
  50 ≤ fontSize s ≤ 200 → 50 ≤ fontSize (fontSmaller s) ≤ 200.
Proof. unfold fontSmaller, Math_max; simpl. lia. Qed.

Lemma fontLarger_range s :
  50 ≤ fontSize s ≤ 200 → 50 ≤ fontSize (fontLarger s) ≤ 200.
Proof. unfold fontLarger, Math_min; simpl. lia. Qed.

(** Whatever happens in a session, the font size stays where the two
    buttons keep it. *)
Lemma exec_fontSize w (evs : list (Z * Event)) :
  50 ≤ fontSize (settings w) ≤ 200 →
  50 ≤ fontSize (settings (exec w evs)) ≤ 200.
Proof.
  revert w. induction evs as [|[t ev] evs IH]; intros w Hw; [exact Hw|].
  simpl. apply IH. unfold step; simpl.
  rewrite handle_settings, advance_settings.
  destruct ev; auto using fontSmaller_range, fontLarger_range.
Qed.

(** C9. With [fontSize] in [50,200], the A- button yields
    [max(50, fontSize - 10)] and the A+ button [min(200, fontSize + 10)];
    hence [fontSize] stays in [50,200] under every sequence of the two
    operations, and under every sequence of events of a session. *)
Theorem fontSize_stays_clamped (s : ReaderSettings) :
  50 ≤ fontSize s ≤ 200 →
  fontSize (fontSmaller s) = Z.max 50 (fontSize s - 10)
  ∧ fontSize (fontLarger s) = Z.min 200 (fontSize s + 10)
  ∧ (∀ ops : list (ReaderSettings → ReaderSettings),
       Forall (λ op, op = fontSmaller ∨ op = fontLarger) ops →
       50 ≤ fontSize (foldl (λ s op, op s) s ops) ≤ 200)
  ∧ (∀ (w : World E) (evs : list (Z * Event)),
       settings w = s → 50 ≤ fontSize (settings (exec w evs)) ≤ 200).
Proof.
  intros Hs. split; [reflexivity|]. split; [reflexivity|]. split.
  - intros ops Hops. revert s Hs.
    induction Hops as [|op ops [-> | ->] _ IH]; intros s Hs; simpl;
      [exact Hs | apply IH, fontSmaller_range, Hs | apply IH, fontLarger_range, Hs].
  - intros w evs <-. by apply exec_fontSize.
Qed.

(** ** The reconciliation loops *)

Lemma set_engine_log_twice (e1 e2 : E) (l1 l2 : list Call) w :
  set_engine e2 (set_log l2 (set_engine e1 (set_log l1 w)))
  = set_engine e2 (set_log l2 w).
Proof. reflexivity. Qed.

Lemma set_engine_log_id w : set_engine (engine w) (set_log (log w) w) = w.
Proof. destruct w; reflexivity. Qed.

(** Clearing never stops early: the removal of every highlight's overlay is
    attempted whatever the earlier removals did, and the loop returns. *)
Lemma clear_loop hs w :
  forEach hs (λ h,
    try_catch (overlay_call (AnnotationsRemove (cfiRange h) (js "highlight")))) w
  = (Returned tt,
     set_engine (performs (removals hs) (engine w))
       (set_log (log w ++ removals hs) w)).
Proof.
  revert w. induction hs as [|h hs IH]; intros w.
  - simpl. rewrite app_nil_r, set_engine_log_id. reflexivity.
  - simpl forEach. unfold mbind, M_bind.
    replace (try_catch _ w) with
      (Returned tt,
       set_engine (perform (AnnotationsRemove (cfiRange h) (js "highlight")) (engine w))
         (set_log (log w ++ [AnnotationsRemove (cfiRange h) (js "highlight")]) w)).
    2:{ unfold try_catch, overlay_call, call, get, modify, mbind, M_bind, mret, M_ret.
        simpl. by destruct (throws _ _). }
    rewrite IH. simpl. rewrite <- app_assoc. reflexivity.
Qed.

(** When the engine accepts every overlay, re-adding covers the whole
    collection. *)
Lemma add_loop hs w :
  (∀ c e, throws (AnnotationsAdd (js "highlight") c (js "hl")) e = false) →
  forEach hs (λ h,
    overlay_call (AnnotationsAdd (js "highlight") (cfiRange h) (js "hl"))) w
  = (Returned tt,
     set_engine (performs (additions hs) (engine w))
       (set_log (log w ++ additions hs) w)).
Proof.
  intros Hok. revert w. induction hs as [|h hs IH]; intros w.
  - simpl. rewrite app_nil_r, set_engine_log_id. reflexivity.
  - simpl forEach. unfold mbind, M_bind.
    replace (overlay_call _ w) with
      (Returned tt,
       set_engine (perform (AnnotationsAdd (js "highlight") (cfiRange h) (js "hl")) (engine w))
         (set_log (log w ++ [AnnotationsAdd (js "highlight") (cfiRange h) (js "hl")]) w)).
    2:{ unfold overlay_call, call, get, modify, mbind, M_bind, mret, M_ret.
        simpl. by rewrite Hok. }
    rewrite IH. simpl. rewrite <- app_assoc. reflexivity.
Qed.

Lemma reconcile_run hs w :
  renditionRef w = true →
  (∀ c e, throws (AnnotationsAdd (js "highlight") c (js "hl")) e = false) →
  run (reconcile hs) w
  = set_engine (performs (additions hs) (performs (removals hs) (engine w)))
      (set_log (log w ++ removals hs ++ additions hs) w).
Proof.
  intros Hr Hok. unfold run, reconcile. rewrite run_get, Hr. cbn [negb].
  unfold mbind, M_bind. rewrite clear_loop.
  rewrite (add_loop hs _ Hok). simpl. rewrite <- app_assoc. reflexivity.
Qed.

Lemma reconcile_highlights hs : frames (same highlights) (reconcile hs).
Proof. frames_same. Qed.

Lemma settingsEffect_arms w :
  renditionRef w = true → isReady w = true →
  let w' := run settingsEffect w in
  settingsCleanup w' = Some (nextTimerId w)
  ∧ mkTimer (nextTimerId w) (now w + 100) (Reconcile (highlights w)) ∈ timers w'.
Proof.
  intros Hr Hi. unfold run, settingsEffect. rewrite run_get.
  rewrite Hr, Hi. destruct (settingsCleanup w); simpl;
    (split; [reflexivity|]); apply elem_of_app; right; left.
Qed.

Lemma advance_same {B} (f : World E → B) t w :
  (∀ k, frames (same f) (run_task k)) →
  (∀ w l n, f (set_timers l (set_now n w)) = f w) →
  f (advance t w) = f w.
Proof. intros Htask Hset. by apply (advance_frames (same f)). Qed.

Lemma advance_renditionRef t w : renditionRef (advance t w) = renditionRef w.
Proof. apply advance_same; [intros k; destruct k; frames_same|reflexivity]. Qed.

Lemma advance_isReady t w : isReady (advance t w) = isReady w.
Proof. apply advance_same; [intros k; destruct k; frames_same|reflexivity]. Qed.

(** C1. A change of [fontSize] or [theme] leaves the highlights of the
    session the very same list (each entry with its [cfiRange], [color],
    [text] and [created], in the same order), both right after the change
    and once the timers it set have fired. In a ready session the change
    arms the reconciliation over that list, and the reconciliation, on an
    engine that accepts the overlays, removes the overlay of every highlight
    and then adds it again, without touching the highlights. *)
Theorem settings_change_keeps_highlights (w : World E) (ev : Event) (t t' : Z) :
  is_settings_mutation ev = true →
  let w1 := step w (t, ev) in
  highlights w1 = highlights w
  ∧ highlights (advance t' w1) = highlights w
  ∧ (renditionRef w = true → isReady w = true →
     ∃ i, settingsCleanup w1 = Some i
          ∧ mkTimer i (now w1 + 100) (Reconcile (highlights w)) ∈ timers w1)
  ∧ (∀ w' : World E,
       renditionRef w' = true →
       (∀ c e, throws (AnnotationsAdd (js "highlight") c (js "hl")) e = false) →
       log (run (reconcile (highlights w)) w')
         = log w' ++ removals (highlights w) ++ additions (highlights w)
       ∧ highlights (run (reconcile (highlights w)) w') = highlights w').
Proof.
  intros Hev w1.
  assert (Hrun : ∃ s, w1 = run (onUpdateSettings s) (advance t w)).
  { unfold w1, step, run, handle; simpl. rewrite run_get.
    destruct ev; try discriminate Hev; eauto. }
  destruct Hrun as [s Hw1].
  assert (H1 : highlights w1 = highlights w).
  { rewrite Hw1, <- (advance_highlights t w).
    apply (frames_run (same highlights)), onUpdateSettings_highlights. }
  split; [exact H1|]. split; [by rewrite advance_highlights|]. split.
  - intros Hr Hi.
    rewrite Hw1. unfold onUpdateSettings, run. rewrite run_modify.
    set (w0 := set_settings s (advance t w)).
    assert (Hr0 : renditionRef w0 = true) by (unfold w0; simpl; by rewrite advance_renditionRef).
    assert (Hi0 : isReady w0 = true) by (unfold w0; simpl; by rewrite advance_isReady).
    destruct (settingsEffect_arms w0 Hr0 Hi0) as [Hc Ht].
    exists (nextTimerId w0). split; [exact Hc|].
    replace (now (settingsEffect w0).2) with (now w0)
      by (symmetry; apply (frames_run (same now)); frames_same).
    replace (highlights w) with (highlights w0)
      by (unfold w0; simpl; apply advance_highlights).
    exact Ht.
  - intros w' Hr Hok. split.
    + by rewrite reconcile_run.
    + apply (frames_run (same highlights)), reconcile_highlights.
Qed.

(** ** Failures during the reconciliation *)

(** A re-application that throws ends the loop: the overlays of the
    highlights after it are not re-applied. *)
Lemma add_loop_throw (h : Highlight) hs w :
  throws (AnnotationsAdd (js "highlight") (cfiRange h) (js "hl")) (engine w) = true →
  forEach (h :: hs) (λ h,
    overlay_call (AnnotationsAdd (js "highlight") (cfiRange h) (js "hl"))) w
  = (Threw,
     set_engine (perform (AnnotationsAdd (js "highlight") (cfiRange h) (js "hl")) (engine w))
       (set_log (log w ++ [AnnotationsAdd (js "highlight") (cfiRange h) (js "hl")]) w)).
Proof.
  intros Hthrow. simpl forEach.
  unfold overlay_call, call, get, modify, throw, mbind, M_bind, mret, M_ret.
  simpl. rewrite Hthrow. reflexivity.
Qed.

(** ** Overlays on display *)

Section Overlays.
Context (visible : E → list jsstring) (laws : OverlayLaws visible).

Lemma performs_cons (c : Call) cs (e : E) :
  performs (c :: cs) e = performs cs (perform c e).
Proof. reflexivity. Qed.

Lemma visible_removals hs (e : E) :
  visible (performs (removals hs) e)
    ≡ₚ filter (λ k, k ∉ cfiRange <$> hs) (visible e).
Proof.
  revert e. induction hs as [|h hs IH]; intros e.
  - simpl. rewrite ListFacts.filter_id; [done|]. intros k _. apply not_elem_of_nil.
  - unfold removals. rewrite fmap_cons, performs_cons. fold (removals hs).
    rewrite IH, (visible_remove _ laws), list_filter_filter.
    rewrite (list_filter_iff _ (λ k, k ∉ cfiRange <$> h :: hs)); [done|].
    intros k. rewrite fmap_cons, not_elem_of_cons. tauto.
Qed.

Lemma visible_additions hs (e : E) :
  NoDup (cfiRange <$> hs) →
  (∀ c, c ∈ cfiRange <$> hs → c ∉ visible e) →
  visible (performs (additions hs) e) ≡ₚ (cfiRange <$> hs) ++ visible e.
Proof.
  revert e. induction hs as [|h hs IH]; intros e Hnd Hfresh; [done|].
  rewrite fmap_cons in Hnd. apply NoDup_cons in Hnd as [Hh Hnd].
  unfold additions. rewrite fmap_cons, performs_cons. fold (additions hs).
  assert (Hadd := visible_add _ laws (cfiRange h) e).
  rewrite IH; [|done|].
  - rewrite Hadd by (apply Hfresh; left). rewrite fmap_cons. simpl.
    by rewrite Permutation_middle.
  - intros c Hc. rewrite Hadd by (apply Hfresh; left).
    rewrite not_elem_of_cons. split.
    + intros ->. by apply Hh.
    + apply Hfresh. by right.
Qed.

(** C2. On an engine that keeps its overlays under their identifiers, and
    for a collection with distinct identifiers, reconciling twice in
    succession leaves the same overlays on display as reconciling once;
    and when no overlay is on display for an identifier outside the
    collection, the overlays on display are then exactly one per highlight:
    the identifiers of the collection, none twice, none besides. *)
Theorem reconcile_twice_same_overlays hs (w : World E) :
  renditionRef w = true →
  NoDup (cfiRange <$> hs) →
  let w1 := run (reconcile hs) w in
  let w2 := run (reconcile hs) w1 in
  visible (engine w2) ≡ₚ visible (engine w1)
  ∧ ((∀ c, c ∈ visible (engine w) → c ∈ cfiRange <$> hs) →
     visible (engine w1) ≡ₚ cfiRange <$> hs
     ∧ visible (engine w2) ≡ₚ cfiRange <$> hs).
Proof.
  intros Hr Hnd w1 w2.
  set (ids := cfiRange <$> hs) in *.
  set (rest := filter (λ k, k ∉ ids) (visible (engine w))).
  assert (Hpass : ∀ w0 : World E, renditionRef w0 = true →
            visible (engine (run (reconcile hs) w0))
              ≡ₚ ids ++ filter (λ k, k ∉ ids) (visible (engine w0))).
  { intros w0 Hr0. rewrite reconcile_run by (done || apply laws). simpl.
    rewrite visible_additions, visible_removals; [done|done|].
    intros c Hc. rewrite visible_removals, list_elem_of_filter. tauto. }
  assert (H1 : visible (engine w1) ≡ₚ ids ++ rest) by (by apply Hpass).
  assert (Hr1 : renditionRef w1 = true).
  { rewrite <- Hr. apply (frames_run (same renditionRef)). frames_same. }
  assert (H2 : visible (engine w2) ≡ₚ ids ++ rest).
  { unfold w2. rewrite Hpass by done. rewrite H1, filter_app.
    rewrite (ListFacts.filter_none _ ids) by tauto. simpl.
    unfold rest. rewrite list_filter_filter_l by done. reflexivity. }
  split; [by rewrite H1, H2|].
  intros Hno.
  assert (Hrest : rest = []) by (apply ListFacts.filter_none; intros k Hk; auto).
  rewrite H1, H2, Hrest, app_nil_r. done.
Qed.

End Overlays.

(** ** Creating a highlight from a selection *)

Lemma run_setTimeout {A} (k : Task) (d : Z) (f : nat → M E A) w :
  (setTimeout k d ≫= f) w
  = f (nextTimerId w)
      (set_nextTimerId (S (nextTimerId w))
         (set_timers (timers w ++ [mkTimer (nextTimerId w) (now w + d) k]) w)).
Proof. reflexivity. Qed.

Lemma run_call {A} (c : Call) (f : unit → M E A) w :
  (call c ≫= f) w
  = f tt (set_engine (perform c (engine w)) (set_log (log w ++ [c]) w)).
Proof. reflexivity. Qed.

Lemma run_overlay_call {A} (c : Call) (f : unit → M E A) w :
  throws c (engine w) = false →
  (overlay_call c ≫= f) w
  = f tt (set_engine (perform c (engine w)) (set_log (log w ++ [c]) w)).
Proof.
  intros Hc. unfold overlay_call, call, get, modify, mbind, M_bind, mret, M_ret.
  simpl. by rewrite Hc.
Qed.

Lemma run_persist {A} (call : Overlap.Job) (f : unit → M E A) w :
  (persist call ≫= f) w = f tt (set_inflight (inflight w ++ [call]) w).
Proof. reflexivity. Qed.

Lemma settingsEffect_db : frames (same db) settingsEffect.
Proof. frames_same. Qed.

Lemma settingsEffect_inflight : frames (same inflight) settingsEffect.
Proof. frames_same. Qed.

(** ** The calls in flight *)

Lemma settled_nil w : inflight w = [] → settled w = db w.
Proof. unfold settled. by intros ->. Qed.

Lemma settled_issue (call : Overlap.Job) w :
  settled (set_inflight (inflight w ++ [call]) w) = Overlap.finish call (settled w).
Proof. unfold settled. simpl. by rewrite foldl_app. Qed.

Lemma settled_same w w' : db w' = db w → inflight w' = inflight w → settled w' = settled w.
Proof. unfold settled. by intros -> ->. Qed.

(** Served alone, the calls of the gateway do what the gateway's
    functions do when they are run as a whole. *)
Lemma finish_updateBookProgress k cfi p s :
  Overlap.finish (Overlap.updateBookProgress k cfi p) s
  = (Db.updateBookProgress k cfi p s).2.
Proof.
  unfold Db.updateBookProgress, Db.await, Db.getDB, Db.resolve, Db.db_get, Db.db_put.
  simpl. by destruct (s !! k).
Qed.

Lemma finish_addBookHighlight k h s :
  Overlap.finish (Overlap.addBookHighlight k h) s = (Db.addBookHighlight k h s).2.
Proof.
  unfold Db.addBookHighlight, Db.await, Db.getDB, Db.resolve, Db.db_get, Db.db_put.
  simpl. by destruct (s !! k).
Qed.

Lemma finish_removeBookHighlight k cfi s :
  Overlap.finish (Overlap.removeBookHighlight k cfi) s
  = (Db.removeBookHighlight k cfi s).2.
Proof.
  unfold Db.removeBookHighlight, Db.await, Db.getDB, Db.resolve, Db.db_get, Db.db_put.
  simpl. destruct (s !! k) as [b|]; [|done]. simpl. by destruct (Types.highlights b).
Qed.

(** Serving a request of the call that was issued first does not change
    what the store will be once all calls are served in their order. *)
Lemma finish_resume (call : Overlap.Job) s :
  Overlap.finish (Overlap.resume call s).1 (Overlap.resume call s).2
  = Overlap.finish call s.
Proof. by destruct call. Qed.

Lemma requestServed_settled w : settled (run (requestServed 0) w) = settled w.
Proof.
  unfold run, requestServed. rewrite run_get.
  destruct (inflight w) as [|call rest] eqn:Hin; [reflexivity|]. simpl.
  pose proof (finish_resume call (db w)) as Hf.
  destruct (Overlap.resume call (db w)) as [call' store]. simpl in Hf.
  unfold settled. rewrite Hin. simpl. rewrite <- Hf.
  by destruct call'.
Qed.

Lemma requestServed_field {B} (f : World E → B) (n : nat) w :
  (∀ s l w, f (set_inflight l (set_db s w)) = f w) →
  f (run (requestServed n) w) = f w.
Proof.
  intros Hf. unfold run, requestServed. rewrite run_get.
  destruct (inflight w !! n) as [call|]; [|reflexivity].
  destruct (Overlap.resume call (db w)) as [call' store]. apply Hf.
Qed.

Lemma stored_issue (call : Overlap.Job) w :
  stored (set_inflight (inflight w ++ [call]) w)
  = Overlap.finish call (settled w) !! id (book w).
Proof. unfold stored. by rewrite settled_issue. Qed.

Lemma added_overlays_snoc (l : list Call) (c : Call) :
  added_overlays (l ++ [c])
  = added_overlays l ++
      match c with AnnotationsAdd _ cfi _ => [cfi] | _ => [] end.
Proof. unfold added_overlays. rewrite omap_app. by destruct c. Qed.

Lemma settingsEffect_added_overlays :
  frames (same (λ w, added_overlays (log w))) settingsEffect.
Proof.
  frames_split;
    apply frames_modify; intros ?; unfold same; simpl;
    rewrite ?added_overlays_snoc, ?app_nil_r; reflexivity.
Qed.

(** The listener on a selection it accepts: the flag and its timer, the
    overlay, the new entry of the collection and the call that writes it
    to the store; the settings effect then runs on the world so changed. *)
Lemma mouseup_accepts (sel : Selection) w :
  isHighlightModeRef w = true →
  isCollapsed sel = false →
  rangeCount sel ≠ 0%nat →
  ¬ Forall (λ c, is_white_space c = true) (toString sel) →
  rangeCfi sel ≠ [] →
  throws (AnnotationsAdd (js "highlight") (rangeCfi sel) (js "hl")) (engine w) = false →
  let h := {| cfiRange := rangeCfi sel; color := js "#ffff00";
              text := Some (trim (toString sel)); created := now w |} in
  ∃ w0,
    run (mouseup (Some sel)) w = run settingsEffect w0
    ∧ highlights w0 = highlights w ++ [h]
    ∧ added_overlays (log w0) = added_overlays (log w) ++ [rangeCfi sel]
    ∧ inflight w0 = inflight w ++ [Overlap.addBookHighlight (id (book w)) h]
    ∧ db w0 = db w
    ∧ justCreatedHighlightRef w0 = true.
Proof.
  intros Hmode Hcol Hcount Htext Hcfi Hok h.
  unfold run, mouseup. rewrite run_get, Hmode, Hcol. cbn [negb orb].
  destruct (rangeCount sel) as [|n] eqn:Hn; [done|]. cbn [Nat.eqb].
  rewrite (JSFacts.truthy_trim _ Htext). cbn [negb].
  destruct (rangeCfi sel) as [|c cfi] eqn:Hc; [done|]. cbn [truthy].
  rewrite run_modify, run_setTimeout, run_overlay_call by exact Hok.
  rewrite run_call, run_modify, run_persist.
  eexists. split; [reflexivity|]. simpl.
  rewrite !added_overlays_snoc, <- app_assoc. done.
Qed.

(** C5. At a mouseup in highlight mode: when there is no selection, or it
    is collapsed, or it has no range, or its text is white space only, the
    listener does nothing at all (no identifier, no overlay, no highlight,
    no write). When the selection is not collapsed, its text is not white
    space only, the engine gives its range a non-empty identifier and
    accepts the overlay, exactly one highlight is created with that
    identifier: one entry more at the end of the collection, one more
    overlay asked of the engine, and one call of [addBookHighlight] with
    this highlight put in flight, the store itself being left to the
    database; once the calls in flight are served in their order, the book
    being in the store, its record holds one entry more at the end of its
    highlights. *)
Theorem selection_end_creates_one_highlight (w : World E) (selection : option Selection) :
  isHighlightModeRef w = true →
  ((selection = None
    ∨ ∃ sel, selection = Some sel
        ∧ (isCollapsed sel = true ∨ rangeCount sel = 0%nat
           ∨ Forall (λ c, is_white_space c = true) (toString sel))) →
   run (mouseup selection) w = w)
  ∧ (∀ sel,
       selection = Some sel →
       isCollapsed sel = false →
       rangeCount sel ≠ 0%nat →
       ¬ Forall (λ c, is_white_space c = true) (toString sel) →
       rangeCfi sel ≠ [] →
       throws (AnnotationsAdd (js "highlight") (rangeCfi sel) (js "hl")) (engine w) = false →
       let h := {| cfiRange := rangeCfi sel; color := js "#ffff00";
                   text := Some (trim (toString sel)); created := now w |} in
       let w' := run (mouseup selection) w in
       cfiRange h ≠ []
       ∧ highlights w' = highlights w ++ [h]
       ∧ added_overlays (log w') = added_overlays (log w) ++ [cfiRange h]
       ∧ inflight w' = inflight w ++ [Overlap.addBookHighlight (id (book w)) h]
       ∧ db w' = db w
       ∧ (∀ b, settled w !! id (book w) = Some b → id b = id (book w) →
            settled w' !! id (book w)
              = Some (with_highlights b (default [] (Types.highlights b) ++ [h])))).
Proof.
  intros Hmode. split.
  - intros [-> | (sel & -> & Hsel)]; unfold run, mouseup; rewrite run_get, Hmode;
      cbn [negb]; [reflexivity|].
    destruct Hsel as [Hc | [Hn | Hws]].
    + by rewrite Hc.
    + rewrite Hn. simpl. by rewrite orb_true_r.
    + apply JSFacts.trim_nil_iff in Hws. rewrite Hws. simpl.
      by destruct (_ || _).
  - intros sel -> Hcol Hcount Htext Hcfi Hok h w'.
    destruct (mouseup_accepts sel w Hmode Hcol Hcount Htext Hcfi Hok)
      as (w0 & Hrun & Hhs & Hlog & Hin & Hdb & _).
    fold h in Hhs, Hin. unfold w'. rewrite Hrun.
    assert (Hin' : inflight (run settingsEffect w0)
                   = inflight w ++ [Overlap.addBookHighlight (id (book w)) h]).
    { rewrite <- Hin. apply (frames_run (same inflight)), settingsEffect_inflight. }
    assert (Hdb' : db (run settingsEffect w0) = db w).
    { rewrite <- Hdb. apply (frames_run (same db)), settingsEffect_db. }
    split; [exact Hcfi|]. split; [|split; [|split; [exact Hin'|split; [exact Hdb'|]]]].
    + rewrite <- Hhs. apply (frames_run (same highlights)), settingsEffect_highlights.
    + transitivity (added_overlays (log w0)); [|exact Hlog].
      apply (frames_run (same (λ w, added_overlays (log w)))),
        settingsEffect_added_overlays.
    + intros b Hb Hid.
      unfold settled at 1. rewrite Hin', Hdb', foldl_app. cbn [foldl]. fold (settled w).
      rewrite finish_addBookHighlight.
      unfold Db.addBookHighlight, Db.await, Db.getDB, Db.resolve, Db.db_get.
      simpl. rewrite Hb. simpl. rewrite Hid. apply lookup_insert_eq.
Qed.

(** ** The suppression window after a creation *)

#[local] Instance keeps_preorder (P : World E → Prop) : PreOrder (keeps P).
Proof. split; unfold keeps; [intros w; auto|intros w1 w2 w3; auto]. Qed.

Lemma insert_timer_perm (x : Timer) l : insert_timer x l ≡ₚ x :: l.
Proof.
  induction l as [|u l IH]; simpl; [done|].
  destruct (due x <? due u); [done|]. by rewrite IH, Permutation_swap.
Qed.

Lemma by_due_perm (l : list Timer) : by_due l ≡ₚ l.
Proof.
  unfold by_due. rewrite <- (app_nil_l l) at 2. generalize (@nil Timer).
  induction l as [|x l IH]; intros acc; simpl; [by rewrite app_nil_r|].
  rewrite IH, insert_timer_perm. simpl. apply Permutation_middle.
Qed.

(** As [advance_frames], looking only at the timers that do fire. *)
Lemma advance_frames_due (R : relation (World E)) `{!PreOrder R} (t : Z) w :
  (∀ x, x ∈ timers w → due x ≤ t → frames R (run_task (task x))) →
  R w (set_timers (filter (λ x, ¬ due x ≤ t) (timers w))
         (set_now (Z.max (now w) t) w)) →
  R w (advance t w).
Proof.
  intros Htask Hset. unfold advance.
  set (w0 := set_timers _ _) in *. clearbody w0.
  assert (Hready : Forall (λ x, frames R (run_task (task x)))
                     (by_due (filter (λ x, due x ≤ t) (timers w)))).
  { apply Forall_forall. intros x Hx. rewrite by_due_perm in Hx.
    apply list_elem_of_filter in Hx as [Hdue Hin]. by apply Htask. }
  revert w0 Hset.
  induction Hready as [|x l Hx _ IH]; intros w0 Hw0; simpl; [exact Hw0|].
  apply IH. transitivity w0; [exact Hw0|]. apply frames_run, Hx.
Qed.

Lemma advance_timers t w :
  timers (advance t w) = filter (λ x, ¬ due x ≤ t) (timers w).
Proof.
  unfold advance. set (w0 := set_timers _ _).
  transitivity (timers w0); [|reflexivity]. clearbody w0. revert w0.
  induction (by_due _) as [|x l IH]; intros w0; simpl; [done|].
  rewrite IH. apply (frames_run (same timers)). destruct (task x); frames_same.
Qed.

Lemma advance_now t w : now (advance t w) = Z.max (now w) t.
Proof.
  unfold advance. set (w0 := set_timers _ _).
  transitivity (now w0); [|reflexivity]. clearbody w0. revert w0.
  induction (by_due _) as [|x l IH]; intros w0; simpl; [done|].
  rewrite IH. apply (frames_run (same now)). destruct (task x); frames_same.
Qed.

Lemma advance_highlightPopup t w : highlightPopup (advance t w) = highlightPopup w.
Proof. apply advance_same; [intros k; destruct k; frames_same|reflexivity]. Qed.

Lemma advance_isHighlightModeRef t w :
  isHighlightModeRef (advance t w) = isHighlightModeRef w.
Proof. apply advance_same; [intros k; destruct k; frames_same|reflexivity]. Qed.

(** What is left of a handler once the flag is up keeps the suppression. *)
Ltac suppressing_timers :=
  first
    [ apply Forall_app; split; [assumption|];
      apply Forall_singleton; simpl; intros; (lia || discriminate)
    | lazymatch goal with
      | Hall : Forall _ (timers ?w) |- Forall _ (filter _ (timers ?w)) =>
          rewrite Forall_forall in Hall |- *;
          intros ? [_ ?]%list_elem_of_filter; by apply Hall
      end ].

Ltac suppressing_writes :=
  frames_split; apply frames_modify;
  intros ? (? & ? & ?); unfold suppressing; simpl;
  (split; [|split]); try done; suppressing_timers.

Lemma handle_suppressing (t0 : Z) (ev : Event) :
  frames (keeps (suppressing t0)) (handle ev).
Proof. destruct ev; suppressing_writes. Qed.

Lemma advance_suppressing (t0 t : Z) w :
  t < t0 + 300 → suppressing t0 w → suppressing t0 (advance t w).
Proof.
  intros Ht Hs.
  apply (advance_frames_due (keeps (suppressing t0)) t w); [| |exact Hs].
  - intros x Hx Hdue. destruct Hs as (_ & _ & Htimers).
    rewrite Forall_forall in Htimers. specialize (Htimers x Hx).
    destruct (task x) eqn:Hk; [specialize (Htimers eq_refl); lia|].
    suppressing_writes.
  - intros (Hflag & Hnow & Htimers). unfold suppressing. simpl.
    split; [done|]. split; [lia|]. suppressing_timers.
Qed.

Lemma exec_suppressing (t0 : Z) (evs : list (Z * Event)) w :
  Forall (λ tev, tev.1 < t0 + 300) evs →
  suppressing t0 w → suppressing t0 (exec w evs).
Proof.
  intros Hevs. revert w.
  induction Hevs as [|[t ev] evs Ht _ IH]; intros w Hs; [exact Hs|].
  simpl. apply IH. unfold step. simpl in *.
  apply (frames_run (keeps (suppressing t0))); [apply handle_suppressing|].
  by apply advance_suppressing.
Qed.

(** The listener starts the suppression whenever it gets as far as the
    overlay, whether the engine then accepts the overlay or throws. *)
Lemma mouseup_suppressing (t : Z) (sel : Selection) w :
  isHighlightModeRef w = true →
  isCollapsed sel = false →
  rangeCount sel ≠ 0%nat →
  ¬ Forall (λ c, is_white_space c = true) (toString sel) →
  rangeCfi sel ≠ [] →
  t ≤ now w →
  Forall (λ x, task x = ResetJustCreated → t + 300 ≤ due x) (timers w) →
  suppressing t (run (mouseup (Some sel)) w).
Proof.
  intros Hmode Hcol Hcount Htext Hcfi Hnow Htimers.
  unfold run, mouseup. rewrite run_get, Hmode, Hcol. cbn [negb orb].
  destruct (rangeCount sel) as [|n] eqn:Hn; [done|]. cbn [Nat.eqb].
  rewrite (JSFacts.truthy_trim _ Htext). cbn [negb].
  destruct (rangeCfi sel) as [|c cfi] eqn:Hc; [done|]. cbn [truthy].
  rewrite run_modify.
  match goal with |- suppressing t (?m ?w0).2 =>
    apply (frames_run (keeps (suppressing t)) m w0); [suppressing_writes|]
  end.
  unfold suppressing; simpl. done.
Qed.

Lemma markClicked_flag (cfi : jsstring) w :
  justCreatedHighlightRef w = true → run (handle (MarkClicked cfi)) w = w.
Proof.
  intros Hflag. unfold run, handle. rewrite run_get.
  destruct (renditionRef w); [|reflexivity].
  unfold markClicked. by rewrite run_get, Hflag.
Qed.

(** What holds of the suppression. While the just-created flag is set, a
    mark-click leaves the whole
    session as it is: no popup is set and the popup state is unchanged. And
    the flag is set for the 300ms after a creation: when the listener gets
    a selection it accepts at time [t], with no reset of the flag from an
    earlier creation pending inside [t, t+300), then whatever events follow
    before [t + 300], a mark-click before [t + 300] finds the flag set and
    changes nothing. *)
Theorem mark_click_suppressed_after_creation :
  (∀ (w : World E) (cfi : jsstring),
     justCreatedHighlightRef w = true →
     run (handle (MarkClicked cfi)) w = w
     ∧ highlightPopup (run (handle (MarkClicked cfi)) w) = highlightPopup w)
  ∧ (∀ (w : World E) (sel : Selection) (t : Z) (evs : list (Z * Event))
       (t' : Z) (cfi : jsstring),
       renditionRef w = true →
       isHighlightModeRef w = true →
       isCollapsed sel = false →
       rangeCount sel ≠ 0%nat →
       ¬ Forall (λ c, is_white_space c = true) (toString sel) →
       rangeCfi sel ≠ [] →
       Forall (λ x, task x = ResetJustCreated → due x ≤ t ∨ t + 300 ≤ due x)
         (timers w) →
       Forall (λ tev, tev.1 < t + 300) evs →
       t' < t + 300 →
       let w1 := exec (step w (t, MouseUp (Some sel))) evs in
       justCreatedHighlightRef (advance t' w1) = true
       ∧ step w1 (t', MarkClicked cfi) = advance t' w1
       ∧ highlightPopup (step w1 (t', MarkClicked cfi)) = highlightPopup w1).
Proof.
  split.
  - intros w cfi Hflag. by rewrite markClicked_flag.
  - intros w sel t evs t' cfi Hr Hmode Hcol Hcount Htext Hcfi Htimers Hevs Ht' w1.
    assert (Hs : suppressing t (advance t' w1)).
    { apply advance_suppressing; [done|]. apply exec_suppressing; [done|].
      unfold step, run, handle. simpl. rewrite run_get, advance_renditionRef, Hr.
      apply mouseup_suppressing; try done.
      - by rewrite advance_isHighlightModeRef.
      - rewrite advance_now. lia.
      - rewrite advance_timers. rewrite Forall_forall in Htimers |- *.
        intros x [Hdue Hx]%list_elem_of_filter Hreset.
        destruct (Htimers x Hx Hreset); [lia|done]. }
    destruct Hs as (Hflag & _).
    assert (Hstep : step w1 (t', MarkClicked cfi) = advance t' w1)
      by (unfold step; simpl; by apply markClicked_flag).
    split; [exact Hflag|]. split; [exact Hstep|].
    by rewrite Hstep, advance_highlightPopup.
Qed.

(** ** Initialization *)

#[local] Instance calm_preorder : PreOrder (@calm E).
Proof.
  split.
  - intros w Hw. split; [exact Hw|]. exists []. by rewrite app_nil_r.
  - intros w1 w2 w3 H12 H23 H3.
    destruct (H23 H3) as (H2 & l2 & Hl2 & Hq2).
    destruct (H12 H2) as (H1 & l1 & Hl1 & Hq1).
    split; [exact H1|]. exists (l1 ++ l2).
    split; [by rewrite Hl2, Hl1, app_assoc|by apply Forall_app].
Qed.

#[local] Instance extends_preorder : PreOrder (@extends E).
Proof.
  split.
  - intros w. exists []. by rewrite app_nil_r.
  - intros w1 w2 w3 [l1 H1] [l2 H2]. exists (l1 ++ l2).
    by rewrite H2, H1, app_assoc.
Qed.

(** The writes of a handler that append to the log or leave it alone. *)
Ltac extends_writes :=
  frames_split; apply frames_modify; intros ?; unfold extends; simpl;
  first [exists []; by rewrite app_nil_r | by eexists [_]].

Lemma settingsEffect_extends : frames extends settingsEffect.
Proof. extends_writes. Qed.

Lemma highlightsLoadEffect_extends : frames extends highlightsLoadEffect.
Proof. extends_writes. Qed.

Lemma settingsEffect_isReady : frames (same isReady) settingsEffect.
Proof. frames_same. Qed.

(** In a session that is not ready the settings effect applies no theme. *)
Lemma settingsEffect_calm : frames calm settingsEffect.
Proof.
  intros w Hw'.
  assert (Hw : isReady w = false).
  { rewrite <- Hw'. symmetry. apply (settingsEffect_isReady w). }
  split; [exact Hw|]. exists []. split; [|constructor].
  unfold settingsEffect. rewrite run_get, Hw, andb_false_r.
  destruct (settingsCleanup w); simpl; by rewrite app_nil_r.
Qed.

(** The continuation of the display leaves the session ready, and it is
    the only handler that marks it so. *)
Lemma displaySettled_ready w :
  pendingDisplay w ≠ None → isReady (run displaySettled w) = true.
Proof.
  intros Hp. unfold run, displaySettled. rewrite run_get.
  destruct (pendingDisplay w) as [s|]; [|done].
  unfold emit. rewrite !run_modify.
  match goal with |- isReady (?m ?w0).2 = true =>
    assert (Hk : frames (keeps (λ w, isReady w = true)) m);
      [|exact (Hk w0 eq_refl)]
  end.
  frames_split; apply frames_modify; intros ?; unfold keeps; simpl; done.
Qed.

Lemma displaySettled_calm : frames calm displaySettled.
Proof.
  intros w Hw'. destruct (pendingDisplay w) as [s|] eqn:Hp.
  - pose proof (displaySettled_ready w) as Hr. unfold run in Hr.
    rewrite Hr in Hw' by (by rewrite Hp). discriminate.
  - revert Hw'. unfold displaySettled. rewrite run_get, Hp. simpl.
    intros Hw. split; [exact Hw|]. exists []. by rewrite app_nil_r.
Qed.

(** The writes of a handler that keep a session that is not ready calm. *)
Ltac calm_writes :=
  pose proof settingsEffect_calm; pose proof displaySettled_calm;
  frames_split; apply frames_modify; intros ? Hnr; simpl in Hnr |- *;
  first
    [ discriminate Hnr
    | split; [exact Hnr|];
      first [ exists []; split; [by rewrite app_nil_r|constructor]
            | eexists [_]; split; [reflexivity|by repeat constructor] ] ].

Lemma handle_calm (ev : Event) : frames calm (handle ev).
Proof. destruct ev; calm_writes. Qed.

Lemma run_task_calm (k : Task) : frames calm (run_task k).
Proof. destruct k; calm_writes. Qed.

Lemma exec_calm (evs : list (Z * Event)) w : calm w (exec w evs).
Proof.
  revert w. induction evs as [|[t ev] evs IH]; intros w; [reflexivity|].
  simpl. transitivity (step w (t, ev)); [|apply IH].
  unfold step. simpl. transitivity (advance t w).
  - apply (advance_frames calm); [apply run_task_calm|].
    intros w0 l n Hnr. split; [exact Hnr|]. exists []. by rewrite app_nil_r.
  - apply frames_run, handle_calm.
Qed.

Lemma exec_not_ready (evs : list (Z * Event)) w :
  Forall (λ tev, tev.2 ≠ DisplaySettled) evs →
  isReady (exec w evs) = isReady w.
Proof.
  intros Hevs. revert w.
  induction Hevs as [|[t ev] evs Hev _ IH]; intros w; [reflexivity|].
  simpl. rewrite IH. unfold step. simpl in *.
  rewrite <- (advance_isReady t w).
  apply (frames_run (same isReady)). destruct ev; try done; frames_same.
Qed.

(** The log along a handler, one call at a time. *)
Lemma log_after_modify (f : World E → World E) (k : unit → M E unit) l w :
  (∀ w, log (f w) = log w) →
  (∀ w', ∃ rest, log (k tt w').2 = log w' ++ l ++ rest) →
  ∃ rest, log ((modify f ≫= k) w).2 = log w ++ l ++ rest.
Proof.
  intros Hf Hk. rewrite run_modify. destruct (Hk (f w)) as [rest Hrest].
  exists rest. by rewrite Hrest, Hf.
Qed.

Lemma log_after_call (c : Call) (k : unit → M E unit) l w :
  (∀ w', ∃ rest, log (k tt w').2 = log w' ++ l ++ rest) →
  ∃ rest, log ((call c ≫= k) w).2 = log w ++ (c :: l) ++ rest.
Proof.
  intros Hk. rewrite run_call.
  destruct (Hk (set_engine (perform c (engine w)) (set_log (log w ++ [c]) w)))
    as [rest Hrest].
  exists rest. rewrite Hrest. simpl. by rewrite <- app_assoc.
Qed.

Lemma log_after_emit (c : Call) (k : unit → M E unit) l w :
  (∀ w', ∃ rest, log (k tt w').2 = log w' ++ l ++ rest) →
  ∃ rest, log ((emit c ≫= k) w).2 = log w ++ (c :: l) ++ rest.
Proof.
  intros Hk. unfold emit. rewrite run_modify.
  destruct (Hk (set_log (log w ++ [c]) w)) as [rest Hrest].
  exists rest. rewrite Hrest. simpl. by rewrite <- app_assoc.
Qed.

Lemma displaySettled_log (s : ReaderSettings) w :
  pendingDisplay w = Some s →
  ∃ rest,
    log (run (handle DisplaySettled) w)
    = log w ++ [SetIsReady true;
                ThemesRegister (js "custom") (themeObj s);
                ThemesSelect (js "custom");
                LocationsGenerate 1000] ++ rest.
Proof.
  intros Hp. unfold run, handle. rewrite run_get.
  unfold displaySettled. rewrite run_get, Hp.
  apply log_after_modify; [reflexivity|]. intros w1.
  apply log_after_emit. intros w2.
  apply log_after_modify; [reflexivity|]. intros w3.
  unfold applyTheme. rewrite bind_assoc.
  apply log_after_call. intros w4.
  apply log_after_call. intros w5.
  apply log_after_call. intros w6.
  apply log_after_modify; [reflexivity|]. intros w7.
  destruct (frames_run extends (settingsEffect ≫= λ _, highlightsLoadEffect) w7)
    as [rest Hrest].
  { frames_apply frames_bind; [apply settingsEffect_extends|].
    intros _. apply highlightsLoadEffect_extends. }
  exists rest. exact Hrest.
Qed.

(** Unless the settings change in between, the continuation of the display
    applies the theme of the current settings. *)
Lemma handle_captured (ev : Event) :
  is_settings_mutation ev = false →
  frames (keeps captured_current) (handle ev).
Proof.
  intros Hev. destruct ev; try discriminate Hev;
    frames_split; apply frames_modify; intros ? Hcur ?; simpl;
    first [discriminate | congruence | apply Hcur].
Qed.

Lemma run_task_captured (k : Task) : frames (keeps captured_current) (run_task k).
Proof.
  destruct k; frames_split; apply frames_modify; intros ? Hcur ?; simpl;
    apply Hcur.
Qed.

Lemma exec_captured (evs : list (Z * Event)) w :
  Forall (λ tev, is_settings_mutation tev.2 = false) evs →
  captured_current w → captured_current (exec w evs).
Proof.
  intros Hevs. revert w.
  induction Hevs as [|[t ev] evs Hev _ IH]; intros w Hw; [exact Hw|].
  simpl. apply IH. unfold step. simpl in *.
  apply (frames_run (keeps captured_current)); [by apply handle_captured|].
  apply (advance_frames (keeps captured_current)); [apply run_task_captured| |exact Hw].
  intros w0 l n Hcur. exact Hcur.
Qed.

(** What holds of the initialization. The init effect, with the mount
    target in place, requests the
    display at the book's last location when the book has one and at the
    start of the document when it has none, and nothing more. As long as the
    display has not settled, whatever else happens, the session is not
    marked ready, no theme is applied and no index construction is begun.
    When the display settles, the session is marked ready, then the theme
    of the settings the init effect closed over is applied, then the
    construction of the location index begins, in this order; and these
    settings are the current ones unless the settings were changed while
    the display was pending. *)
Theorem initial_display_comes_first (b : Book) (s : ReaderSettings) (width : Q)
    (e : E) (store : Db.store) :
  let w0 := initial b s (Some width) e store in
  let start :=
    if truthy (lastLocationCfi b) then Some (lastLocationCfi b) else None in
  log (run (handle Mount) w0) = [RenderTo; Display start]
  ∧ pendingDisplay (run (handle Mount) w0) = Some s
  ∧ (∀ evs : list (Z * Event),
       Forall (λ tev, tev.2 ≠ DisplaySettled) evs →
       isReady (exec w0 evs) = false
       ∧ Forall (λ c, is_ready_action c = false) (log (exec w0 evs)))
  ∧ (∀ evs : list (Z * Event),
       isReady (exec w0 evs) = false →
       Forall (λ c, is_ready_action c = false) (log (exec w0 evs)))
  ∧ (∀ (w : World E) (s' : ReaderSettings),
       pendingDisplay w = Some s' →
       isReady (run (handle DisplaySettled) w) = true
       ∧ ∃ rest,
           log (run (handle DisplaySettled) w)
           = log w ++ [SetIsReady true;
                       ThemesRegister (js "custom") (themeObj s');
                       ThemesSelect (js "custom");
                       LocationsGenerate 1000] ++ rest)
  ∧ (∀ (evs : list (Z * Event)) (s' : ReaderSettings),
       Forall (λ tev, is_settings_mutation tev.2 = false) evs →
       pendingDisplay (exec w0 evs) = Some s' →
       s' = settings (exec w0 evs)).
Proof.
  intros w0 start.
  assert (Hcalm : ∀ evs, isReady (exec w0 evs) = false →
            Forall (λ c, is_ready_action c = false) (log (exec w0 evs))).
  { intros evs Hnr. destruct (exec_calm evs w0 Hnr) as (_ & l & -> & Hl).
    exact Hl. }
  split; [reflexivity|]. split; [reflexivity|]. split; [|split; [exact Hcalm|]].
  { intros evs Hevs.
    assert (Hnr : isReady (exec w0 evs) = false) by (by rewrite exec_not_ready).
    split; [exact Hnr|by apply Hcalm]. }
  split.
  - intros w s' Hp. split.
    + unfold run, handle. rewrite run_get. apply displaySettled_ready. by rewrite Hp.
    + by apply displaySettled_log.
  - intros evs s' Hevs. apply (exec_captured evs w0 Hevs). intros s0 Hs0. discriminate Hs0.
Qed.

(** ** Deleting a highlight *)

(** In the session too, a deletion takes away every entry of the range. *)
Lemma deleteHighlight_highlights (cfi : jsstring) w :
  throws (AnnotationsRemove cfi (js "highlight")) (engine w) = false →
  highlights (run (deleteHighlight cfi) w)
  = filter (λ h, cfiRange h ≠ cfi) (highlights w).
Proof.
  intros Hok. unfold run, deleteHighlight. rewrite run_get.
  assert (Hstep : ∃ w0, highlights w0 = highlights w
            ∧ ∀ k : unit → M E unit,
                ((if renditionRef w
                  then overlay_call (AnnotationsRemove cfi (js "highlight"))
                  else mret tt) ≫= k) w = k tt w0).
  { destruct (renditionRef w).
    - eexists. split; [|intros k; by rewrite run_overlay_call]. reflexivity.
    - exists w. split; [reflexivity|]. intros k. reflexivity. }
  destruct Hstep as (w0 & Hhs & Hrun). rewrite Hrun, run_modify, run_persist, run_modify.
  rewrite <- Hhs.
  match goal with |- highlights (settingsEffect ?w1).2 = _ =>
    transitivity (highlights w1); [apply (settingsEffect_highlights w1)|reflexivity]
  end.
Qed.

(** ** Progress *)

Lemma updateLocationState_run (location : Location) w :
  bookRef w = true →
  let startCfi := start_cfi location in
  let percentageNum :=
    Math_floor (mul (percentageFromCfi (engine w) startCfi) (of_Z 100)) in
  run (updateLocationState location) w
  = set_inflight
      (inflight w ++ [Overlap.updateBookProgress (id (book w)) startCfi percentageNum])
      (set_progress percentageNum (set_currentCfi startCfi w)).
Proof.
  intros Hb. unfold run, updateLocationState. rewrite run_get, Hb. reflexivity.
Qed.

(** C4. At a relocation with start identifier [id], when the location
    index gives a fractional position [f] between 0 and 1, the progress of
    the session becomes [Math.floor(f * 100)], which is an integer from 0
    to 100; and this value, with [id], is what the handler gives to
    [updateBookProgress], the one call it puts in flight; the store itself
    is left to the database, and once the calls in flight are served in
    their order this value, with [id], is what the record of the book
    holds. *)
Theorem relocation_sets_progress (w : World E) (location : Location) :
  renditionRef w = true →
  bookRef w = true →
  let f := percentageFromCfi (engine w) (start_cfi location) in
  is_binary64 f = true →
  leb (S754_zero false) f = true →
  leb f (of_Z 1) = true →
  let w' := run (handle (Relocated location)) w in
  progress w' = Math_floor (mul f (of_Z 100))
  ∧ (∃ z, 0 ≤ z ≤ 100 ∧ integer_value (progress w') = Some z)
  ∧ currentCfi w' = start_cfi location
  ∧ inflight w'
    = inflight w ++ [Overlap.updateBookProgress (id (book w)) (start_cfi location)
                       (progress w')]
  ∧ db w' = db w
  ∧ (∀ b, settled w !! id (book w) = Some b → id b = id (book w) →
       settled w' !! id (book w)
         = Some (with_location b (start_cfi location) (progress w'))).
Proof.
  intros Hr Hb f Hvalid H0 H1 w'.
  assert (Hw' : w' = run (updateLocationState location) w).
  { unfold w', run, handle. by rewrite run_get, Hr. }
  rewrite Hw', (updateLocationState_run location w Hb). simpl. fold f.
  split; [reflexivity|]. split; [by apply FloatFacts.floor_percent|].
  split; [reflexivity|]. split; [reflexivity|]. split; [reflexivity|].
  intros b Hlook Hid.
  match goal with |- settled (set_inflight (_ ++ [?c]) ?w0) !! _ = _ =>
    change (settled (set_inflight (inflight w ++ [c]) w0))
      with (settled (set_inflight (inflight w ++ [c]) w))
  end.
  rewrite settled_issue, finish_updateBookProgress.
  unfold Db.updateBookProgress, Db.await, Db.getDB, Db.resolve, Db.db_get.
  simpl. rewrite Hlook. simpl. rewrite Hid. apply lookup_insert_eq.
Qed.


(** ** Invariants of a session *)

Section Triples.
Context {A : Type} (P : World E → Prop) (Q : A → World E → Prop) (X : World E → Prop).

Lemma triple_mret (a : A) : (∀ w, P w → Q a w) → triple P (mret a) Q X.
Proof. intros HQ w Hw. by apply HQ. Qed.

Lemma triple_throw : (∀ w, P w → X w) → triple P throw Q X.
Proof. intros HX w Hw. by apply HX. Qed.

Lemma triple_bind {B} (m : M E B) (k : B → M E A) (Q' : B → World E → Prop) :
  triple P m Q' X → (∀ b, triple (Q' b) (k b) Q X) → triple P (m ≫= k) Q X.
Proof.
  intros Hm Hk w Hw. unfold mbind, M_bind. specialize (Hm w Hw).
  destruct (m w) as [[b|] w']; [by apply Hk|exact Hm].
Qed.

Lemma triple_get_bind (k : World E → M E A) :
  (∀ w0, P w0 → triple P (k w0) Q X) → triple P (get ≫= k) Q X.
Proof. intros Hk w Hw. rewrite run_get. by apply Hk. Qed.

Lemma triple_weaken (P' : World E → Prop) (Q' : A → World E → Prop)
    (X' : World E → Prop) (m : M E A) :
  (∀ w, P w → P' w) → (∀ a w, Q' a w → Q a w) → (∀ w, X' w → X w) →
  triple P' m Q' X' → triple P m Q X.
Proof.
  intros HP HQ HX Hm w Hw. specialize (Hm w (HP w Hw)).
  destruct (m w) as [[a|] w']; auto.
Qed.

End Triples.

Lemma triple_modify (P : World E → Prop) (Q : unit → World E → Prop)
    (X : World E → Prop) (f : World E → World E) :
  (∀ w, P w → Q tt (f w)) → triple P (modify f) Q X.
Proof. intros Hf w Hw. by apply Hf. Qed.

Lemma triple_frames {A} (R : relation (World E)) (P P' : World E → Prop) (m : M E A) :
  frames R m → (∀ w w', P w → R w w' → P' w') → triple P m (λ _, P') P'.
Proof.
  intros Hm HP w Hw. specialize (Hm w).
  destruct (m w) as [[a|] w']; simpl in Hm; eauto.
Qed.

Lemma triple_run (P Q : World E → Prop) (m : M E unit) w :
  triple P m (λ _, Q) Q → P w → Q (run m w).
Proof.
  intros Hm Hw. specialize (Hm w Hw). unfold run.
  by destruct (m w) as [[[]|] w'].
Qed.


Lemma triple_get_exact {A} (P : World E → Prop) (Q : A → World E → Prop)
    (X : World E → Prop) (k : World E → M E A) :
  (∀ w0, P w0 → triple (λ w, w = w0) (k w0) Q X) → triple P (get ≫= k) Q X.
Proof. intros Hk w Hw. rewrite run_get. by apply (Hk w Hw). Qed.

(** The session's book is a prop: no handler writes it. *)
Lemma handle_book (ev : Event) : frames (same book) (handle ev).
Proof. destruct ev; frames_same. Qed.

Lemma advance_book t w : book (advance t w) = book w.
Proof. apply advance_same; [intros k; destruct k; frames_same|reflexivity]. Qed.

Lemma exec_book (evs : list (Z * Event)) w : book (exec w evs) = book w.
Proof.
  revert w. induction evs as [|[t ev] evs IH]; intros w; [done|].
  simpl. rewrite IH. unfold step. simpl.
  transitivity (book (advance t w)); [|apply advance_book].
  apply (frames_run (same book)), handle_book.
Qed.


(** ** The highlight mode and its ref *)

Lemma handle_mode (ev : Event) w : mode_in_ref w → mode_in_ref (run (handle ev) w).
Proof.
  unfold mode_in_ref. intros Hw.
  destruct ev;
    try (lazymatch goal with
         | |- context [handle ?ev] =>
             assert (Hs : same (λ w, (isHighlightModeRef w, isHighlightMode w)) w
                            (run (handle ev) w))
               by (apply (frames_run (same (λ w, (isHighlightModeRef w, isHighlightMode w))));
                   frames_same)
         end;
         unfold same in Hs; inversion Hs; congruence).
  reflexivity.
Qed.

Lemma advance_mode t w : mode_in_ref w → mode_in_ref (advance t w).
Proof.
  unfold mode_in_ref. intros Hw.
  assert (Hs : (λ w, (isHighlightModeRef w, isHighlightMode w)) (advance t w)
               = (isHighlightModeRef w, isHighlightMode w)).
  { apply (advance_same (λ w, (isHighlightModeRef w, isHighlightMode w)));
      [intros k; destruct k; frames_same|reflexivity]. }
  simpl in Hs. inversion Hs; congruence.
Qed.

Lemma exec_mode (evs : list (Z * Event)) w : mode_in_ref w → mode_in_ref (exec w evs).
Proof.
  revert w. induction evs as [|[t ev] evs IH]; intros w Hw; [exact Hw|].
  simpl. apply IH. unfold step. simpl. by apply handle_mode, advance_mode.
Qed.

(** X10. In every session, whatever events it has seen, the ref that the
    mouseup listener reads holds the highlight mode of the toolbar; so a
    mouseup while the highlight mode is off changes nothing at all,
    whatever is selected. *)
Theorem selection_outside_highlight_mode_is_ignored (b : Book) (s : ReaderSettings)
    (container : option Q) (e : E) (store : Db.store) (evs : list (Z * Event))
    (selection : option Selection) :
  let w := exec (initial b s container e store) evs in
  isHighlightModeRef w = isHighlightMode w
  ∧ (isHighlightMode w = false → run (handle (MouseUp selection)) w = w).
Proof.
  intros w.
  assert (Hm : mode_in_ref w) by (apply exec_mode; reflexivity).
  split; [exact Hm|]. intros Hoff. unfold mode_in_ref in Hm. rewrite Hoff in Hm.
  unfold run, handle. rewrite run_get. destruct (renditionRef w); [|reflexivity].
  unfold mouseup. by rewrite run_get, Hm.
Qed.


(** ** At most one reconciliation is pending *)


Lemma timers_owned_same w w' : timers_owned w → same clock w w' → timers_owned w'.
Proof.
  unfold same, clock. intros Ho Hs. inversion Hs as [[Ht Hn Hc Hnow]].
  unfold timers_owned. by rewrite Ht, Hn, Hc, Hnow.
Qed.

Lemma debounced_same w w' :
  debounced w → same (λ w, (clock w, highlights w)) w w' → debounced w'.
Proof.
  unfold same, clock. intros [Ho Hh] Hs. inversion Hs as [[Ht Hn Hc Hnow Hhs]].
  split; [apply (timers_owned_same w); [done|]; unfold same, clock; congruence|].
  by rewrite Ht, Hhs.
Qed.

Lemma settingsEffect_clock w :
  let kept := match settingsCleanup w with
              | Some c => filter (λ x, tid x ≠ c) (timers w)
              | None => timers w
              end in
  ∃ w', settingsEffect w = (Returned tt, w')
    ∧ highlights w' = highlights w ∧ now w' = now w
    ∧ if renditionRef w && isReady w
      then timers w' = kept ++ [mkTimer (nextTimerId w) (now w + 100)
                                  (Reconcile (highlights w))]
           ∧ nextTimerId w' = S (nextTimerId w)
           ∧ settingsCleanup w' = Some (nextTimerId w)
      else timers w' = kept
           ∧ nextTimerId w' = nextTimerId w
           ∧ settingsCleanup w' = None.
Proof.
  unfold settingsEffect. rewrite run_get.
  destruct (settingsCleanup w) as [c|]; destruct (renditionRef w && isReady w);
    eexists; (split; [reflexivity|]); simpl; auto.
Qed.

Lemma settingsEffect_debounces :
  triple timers_owned settingsEffect (λ _, debounced) debounced.
Proof.
  intros w (Hnd & Hlt & Hown).
  destruct (settingsEffect_clock w) as (w' & -> & Hhs & Hnow & Hw').
  set (kept := match settingsCleanup w with
               | Some c => filter (λ x, tid x ≠ c) (timers w)
               | None => timers w
               end) in *.
  assert (Hsub : kept ⊆ timers w).
  { unfold kept. destruct (settingsCleanup w); [|done].
    intros x Hx. by apply list_elem_of_filter in Hx as [_ ?]. }
  assert (Hkept_nd : NoDup (tid <$> kept)).
  { unfold kept. destruct (settingsCleanup w); [|done].
    eapply sublist_NoDup; [exact Hnd|]. apply fmap_sublist, sublist_filter. }
  assert (Hkept : Forall (λ x, is_reconcile (task x) = false) kept).
  { apply Forall_forall. intros x Hx. destruct (is_reconcile (task x)) eqn:Hr; [|done].
    rewrite Forall_forall in Hown. destruct (Hown x (Hsub x Hx) Hr) as [Hc _].
    unfold kept in Hx. rewrite Hc in Hx.
    apply list_elem_of_filter in Hx as [Hne _]. done. }
  assert (Hkept_lt : Forall (λ x, (tid x < nextTimerId w)%nat) kept).
  { apply Forall_forall. intros x Hx. rewrite Forall_forall in Hlt. by apply Hlt, Hsub. }
  destruct (renditionRef w && isReady w); destruct Hw' as (Ht & Hn & Hc);
    unfold debounced, timers_owned; rewrite Ht, Hn, Hc, Hhs, Hnow.
  - split; [split; [|split]|].
    + rewrite fmap_app. apply NoDup_app. split; [done|]. split; [|apply NoDup_singleton].
      intros i Hi Hi'. simpl in Hi'. apply list_elem_of_singleton in Hi'. subst i.
      apply list_elem_of_fmap in Hi as (x & Hx & Hin).
      rewrite Forall_forall in Hkept_lt. specialize (Hkept_lt x Hin). lia.
    + apply Forall_app. split; [|apply Forall_singleton; simpl; lia].
      eapply Forall_impl; [exact Hkept_lt|]. simpl. lia.
    + apply Forall_app. split; [|apply Forall_singleton; simpl; intros _; split; [done|lia]].
      eapply Forall_impl; [exact Hkept|]. simpl. intros x -> ?. done.
    + apply Forall_app. split.
      * eapply Forall_impl; [exact Hkept|]. simpl. intros x Hx hs Hk.
        rewrite Hk in Hx. done.
      * apply Forall_singleton. simpl. intros hs Hk. by inversion Hk.
  - split; [split; [|split]|]; try done.
    + eapply Forall_impl; [exact Hkept|]. simpl. intros x -> ?. done.
    + eapply Forall_impl; [exact Hkept|]. simpl. intros x Hx hs Hk.
      rewrite Hk in Hx. done.
Qed.

Lemma debounced_owned w : debounced w → timers_owned w.
Proof. by intros [? _]. Qed.

(** A handler that leaves the timers, the clock and the highlights alone. *)
Ltac steady :=
  lazymatch goal with
  | |- triple debounced _ _ _ =>
      apply (triple_frames (same (λ w, (clock w, highlights w)))
               debounced debounced); [frames_same|apply debounced_same]
  | |- triple timers_owned _ _ _ =>
      apply (triple_frames (same clock) timers_owned timers_owned);
        [frames_same|apply timers_owned_same]
  end.

Lemma setTimeout_reset_debounced (d : Z) :
  triple debounced (setTimeout ResetJustCreated d : M E nat)
    (λ _, debounced) debounced.
Proof.
  intros w ((Hnd & Hlt & Hown) & Hhs). unfold setTimeout. rewrite run_get. simpl.
  unfold debounced, timers_owned. simpl.
  split; [split; [|split]|].
  - rewrite fmap_app. apply NoDup_app. split; [done|]. split; [|apply NoDup_singleton].
    intros i Hi Hi'. simpl in Hi'. apply list_elem_of_singleton in Hi'. subst i.
    apply list_elem_of_fmap in Hi as (x & Hx & Hin).
    rewrite Forall_forall in Hlt. specialize (Hlt x Hin). lia.
  - apply Forall_app. split; [|apply Forall_singleton; simpl; lia].
    eapply Forall_impl; [exact Hlt|]. simpl. lia.
  - apply Forall_app. split; [done|]. by apply Forall_singleton.
  - apply Forall_app. split; [done|]. by apply Forall_singleton.
Qed.

Lemma onUpdateSettings_debounced (s : ReaderSettings) :
  triple debounced (onUpdateSettings s) (λ _, debounced) debounced.
Proof.
  unfold onUpdateSettings.
  apply (triple_bind _ _ _ _ _ (λ _, timers_owned)).
  - apply triple_modify. intros w [Ho _]. exact Ho.
  - intros _. apply settingsEffect_debounces.
Qed.

Lemma settingsEffect_debounced :
  triple debounced settingsEffect (λ _, debounced) debounced.
Proof.
  eapply triple_weaken; [apply debounced_owned| | |apply settingsEffect_debounces]; auto.
Qed.

Lemma highlightsLoadEffect_debounced :
  triple debounced highlightsLoadEffect (λ _, debounced) debounced.
Proof.
  unfold highlightsLoadEffect. apply triple_get_bind. intros w0 _.
  destruct (Types.highlights (book w0)) as [hs|]; [|by apply triple_mret].
  destruct (_ && _); [|by apply triple_mret].
  apply (triple_bind _ _ _ _ _ (λ _, debounced)); [steady|]. intros _.
  destruct (highlightsFromBook w0); [by apply triple_mret|].
  apply (triple_bind _ _ _ _ _ (λ _, timers_owned)).
  - apply triple_modify. intros w [Ho _]. exact Ho.
  - intros _. apply settingsEffect_debounces.
Qed.

Lemma displaySettled_debounced :
  triple debounced displaySettled (λ _, debounced) debounced.
Proof.
  unfold displaySettled. apply triple_get_bind. intros w0 _.
  destruct (pendingDisplay w0) as [s|]; [|by apply triple_mret].
  do 6 (apply (triple_bind _ _ _ _ _ (λ _, debounced)); [steady|intros _]).
  apply (triple_bind _ _ _ _ _ (λ _, debounced));
    [apply settingsEffect_debounced|intros _].
  apply highlightsLoadEffect_debounced.
Qed.

Lemma mouseup_debounced (selection : option Selection) :
  triple debounced (mouseup selection) (λ _, debounced) debounced.
Proof.
  unfold mouseup. apply triple_get_bind. intros w0 _.
  destruct (negb _); [by apply triple_mret|].
  destruct selection as [sel|]; [|by apply triple_mret].
  destruct (_ || _); [by apply triple_mret|].
  destruct (negb _); [by apply triple_mret|].
  destruct (truthy (rangeCfi sel)); [|by apply triple_mret].
  apply (triple_bind _ _ _ _ _ (λ _, debounced)); [steady|intros _].
  apply (triple_bind _ _ _ _ _ (λ _, debounced));
    [apply setTimeout_reset_debounced|intros _].
  do 2 (apply (triple_bind _ _ _ _ _ (λ _, debounced)); [steady|intros _]).
  apply (triple_bind _ _ _ _ _ (λ _, timers_owned)).
  { apply triple_modify. intros w [Ho _]. exact Ho. }
  intros _.
  apply (triple_bind _ _ _ _ _ (λ _, timers_owned)).
  { unfold persist. apply triple_modify. intros w Ho. exact Ho. }
  intros _. apply settingsEffect_debounces.
Qed.

Lemma deleteHighlight_debounced (cfi : jsstring) :
  triple debounced (deleteHighlight cfi) (λ _, debounced) debounced.
Proof.
  unfold deleteHighlight. apply triple_get_bind. intros w0 _.
  apply (triple_bind _ _ _ _ _ (λ _, debounced)); [steady|intros _].
  apply (triple_bind _ _ _ _ _ (λ _, timers_owned)).
  { apply triple_modify. intros w [Ho _]. exact Ho. }
  intros _.
  apply (triple_bind _ _ _ _ _ (λ _, timers_owned)).
  { unfold persist. apply triple_modify. intros w Ho. exact Ho. }
  intros _.
  apply (triple_bind _ _ _ _ _ (λ _, timers_owned)).
  { apply triple_modify. intros w Ho. exact Ho. }
  intros _. apply settingsEffect_debounces.
Qed.

Lemma handle_debounced (ev : Event) :
  triple debounced (handle ev) (λ _, debounced) debounced.
Proof.
  destruct ev; try (solve [steady]); unfold handle; apply triple_get_bind; intros w0 _.
  - apply displaySettled_debounced.
  - destruct (renditionRef w0); [apply mouseup_debounced|by apply triple_mret].
  - apply onUpdateSettings_debounced.
  - apply onUpdateSettings_debounced.
  - apply onUpdateSettings_debounced.
  - destruct (highlightPopup w0); [apply deleteHighlight_debounced|by apply triple_mret].
Qed.

Lemma advance_debounced t w : debounced w → debounced (advance t w).
Proof.
  intros ((Hnd & Hlt & Hown) & Hhs).
  assert (Hn : nextTimerId (advance t w) = nextTimerId w)
    by (apply advance_same; [intros k; destruct k; frames_same|reflexivity]).
  assert (Hc : settingsCleanup (advance t w) = settingsCleanup w)
    by (apply advance_same; [intros k; destruct k; frames_same|reflexivity]).
  unfold debounced, timers_owned.
  rewrite advance_timers, advance_now, advance_highlights, Hn, Hc.
  split; [split; [|split]|].
  - eapply sublist_NoDup; [exact Hnd|]. apply fmap_sublist, sublist_filter.
  - by apply ListFacts.Forall_filter.
  - apply ListFacts.Forall_filter. eapply Forall_impl; [exact Hown|]. simpl.
    intros x Hx Hr. destruct (Hx Hr). split; [done|lia].
  - by apply ListFacts.Forall_filter.
Qed.

Lemma exec_debounced (evs : list (Z * Event)) w : debounced w → debounced (exec w evs).
Proof.
  revert w. induction evs as [|[t ev] evs IH]; intros w Hw; [exact Hw|].
  simpl. apply IH. unfold step. simpl.
  apply (triple_run debounced); [apply handle_debounced|by apply advance_debounced].
Qed.

(** X11. In every session, whatever events it has seen, at most one
    re-application of the highlights is pending: a change of the settings
    or of the highlights cancels the one set before it. The one that is
    pending will walk the highlights that the session holds now, it is due
    at most 100ms from now, and it is the timer that the next cleanup of
    the settings effect clears. *)
Theorem one_reconciliation_pending (b : Book) (s : ReaderSettings)
    (container : option Q) (e : E) (store : Db.store) (evs : list (Z * Event)) :
  let w := exec (initial b s container e store) evs in
  (length (pending_reconciliations w) ≤ 1)%nat
  ∧ ∀ x, x ∈ pending_reconciliations w →
      task x = Reconcile (highlights w)
      ∧ due x ≤ now w + 100
      ∧ settingsCleanup w = Some (tid x).
Proof.
  intros w.
  assert (Hd : debounced w).
  { apply exec_debounced. unfold debounced, timers_owned. simpl.
    repeat split; constructor. }
  destruct Hd as ((Hnd & _ & Hown) & Hhs).
  assert (Hall : ∀ x, x ∈ pending_reconciliations w →
            task x = Reconcile (highlights w)
            ∧ due x ≤ now w + 100 ∧ settingsCleanup w = Some (tid x)).
  { intros x Hx. apply list_elem_of_filter in Hx as [Hr Hin].
    rewrite Forall_forall in Hown, Hhs.
    destruct (Hown x Hin Hr) as [Hc Hdue]. split; [|done].
    destruct (task x) as [|hs] eqn:Hk; [done|]. by rewrite (Hhs x Hin hs Hk). }
  split; [|exact Hall].
  assert (Hnd' : NoDup (tid <$> pending_reconciliations w)).
  { eapply sublist_NoDup; [exact Hnd|]. apply fmap_sublist, sublist_filter. }
  destruct (pending_reconciliations w) as [|x [|y l]]; simpl; [lia|lia|].
  exfalso.
  destruct (Hall x) as (_ & _ & Hx); [left|].
  destruct (Hall y) as (_ & _ & Hy); [right; left|].
  rewrite Hx in Hy. inversion Hy as [Hxy].
  simpl in Hnd'. apply NoDup_cons in Hnd' as [Hnotin _].
  apply Hnotin. rewrite Hxy. left.
Qed.


(** ** The highlights of the session and of the store *)


Lemma synced_same bk w w' : synced bk w → same shelf w w' → synced bk w'.
Proof.
  unfold same, shelf. intros Hw Hs. inversion Hs as [[Hd Hh Hl Hb]].
  unfold synced, highlights_in_step, load_over, stored in *.
  by rewrite Hd, Hh, Hl, Hb.
Qed.

Ltac steady_shelf :=
  lazymatch goal with
  | |- triple (synced ?bk) _ _ _ =>
      apply (triple_frames (same shelf) (synced bk) (synced bk));
        [frames_same|apply synced_same]
  end.

Lemma highlightsLoadEffect_synced bk :
  triple (synced bk) highlightsLoadEffect (λ _, synced bk) (synced bk).
Proof.
  unfold highlightsLoadEffect. apply triple_get_bind. intros w0 (_ & Hload & _).
  destruct (Types.highlights (book w0)) as [hs|] eqn:Hhs; [|by apply triple_mret].
  replace (renditionRef w0 && isReady w0 && negb (highlightsLoadedRef w0)
           && (0 <? length hs)%nat) with false; [by apply triple_mret|].
  destruct Hload as [-> | Hnil]; [by rewrite andb_false_r|].
  rewrite Hhs in Hnil. change (hs = []) in Hnil. subst hs. by rewrite andb_false_r.
Qed.

Lemma updateLocationState_synced bk (l : Location) :
  triple (synced bk) (updateLocationState l) (λ _, synced bk) (synced bk).
Proof.
  unfold updateLocationState. apply triple_get_bind. intros w0 Hw0.
  destruct (negb _); [by apply triple_mret|].
  do 2 (apply (triple_bind _ _ _ _ _ (λ _, synced bk)); [steady_shelf|intros _]).
  unfold persist. apply triple_modify.
  intros w ((b & Hst & Hid & Hhs) & Hload & Hbk).
  destruct Hw0 as (_ & _ & Hbk0).
  unfold synced, highlights_in_step, load_over in *.
  rewrite stored_issue, finish_updateBookProgress. unfold stored in *. simpl.
  split; [|done]. rewrite Hbk0, <- Hbk. eexists.
  split; [by apply DbFacts.updateBookProgress_stored|]. done.
Qed.

Lemma settingsEffect_synced bk :
  triple (synced bk) settingsEffect (λ _, synced bk) (synced bk).
Proof. steady_shelf. Qed.

Lemma mouseup_synced bk (selection : option Selection) :
  triple (synced bk) (mouseup selection) (λ _, synced bk) (synced bk).
Proof.
  unfold mouseup. apply triple_get_bind. intros w0 (_ & _ & Hbk0).
  destruct (negb _); [by apply triple_mret|].
  destruct selection as [sel|]; [|by apply triple_mret].
  destruct (_ || _); [by apply triple_mret|].
  destruct (negb _); [by apply triple_mret|].
  destruct (truthy (rangeCfi sel)); [|by apply triple_mret].
  set (h := {| cfiRange := rangeCfi sel |}).
  do 4 (apply (triple_bind _ _ _ _ _ (λ _, synced bk)); [steady_shelf|intros _]).
  apply (triple_bind _ _ _ _ _ (λ _ w,
    (∃ b, stored w = Some b ∧ id b = id (book w)
          ∧ default [] (Types.highlights b) ++ [h] = highlights w)
    ∧ load_over w ∧ book w = bk)).
  { apply triple_modify. intros w ((b & Hst & Hid & Hhs) & Hload & Hbk).
    unfold stored, load_over in *. simpl. split; [|done].
    exists b. by rewrite Hhs. }
  intros _.
  apply (triple_bind _ _ _ _ _ (λ _, synced bk)); [|intros _; steady_shelf].
  unfold persist. apply triple_modify.
  intros w ((b & Hst & Hid & Hhs) & Hload & Hbk).
  unfold synced, highlights_in_step, load_over in *.
  rewrite stored_issue, finish_addBookHighlight. unfold stored in *. simpl.
  split; [|done]. rewrite Hbk0, <- Hbk. eexists.
  split; [by apply DbFacts.addBookHighlight_stored|]. done.
Qed.

Lemma deleteHighlight_synced bk (cfi : jsstring) :
  triple (synced bk) (deleteHighlight cfi) (λ _, synced bk) (synced bk).
Proof.
  unfold deleteHighlight. apply triple_get_bind. intros w0 (_ & _ & Hbk0).
  apply (triple_bind _ _ _ _ _ (λ _, synced bk)); [steady_shelf|intros _].
  apply (triple_bind _ _ _ _ _ (λ _ w,
    (∃ b, stored w = Some b ∧ id b = id (book w)
          ∧ filter (λ h, cfiRange h ≠ cfi) (default [] (Types.highlights b))
            = highlights w)
    ∧ load_over w ∧ book w = bk)).
  { apply triple_modify. intros w ((b & Hst & Hid & Hhs) & Hload & Hbk).
    unfold stored, load_over in *. simpl. split; [|done].
    exists b. by rewrite Hhs. }
  intros _.
  apply (triple_bind _ _ _ _ _ (λ _, synced bk)).
  2:{ intros _. apply (triple_bind _ _ _ _ _ (λ _, synced bk));
        [steady_shelf|intros _; steady_shelf]. }
  unfold persist. apply triple_modify.
  intros w ((b & Hst & Hid & Hhs) & Hload & Hbk).
  unfold synced, highlights_in_step, load_over in *.
  rewrite stored_issue, finish_removeBookHighlight. unfold stored in *. simpl.
  split; [|done]. rewrite Hbk0, <- Hbk.
  destruct (DbFacts.removeBookHighlight_stored (settled w) (id (book w)) b cfi Hst Hid)
    as (b' & Hst' & Hid' & _ & _ & Hhs').
  exists b'. split; [done|]. split; [done|]. by rewrite Hhs'.
Qed.

Lemma displaySettled_synced bk :
  triple (synced bk) displaySettled (λ _, synced bk) (synced bk).
Proof.
  unfold displaySettled. apply triple_get_bind. intros w0 _.
  destruct (pendingDisplay w0) as [s|]; [|by apply triple_mret].
  do 7 (apply (triple_bind _ _ _ _ _ (λ _, synced bk)); [steady_shelf|intros _]).
  apply highlightsLoadEffect_synced.
Qed.

Lemma requestServed_shelf : frames (same shelf) (requestServed 0 : M E unit).
Proof.
  intros w. unfold same, shelf.
  change ((requestServed 0 w).2) with (run (requestServed 0) w).
  rewrite requestServed_settled.
  by rewrite (requestServed_field highlights), (requestServed_field highlightsLoadedRef),
    (requestServed_field book).
Qed.

Lemma handle_synced bk (ev : Event) :
  serves_oldest ev = true →
  triple (synced bk) (handle ev) (λ _, synced bk) (synced bk).
Proof.
  intros Hev.
  destruct ev; try (solve [steady_shelf]); unfold handle;
    apply triple_get_bind; intros w0 _.
  6:{ apply Nat.eqb_eq in Hev. subst n.
      apply (triple_frames (same shelf) (synced bk) (synced bk));
        [apply requestServed_shelf|apply synced_same]. }
  - apply displaySettled_synced.
  - unfold locationsGenerated. apply triple_get_bind. intros w1 _.
    destruct (pendingGenerate w1); [|by apply triple_mret].
    apply (triple_bind _ _ _ _ _ (λ _, synced bk)); [steady_shelf|intros _].
    destruct location; [apply updateLocationState_synced|by apply triple_mret].
  - destruct (renditionRef w0); [apply updateLocationState_synced|by apply triple_mret].
  - destruct (renditionRef w0); [apply mouseup_synced|by apply triple_mret].
  - destruct (highlightPopup w0); [apply deleteHighlight_synced|by apply triple_mret].
Qed.

Lemma advance_synced bk t w : synced bk w → synced bk (advance t w).
Proof.
  intros Hw. apply (synced_same bk w); [done|].
  apply (advance_same shelf); [intros k; destruct k; frames_same|reflexivity].
Qed.

Lemma exec_synced bk (evs : list (Z * Event)) w :
  Forall (λ tev, serves_oldest tev.2 = true) evs →
  synced bk w → synced bk (exec w evs).
Proof.
  intros Hevs. revert w.
  induction Hevs as [|[t ev] evs Hev _ IH]; intros w Hw; [exact Hw|].
  simpl. apply IH. unfold step. simpl.
  apply (triple_run (synced bk)); [by apply handle_synced|by apply advance_synced].
Qed.

(** *** Opening the book *)

Lemma opening_same bk w w' : opening bk w → same desk w w' → opening bk w'.
Proof.
  unfold same, desk, shelf. intros Hw Hs. inversion Hs as [[Hd Hh Hl Hb Hr]].
  unfold opening, highlights_in_step, stored in *.
  by rewrite Hd, Hh, Hb, Hr.
Qed.

Ltac steady_desk :=
  lazymatch goal with
  | |- triple (opening ?bk) _ _ _ =>
      apply (triple_frames (same desk) (opening bk) (opening bk));
        [frames_same|apply opening_same]
  end.

Lemma updateLocationState_opening bk (l : Location) :
  triple (opening bk) (updateLocationState l) (λ _, opening bk) (opening bk).
Proof.
  unfold updateLocationState. apply triple_get_bind. intros w0 (_ & Hbk0 & _).
  destruct (negb _); [by apply triple_mret|].
  do 2 (apply (triple_bind _ _ _ _ _ (λ _, opening bk)); [steady_desk|intros _]).
  unfold persist. apply triple_modify.
  intros w ((b & Hst & Hid & Hhs) & Hbk & Hh & Hr).
  unfold opening, highlights_in_step in *.
  rewrite stored_issue, finish_updateBookProgress. unfold stored in *. simpl.
  split; [|done]. rewrite Hbk0, <- Hbk. eexists.
  split; [by apply DbFacts.updateBookProgress_stored|]. done.
Qed.

Lemma highlightsLoadEffect_opening bk :
  triple (λ w, opening bk w ∧ isReady w = true) highlightsLoadEffect
    (λ _, synced bk) (synced bk).
Proof.
  unfold highlightsLoadEffect. apply triple_get_exact.
  intros w0 ((Hs0 & Hb0 & Hh0 & Hr0) & Hi0).
  destruct (Types.highlights (book w0)) as [hs|] eqn:Hhs.
  2:{ apply triple_mret. intros w ->. split; [done|]. split; [|done].
      right. by rewrite Hhs. }
  change (highlights w0 = hs) in Hh0.
  rewrite Hr0, Hi0. cbn [andb].
  destruct (highlightsLoadedRef w0) eqn:Hl0; cbn [negb andb].
  { apply triple_mret. intros w ->. split; [done|]. split; [by left|done]. }
  destruct (0 <? length hs)%nat eqn:Hlen.
  2:{ apply triple_mret. intros w ->. split; [done|]. split; [|done].
      right. rewrite Hhs. destruct hs; [done|discriminate Hlen]. }
  apply (triple_bind _ _ _ _ _ (λ _ w, w = set_highlightsLoadedRef true w0)).
  { apply triple_modify. by intros w ->. }
  intros _.
  destruct (highlightsFromBook w0).
  { apply triple_mret. intros w ->.
    split; [exact Hs0|]. split; [by left|exact Hb0]. }
  apply (triple_bind _ _ _ _ _ (λ _, synced bk)); [|intros _; apply settingsEffect_synced].
  apply triple_modify. intros w ->.
  destruct Hs0 as (b & Hst & Hid & Hhs').
  split; [|split; [by left|exact Hb0]].
  exists b. split; [exact Hst|]. split; [exact Hid|]. simpl. congruence.
Qed.

Lemma never_throws_mret {A} (a : A) : never_throws (mret a : M E A).
Proof. intros w. by eexists _, _. Qed.

Lemma never_throws_get : never_throws (get : M E (World E)).
Proof. intros w. by eexists _, _. Qed.

Lemma never_throws_modify (f : World E → World E) : never_throws (modify f).
Proof. intros w. by eexists _, _. Qed.

Lemma never_throws_bind {A B} (m : M E A) (k : A → M E B) :
  never_throws m → (∀ a, never_throws (k a)) → never_throws (m ≫= k).
Proof.
  intros Hm Hk w. unfold mbind, M_bind.
  destruct (Hm w) as (a & w' & ->). apply Hk.
Qed.

Ltac quiet_step :=
  lazymatch goal with
  | |- never_throws (@mret _ _ _ _) => apply never_throws_mret
  | |- never_throws get => apply never_throws_get
  | |- never_throws (modify _) => apply never_throws_modify
  | |- never_throws (@mbind _ _ _ _ _ _) => apply never_throws_bind; [|intros ?]
  | |- never_throws (match ?x with _ => _ end) => destruct x
  | |- never_throws _ =>
      progress unfold settingsEffect, applyTheme, onUpdateSettings,
        toggleHighlightMode, initEffect, markClicked,
        call, emit, persist, setTimeout, clearTimeout
  end.

Ltac quiet := repeat quiet_step.

Lemma triple_quiet {A} (R : relation (World E)) (P Q X : World E → Prop) (m : M E A) :
  frames R m → never_throws m → (∀ w w', P w → R w w' → Q w') →
  triple P m (λ _, Q) X.
Proof.
  intros Hm Hq HP w Hw. specialize (Hm w).
  destruct (Hq w) as (a & w' & Hrun). rewrite Hrun in *. simpl in Hm. eauto.
Qed.

Lemma displaySettled_opening bk :
  triple (λ w, opening bk w ∧ pendingDisplay w ≠ None) displaySettled
    (λ _, synced bk) (synced bk).
Proof.
  unfold displaySettled. apply triple_get_exact. intros w0 [Hw0 Hp0].
  destruct (pendingDisplay w0) as [s|]; [|done].
  apply (triple_weaken _ _ _ (opening bk) (λ _, synced bk) (synced bk));
    [by intros w ->|done|done|].
  do 2 (apply (triple_bind _ _ _ _ _ (λ _, opening bk));
        [apply (triple_quiet (same desk)); [frames_same|quiet|apply opening_same]
        |intros _]).
  set (P := λ w, opening bk w ∧ isReady w = true).
  assert (HP : ∀ w w', P w → same (λ w, (desk w, isReady w)) w w' → P w').
  { intros w w' [Hw Hi] Hs. unfold same in Hs. apply pair_equal_spec in Hs as [Hd Hi'].
    split; [|congruence]. by apply (opening_same bk w). }
  apply (triple_bind _ _ _ _ _ (λ _, P)).
  { apply triple_modify. intros w (Hs & Hb & Hh & Hr). by split. }
  intros _.
  do 4 (apply (triple_bind _ _ _ _ _ (λ _, P));
        [apply (triple_quiet (same (λ w, (desk w, isReady w))));
           [frames_same|quiet|exact HP]
        |intros _]).
  apply highlightsLoadEffect_opening.
Qed.

Lemma triple_conj_same {A B} (P : World E → Prop) (Q : A → World E → Prop)
    (X : World E → Prop) (m : M E A) (f : World E → B) (F : B → Prop) :
  triple P m Q X → frames (same f) m →
  triple (λ w, P w ∧ F (f w)) m (λ a w, Q a w ∧ F (f w)) (λ w, X w ∧ F (f w)).
Proof.
  intros Hm Hf w [Hw HF]. specialize (Hm w Hw). specialize (Hf w). unfold same in Hf.
  destruct (m w) as [[a|] w']; simpl in Hf; rewrite Hf; auto.
Qed.

Lemma requestServed_desk :
  frames (same (λ w, (desk w, pendingDisplay w))) (requestServed 0 : M E unit).
Proof.
  intros w. unfold same, desk.
  change ((requestServed 0 w).2) with (run (requestServed 0) w).
  rewrite (requestServed_shelf w : shelf (run (requestServed 0) w) = shelf w).
  by rewrite (requestServed_field renditionRef), (requestServed_field pendingDisplay).
Qed.

Lemma handle_opening bk (ev : Event) :
  is_highlight_edit ev = false →
  serves_oldest ev = true →
  triple (λ w, (opening bk w ∧ pendingDisplay w ≠ None) ∨ synced bk w) (handle ev)
    (λ _ w, (opening bk w ∧ pendingDisplay w ≠ None) ∨ synced bk w)
    (λ w, (opening bk w ∧ pendingDisplay w ≠ None) ∨ synced bk w).
Proof.
  intros Hev Hserve w [Hw|Hw].
  2:{ pose proof (handle_synced bk ev Hserve w Hw) as Hrun.
      destruct (handle ev w) as [[[]|] w']; by right. }
  set (P := λ w, opening bk w ∧ pendingDisplay w ≠ None).
  assert (HP : ∀ w w', P w → same (λ w, (desk w, pendingDisplay w)) w w' → P w').
  { intros w1 w2 [Hw1 Hp] Hs. unfold same in Hs. apply pair_equal_spec in Hs as [Hd Hp'].
    split; [|congruence]. by apply (opening_same bk w1). }
  assert (Hgoal : triple P (handle ev) (λ _ w, P w ∨ synced bk w) (λ w, P w ∨ synced bk w)).
  2:{ specialize (Hgoal w Hw). exact Hgoal. }
  clear w Hw.
  assert (Hsteady : ∀ m : M E unit,
            frames (same (λ w, (desk w, pendingDisplay w))) m →
            triple P m (λ _ w, P w ∨ synced bk w) (λ w, P w ∨ synced bk w)).
  { intros m Hm.
    apply (triple_weaken _ _ _ P (λ _, P) P); [done|by left|by left|].
    by apply (triple_frames (same (λ w, (desk w, pendingDisplay w)))). }
  destruct ev; try discriminate Hev;
    try (solve [apply Hsteady; frames_same]);
    unfold handle; apply triple_get_bind; intros w0 Hw0.
  - (* Mount *)
    apply (triple_weaken _ _ _ P (λ _, P) P); [done|by left|by left|].
    unfold initEffect. apply triple_get_bind. intros w1 _.
    destruct (containerRef w1); [|by apply triple_mret].
    do 2 (apply (triple_bind _ _ _ _ _ (λ _, P));
          [apply (triple_frames (same (λ w, (desk w, pendingDisplay w))) P P);
             [frames_same|exact HP]|intros _]).
    apply (triple_bind _ _ _ _ _ (λ _, P)).
    { apply triple_modify. intros w ((Hs & Hb & Hh & Hr) & Hp). by split. }
    intros _.
    apply (triple_bind _ _ _ _ _ (λ _, P));
      [apply (triple_frames (same (λ w, (desk w, pendingDisplay w))) P P);
         [frames_same|exact HP]|intros _].
    apply triple_modify. intros w ((Hs & Hb & Hh & Hr) & Hp). by split.
  - (* DisplaySettled *)
    apply (triple_weaken _ _ _ P (λ _, synced bk) (synced bk));
      [done|by right|by right|].
    apply displaySettled_opening.
  - (* LocationsGenerated *)
    apply (triple_weaken _ _ _ P (λ _, P) P); [done|by left|by left|].
    unfold locationsGenerated. apply triple_get_bind. intros w1 _.
    destruct (pendingGenerate w1); [|by apply triple_mret].
    apply (triple_bind _ _ _ _ _ (λ _, P));
      [apply (triple_frames (same (λ w, (desk w, pendingDisplay w))) P P);
         [frames_same|exact HP]|intros _].
    destruct location; [|by apply triple_mret].
    apply (triple_conj_same _ _ _ _ pendingDisplay (λ p, p ≠ None));
      [apply updateLocationState_opening|frames_same].
  - (* Relocated *)
    apply (triple_weaken _ _ _ P (λ _, P) P); [done|by left|by left|].
    destruct (renditionRef w0); [|by apply triple_mret].
    apply (triple_conj_same _ _ _ _ pendingDisplay (λ p, p ≠ None));
      [apply updateLocationState_opening|frames_same].
  - (* RequestServed *)
    apply Nat.eqb_eq in Hserve. subst n.
    apply Hsteady, requestServed_desk.
Qed.

Lemma exec_opening bk (pre : list (Z * Event)) w :
  Forall (λ tev, is_highlight_edit tev.2 = false ∧ serves_oldest tev.2 = true) pre →
  (opening bk w ∧ pendingDisplay w ≠ None) ∨ synced bk w →
  (opening bk (exec w pre) ∧ pendingDisplay (exec w pre) ≠ None)
  ∨ synced bk (exec w pre).
Proof.
  intros Hpre. revert w.
  induction Hpre as [|[t ev] pre [Hev Hserve] _ IH]; intros w Hw; [exact Hw|].
  simpl. apply IH. unfold step. simpl.
  apply (triple_run (λ w, (opening bk w ∧ pendingDisplay w ≠ None) ∨ synced bk w));
    [by apply handle_opening|].
  destruct Hw as [[Hw Hp]|Hw]; [left|right; by apply advance_synced].
  split.
  - apply (opening_same bk w); [done|].
    apply (advance_same desk); [intros k; destruct k; frames_same|reflexivity].
  - replace (pendingDisplay (advance t w)) with (pendingDisplay w); [done|].
    symmetry. apply advance_same; [intros k; destruct k; frames_same|reflexivity].
Qed.

Lemma exec_app w (l1 l2 : list (Z * Event)) : exec w (l1 ++ l2) = exec (exec w l1) l2.
Proof. apply foldl_app. Qed.

Lemma step_display_synced bk t w :
  (opening bk w ∧ pendingDisplay w ≠ None) ∨ synced bk w →
  synced bk (step w (t, DisplaySettled)).
Proof.
  intros Hw. unfold step. simpl. destruct Hw as [[Hw Hp]|Hw].
  - apply (triple_run (λ w, opening bk w ∧ pendingDisplay w ≠ None)).
    + unfold handle. apply triple_get_bind. intros _ _. apply displaySettled_opening.
    + split.
      * apply (opening_same bk w); [done|].
        apply (advance_same desk); [intros k; destruct k; frames_same|reflexivity].
      * replace (pendingDisplay (advance t w)) with (pendingDisplay w); [done|].
        symmetry. apply advance_same; [intros k; destruct k; frames_same|reflexivity].
  - apply (triple_run (synced bk)); [by apply handle_synced|by apply advance_synced].
Qed.

(** X12. The writes of a session are calls in flight that the database
    serves later. When the book is opened from its stored record, no
    highlight is created or deleted before the display has settled, and
    the database serves the calls one at a time in the order of their
    issue, then from the settling of the display on, whatever events
    follow, the record of the book holds exactly the highlights that the
    session holds, in the same order, once the calls in flight are served;
    with no call in flight this is the record in the store. *)
Theorem session_highlights_match_store (b : Book) (s : ReaderSettings) (width : Q)
    (e : E) (store : Db.store) (t0 t1 : Z) (pre evs : list (Z * Event)) :
  store !! id b = Some b →
  Forall (λ tev, is_highlight_edit tev.2 = false) pre →
  Forall (λ tev, serves_oldest tev.2 = true) (pre ++ evs) →
  let w := exec (initial b s (Some width) e store)
             ((t0, Mount) :: pre ++ (t1, DisplaySettled) :: evs) in
  ∃ b', settled w !! id b = Some b'
        ∧ default [] (Types.highlights b') = highlights w
        ∧ (inflight w = [] → db w !! id b = Some b').
Proof.
  intros Hb Hpre Hserve w.
  apply Forall_app in Hserve as [Hserve1 Hserve2].
  assert (Hpre' : Forall (λ tev : Z * Event,
                      is_highlight_edit tev.2 = false ∧ serves_oldest tev.2 = true) pre).
  { rewrite Forall_forall in Hpre, Hserve1 |- *. auto. }
  assert (Hw : synced b w).
  2:{ destruct Hw as ((b' & Hst & _ & Hhs) & _ & Hbk). unfold stored in Hst.
      rewrite Hbk in Hst. exists b'. split; [done|]. split; [done|].
      intros Hin. by rewrite <- (settled_nil w Hin). }
  unfold w.
  change (synced b (exec (step (initial b s (Some width) e store) (t0, Mount))
                      (pre ++ (t1, DisplaySettled) :: evs))).
  set (w1 := step _ _).
  assert (Hw1 : opening b w1 ∧ pendingDisplay w1 ≠ None).
  { unfold w1, step, opening, highlights_in_step, stored. simpl. split; [|done].
    split; [by exists b|]. done. }
  clearbody w1.
  rewrite exec_app.
  change (synced b (exec (step (exec w1 pre) (t1, DisplaySettled)) evs)).
  apply exec_synced, step_display_synced, exec_opening; auto.
Qed.


(** ** The position of the session and of the store *)


Lemma placed_same cfi0 p0 bk w w' :
  placed cfi0 p0 bk w → same place w w' → placed cfi0 p0 bk w'.
Proof.
  unfold same, place. intros Hw Hs. inversion Hs as [[Hd Hc Hp Hb]].
  unfold placed, position_in_step, stored in *.
  by rewrite Hd, Hc, Hp, Hb.
Qed.

Ltac steady_place :=
  lazymatch goal with
  | |- triple (placed ?c ?p ?bk) _ _ _ =>
      apply (triple_frames (same place) (placed c p bk) (placed c p bk));
        [frames_same|apply placed_same]
  end.

Lemma updateLocationState_placed cfi0 p0 bk (l : Location) :
  triple (placed cfi0 p0 bk) (updateLocationState l)
    (λ _, placed cfi0 p0 bk) (placed cfi0 p0 bk).
Proof.
  unfold updateLocationState. apply triple_get_bind. intros w0 (_ & Hbk0).
  destruct (negb _); [by apply triple_mret|].
  set (p := Math_floor _).
  set (filed := λ w : World E, (∃ b, stored w = Some b ∧ id b = id (book w)) ∧ book w = bk).
  apply (triple_bind _ _ _ _ _ (λ _ w, filed w ∧ currentCfi w = start_cfi l)).
  { apply triple_modify. intros w ((b & Hst & Hid & _) & Hbk).
    unfold filed, stored in *. simpl. split; [|done]. split; [by exists b|done]. }
  intros _.
  apply (triple_bind _ _ _ _ _
           (λ _ w, filed w ∧ currentCfi w = start_cfi l ∧ progress w = p)).
  { apply triple_modify. intros w (((b & Hst & Hid) & Hbk) & Hc).
    unfold filed, stored in *. simpl. split; [|done]. split; [by exists b|done]. }
  intros _. unfold persist. apply triple_modify.
  intros w (((b & Hst & Hid) & Hbk) & Hc & Hp).
  unfold placed, position_in_step in *.
  rewrite stored_issue, finish_updateBookProgress. unfold stored in *. simpl.
  split; [|done]. rewrite Hbk0, <- Hbk. eexists.
  split; [by apply DbFacts.updateBookProgress_stored|]. split; [done|]. right. by simpl.
Qed.

Lemma mouseup_placed cfi0 p0 bk (selection : option Selection) :
  triple (placed cfi0 p0 bk) (mouseup selection)
    (λ _, placed cfi0 p0 bk) (placed cfi0 p0 bk).
Proof.
  unfold mouseup. apply triple_get_bind. intros w0 (_ & Hbk0).
  destruct (negb _); [by apply triple_mret|].
  destruct selection as [sel|]; [|by apply triple_mret].
  destruct (_ || _); [by apply triple_mret|].
  destruct (negb _); [by apply triple_mret|].
  destruct (truthy (rangeCfi sel)); [|by apply triple_mret].
  do 5 (apply (triple_bind _ _ _ _ _ (λ _, placed cfi0 p0 bk)); [steady_place|intros _]).
  apply (triple_bind _ _ _ _ _ (λ _, placed cfi0 p0 bk)); [|intros _; steady_place].
  unfold persist. apply triple_modify.
  intros w ((b & Hst & Hid & Hpos) & Hbk).
  unfold placed, position_in_step in *.
  rewrite stored_issue, finish_addBookHighlight. unfold stored in *. simpl.
  split; [|done]. rewrite Hbk0, <- Hbk. eexists.
  split; [by apply DbFacts.addBookHighlight_stored|]. split; [done|]. exact Hpos.
Qed.

Lemma deleteHighlight_placed cfi0 p0 bk (cfi : jsstring) :
  triple (placed cfi0 p0 bk) (deleteHighlight cfi)
    (λ _, placed cfi0 p0 bk) (placed cfi0 p0 bk).
Proof.
  unfold deleteHighlight. apply triple_get_bind. intros w0 (_ & Hbk0).
  do 2 (apply (triple_bind _ _ _ _ _ (λ _, placed cfi0 p0 bk)); [steady_place|intros _]).
  apply (triple_bind _ _ _ _ _ (λ _, placed cfi0 p0 bk)).
  2:{ intros _. apply (triple_bind _ _ _ _ _ (λ _, placed cfi0 p0 bk));
        [steady_place|intros _; steady_place]. }
  unfold persist. apply triple_modify.
  intros w ((b & Hst & Hid & Hpos) & Hbk).
  unfold placed, position_in_step in *.
  rewrite stored_issue, finish_removeBookHighlight. unfold stored in *. simpl.
  split; [|done]. rewrite Hbk0, <- Hbk.
  destruct (DbFacts.removeBookHighlight_stored (settled w) (id (book w)) b cfi Hst Hid)
    as (b' & Hst' & Hid' & Hloc & Hprog & _).
  exists b'. split; [done|]. split; [done|]. by rewrite Hloc, Hprog.
Qed.

Lemma requestServed_place : frames (same place) (requestServed 0 : M E unit).
Proof.
  intros w. unfold same, place.
  change ((requestServed 0 w).2) with (run (requestServed 0) w).
  rewrite requestServed_settled.
  by rewrite (requestServed_field currentCfi), (requestServed_field progress),
    (requestServed_field book).
Qed.

Lemma handle_placed cfi0 p0 bk (ev : Event) :
  serves_oldest ev = true →
  triple (placed cfi0 p0 bk) (handle ev)
    (λ _, placed cfi0 p0 bk) (placed cfi0 p0 bk).
Proof.
  intros Hev.
  destruct ev; try (solve [steady_place]); unfold handle;
    apply triple_get_bind; intros w0 _.
  5:{ apply Nat.eqb_eq in Hev. subst n.
      apply (triple_frames (same place) (placed cfi0 p0 bk) (placed cfi0 p0 bk));
        [apply requestServed_place|apply placed_same]. }
  - unfold locationsGenerated. apply triple_get_bind. intros w1 _.
    destruct (pendingGenerate w1); [|by apply triple_mret].
    apply (triple_bind _ _ _ _ _ (λ _, placed cfi0 p0 bk)); [steady_place|intros _].
    destruct location; [apply updateLocationState_placed|by apply triple_mret].
  - destruct (renditionRef w0); [apply updateLocationState_placed|by apply triple_mret].
  - destruct (renditionRef w0); [apply mouseup_placed|by apply triple_mret].
  - destruct (highlightPopup w0); [apply deleteHighlight_placed|by apply triple_mret].
Qed.

Lemma exec_placed cfi0 p0 bk (evs : list (Z * Event)) w :
  Forall (λ tev, serves_oldest tev.2 = true) evs →
  placed cfi0 p0 bk w → placed cfi0 p0 bk (exec w evs).
Proof.
  intros Hevs. revert w.
  induction Hevs as [|[t ev] evs Hev _ IH]; intros w Hw; [exact Hw|].
  simpl. apply IH. unfold step. simpl.
  apply (triple_run (placed cfi0 p0 bk)); [by apply handle_placed|].
  apply (placed_same cfi0 p0 bk w); [done|].
  apply (advance_same place); [intros k; destruct k; frames_same|reflexivity].
Qed.

(** X13. With the record of the book in the store under the book's id, in
    every session in which the database serves the calls in flight one at
    a time in the order of their issue, whatever events it has seen: once
    the calls in flight are served, the record of the book holds the
    position it had at the start as long as no relocation was handled (the
    session then shows none), and from the first relocation on the very
    position and percentage that the session shows; creating and deleting
    highlights does not change it. With no call in flight this is the
    record in the store. *)
Theorem stored_position_follows_session (b b0 : Book) (s : ReaderSettings)
    (container : option Q) (e : E) (store : Db.store) (evs : list (Z * Event)) :
  store !! id b = Some b0 → id b0 = id b →
  Forall (λ tev, serves_oldest tev.2 = true) evs →
  let w := exec (initial b s container e store) evs in
  ∃ b', settled w !! id b = Some b'
        ∧ ((currentCfi w = [] ∧ progress w = S754_zero false
            ∧ lastLocationCfi b' = lastLocationCfi b0
            ∧ Types.progress b' = Types.progress b0)
           ∨ (lastLocationCfi b' = currentCfi w ∧ Types.progress b' = progress w))
        ∧ (inflight w = [] → db w !! id b = Some b').
Proof.
  intros Hb Hid Hserve w.
  assert (Hw : placed (lastLocationCfi b0) (Types.progress b0) b w).
  { apply exec_placed; [done|]. split; [|done]. exists b0. unfold stored. simpl. auto 10. }
  destruct Hw as ((b' & Hst & _ & Hpos) & Hbk). unfold stored in Hst.
  rewrite Hbk in Hst. exists b'. split; [done|]. split; [done|].
  intros Hin. by rewrite <- (settled_nil w Hin).
Qed.


(** ** The failed removal of an overlay *)

Lemma run_mret_bind {A B} (a : A) (k : A → M E B) w : (mret a ≫= k) w = k a w.
Proof. reflexivity. Qed.

Lemma settingsEffect_popup : frames (same highlightPopup) settingsEffect.
Proof. frames_same. Qed.

(** X14. [deleteHighlight] asks the engine first. When there is a rendition
    and the engine throws on the removal of the overlay, nothing else
    happens: the highlight stays in the session, no call of the gateway is
    made, and the popup stays open. Otherwise every highlight of the range
    leaves the session, one call of [removeBookHighlight] for the range is
    put in flight (served in its turn, it does to the store what
    [removeBookHighlight] does), and the popup is closed. *)
Theorem failed_overlay_removal_keeps_highlight (w : World E) (cfi : jsstring) :
  let c := AnnotationsRemove cfi (js "highlight") in
  let w' := run (deleteHighlight cfi) w in
  if renditionRef w && throws c (engine w)
  then w' = set_engine (perform c (engine w)) (set_log (log w ++ [c]) w)
  else highlights w' = filter (λ h, cfiRange h ≠ cfi) (highlights w)
       ∧ inflight w' = inflight w ++ [Overlap.removeBookHighlight (id (book w)) cfi]
       ∧ db w' = db w
       ∧ settled w' = (Db.removeBookHighlight (id (book w)) cfi (settled w)).2
       ∧ highlightPopup w' = None.
Proof.
  intros c w'. unfold w', run, deleteHighlight. rewrite run_get.
  destruct (renditionRef w) eqn:Hr; cbn [andb].
  - destruct (throws c (engine w)) eqn:Hc.
    + unfold overlay_call, call, get, modify, mbind, M_bind, mret, M_ret, throw.
      simpl. fold c. by rewrite Hc.
    + rewrite run_overlay_call by exact Hc.
      rewrite run_modify, run_persist, run_modify.
      match goal with |- context [settingsEffect ?w1] =>
        rewrite (settled_same w1 _ (settingsEffect_db w1) (settingsEffect_inflight w1)),
          (settingsEffect_highlights w1), (settingsEffect_db w1),
          (settingsEffect_inflight w1), (settingsEffect_popup w1)
      end.
      repeat (split; [reflexivity|]). split; [|reflexivity].
      rewrite <- finish_removeBookHighlight, <- settled_issue. reflexivity.
  - rewrite run_mret_bind.
    rewrite run_modify, run_persist, run_modify.
    match goal with |- context [settingsEffect ?w1] =>
      rewrite (settled_same w1 _ (settingsEffect_db w1) (settingsEffect_inflight w1)),
        (settingsEffect_highlights w1), (settingsEffect_db w1),
        (settingsEffect_inflight w1), (settingsEffect_popup w1)
    end.
    repeat (split; [reflexivity|]). split; [|reflexivity].
    rewrite <- finish_removeBookHighlight, <- settled_issue. reflexivity.
Qed.

(** ** The theme *)

(** X15. Settings that differ, in the theme, the font size or the font
    family, give style objects that differ: no change of the settings is
    lost on the way to [themes.register]. *)
Theorem themeObj_tells_settings_apart (s1 s2 : ReaderSettings) :
  s1 ≠ s2 → themeObj s1 ≠ themeObj s2.
Proof.
  intros Hne Heq. apply Hne. clear Hne.
  destruct s1 as [t1 n1 f1], s2 as [t2 n2 f2].
  assert (Hn : n1 = n2) by exact (f_equal body_font_size Heq).
  assert (Hf : f1 = f2).
  { pose proof (f_equal body_font_family Heq) as Hff.
    destruct f1, f2; try done; vm_compute in Hff; discriminate Hff. }
  assert (Ht : t1 = t2).
  { pose proof (f_equal body_color Heq) as Hc.
    destruct t1, t2; try done; vm_compute in Hc; discriminate Hc. }
  by subst.
Qed.

(** ** The font buttons *)

Lemma fontSmaller_iter (k : nat) (s : ReaderSettings) :
  50 ≤ fontSize s →
  fontSize (Nat.iter k fontSmaller s) = Z.max 50 (fontSize s - 10 * Z.of_nat k).
Proof.
  intros Hs. induction k as [|k IH]; [simpl; lia|].
  rewrite Nat.iter_succ. unfold fontSmaller at 1, Math_max. cbn [fontSize with_fontSize].
  rewrite IH. lia.
Qed.

Lemma fontLarger_iter (k : nat) (s : ReaderSettings) :
  fontSize s ≤ 200 →
  fontSize (Nat.iter k fontLarger s) = Z.min 200 (fontSize s + 10 * Z.of_nat k).
Proof.
  intros Hs. induction k as [|k IH]; [simpl; lia|].
  rewrite Nat.iter_succ. unfold fontLarger at 1, Math_min. cbn [fontSize with_fontSize].
  rewrite IH. lia.
Qed.

(** X16. A+ undoes A- for a font size from 60 to 200, and A- undoes A+
    from 50 to 190. From a size within [50,200], [k] presses of A- lead to
    [max(50, size - 10k)] and [k] presses of A+ to [min(200, size + 10k)].
    A size that is a multiple of 10 stays one. *)
Theorem font_buttons_undo_each_other (s : ReaderSettings) :
  (60 ≤ fontSize s ≤ 200 → fontLarger (fontSmaller s) = s)
  ∧ (50 ≤ fontSize s ≤ 190 → fontSmaller (fontLarger s) = s)
  ∧ (50 ≤ fontSize s ≤ 200 → ∀ k : nat,
       fontSize (Nat.iter k fontSmaller s) = Z.max 50 (fontSize s - 10 * Z.of_nat k)
       ∧ fontSize (Nat.iter k fontLarger s) = Z.min 200 (fontSize s + 10 * Z.of_nat k))
  ∧ (fontSize s mod 10 = 0 →
     fontSize (fontSmaller s) mod 10 = 0 ∧ fontSize (fontLarger s) mod 10 = 0).
Proof.
  split; [|split; [|split]].
  - destruct s as [t n f]. unfold fontLarger, fontSmaller, with_fontSize, Math_max, Math_min.
    cbn [fontSize theme fontFamily]. intros Hn. f_equal. lia.
  - destruct s as [t n f]. unfold fontLarger, fontSmaller, with_fontSize, Math_max, Math_min.
    cbn [fontSize theme fontFamily]. intros Hn. f_equal. lia.
  - intros Hs k. split; [apply fontSmaller_iter|apply fontLarger_iter]; lia.
  - destruct s as [t n f]. unfold fontLarger, fontSmaller, with_fontSize, Math_max, Math_min.
    cbn [fontSize theme fontFamily]. intros Hn. split.
    + destruct (Z.max_spec 50 (n - 10)) as [[_ ->]|[_ ->]]; [|done].
      rewrite <- Zminus_mod_idemp_l, Hn. done.
    + destruct (Z.min_spec 200 (n + 10)) as [[_ ->]|[_ ->]]; [done|].
      rewrite <- Zplus_mod_idemp_l, Hn. done.
Qed.


(** ** The key path of the store *)

(** The handlers leave the store to the database, and whatever call the
    database serves, a record is put under its own id. *)
Lemma requestServed_store_wf (n : nat) :
  frames (keeps (λ w : World E, Db.store_wf (db w))) (requestServed n).
Proof.
  intros w Hw. change ((requestServed n w).2) with (run (requestServed n) w).
  unfold run, requestServed. rewrite run_get.
  destruct (inflight w !! n) as [call|]; [|exact Hw].
  destruct call as [|next|k next|b next]; simpl; try exact Hw.
  by apply DbFacts.db_put_wf.
Qed.

Lemma handle_store_wf (ev : Event) :
  frames (keeps (λ w : World E, Db.store_wf (db w))) (handle ev).
Proof.
  destruct ev; try (unfold handle; frames_apply frames_bind;
                    [frames_apply frames_get|intros _; apply requestServed_store_wf]);
    frames_split; apply frames_modify; intros w Hw; simpl; exact Hw.
Qed.

Lemma run_task_store_wf (k : Task) :
  frames (keeps (λ w : World E, Db.store_wf (db w))) (run_task k).
Proof. destruct k; frames_split; apply frames_modify; intros w Hw; exact Hw. Qed.

Lemma exec_store_wf (evs : list (Z * Event)) (w : World E) :
  Db.store_wf (db w) → Db.store_wf (db (exec w evs)).
Proof.
  revert w. induction evs as [|[t ev] evs IH]; intros w Hw; [exact Hw|].
  simpl. apply IH. unfold step. simpl.
  apply (frames_run (keeps (λ w : World E, Db.store_wf (db w)))); [apply handle_store_wf|].
  apply (advance_frames (keeps (λ w : World E, Db.store_wf (db w))));
    [apply run_task_store_wf|intros w0 l n Hw0; exact Hw0|exact Hw].
Qed.


End WithEngine.
End ReaderFacts.

(* ===================================================================== *)
(** * Properties of the table of contents                                 *)
(* ===================================================================== *)

Module TocFacts.
Import Toc.

(** Induction over an entry and its subitems. *)
Lemma NavItem_rect' (P : NavItem → Prop) :
  (∀ l h, P (mkNavItem l h None)) →
  (∀ l h subs, Forall P subs → P (mkNavItem l h (Some subs))) →
  ∀ item, P item.
Proof.
  intros Hnone Hsome.
  fix IH 1. intros [l h [subs|]]; [|apply Hnone].
  apply Hsome. induction subs as [|c subs IHs]; constructor; [apply IH|exact IHs].
Qed.

Lemma TocItem_unfold level l h subs :
  TocItem level (mkNavItem l h (Some subs))
  = mkButton l h ((level + 1) * 16) :: flat_map (TocItem (level + 1)) subs.
Proof. simpl. destruct subs; reflexivity. Qed.

Lemma TocItem_buttons (item : NavItem) : ∀ level (b : Button),
  b ∈ TocItem level item ↔
  ∃ (d : nat) i, inside d item i
    ∧ b = mkButton (label i) (href i) ((level + Z.of_nat d + 1) * 16).
Proof.
  induction item as [l h|l h subs IH] using NavItem_rect'; intros level b.
  - simpl. rewrite list_elem_of_singleton. split.
    + intros ->. exists 0%nat, (mkNavItem l h None). split; [constructor|].
      simpl. by rewrite Z.add_0_r.
    + intros (d & i & Hin & ->). inversion Hin; subst. simpl. by rewrite Z.add_0_r.
  - rewrite TocItem_unfold, elem_of_cons. split.
    + intros [->|Hb].
      * exists 0%nat, (mkNavItem l h (Some subs)). split; [constructor|].
        simpl. by rewrite Z.add_0_r.
      * apply list_elem_of_In, in_flat_map in Hb as (c & Hc & Hb).
        apply list_elem_of_In in Hc, Hb.
        rewrite Forall_forall in IH. apply (IH c Hc) in Hb as (d & i & Hin & ->).
        exists (S d), i. split; [by econstructor|]. f_equal. lia.
    + intros (d & i & Hin & ->). inversion Hin as [|d' l' h' subs' c i' Hc Hin']; subst.
      * left. simpl. by rewrite Z.add_0_r.
      * right. apply list_elem_of_In, in_flat_map. exists c.
        split; [by apply list_elem_of_In|]. apply list_elem_of_In.
        rewrite Forall_forall in IH. apply (IH c Hc).
        exists d', i. split; [done|]. f_equal. lia.
Qed.

Lemma TocItem_length (item : NavItem) : ∀ level,
  length (TocItem level item) = entries item.
Proof.
  induction item as [l h|l h subs IH] using NavItem_rect'; intros level; [done|].
  rewrite TocItem_unfold. simpl. f_equal.
  generalize (level + 1). intros lv.
  induction IH as [|c subs Hc _ IHs]; simpl; [done|].
  by rewrite length_app, Hc, IHs.
Qed.

(** X17. The sidebar renders nothing but the notice for an empty table of
    contents. Otherwise it renders one button for every entry, at any
    depth, and no other button: the button of an entry [d] levels down
    shows its label, selects its href, and is padded [16 * (d + 1)]
    pixels; the first button is the one of the first entry. *)
Theorem every_entry_gets_its_button (toc : list NavItem) :
  match contents toc with
  | None => toc = []
  | Some buttons =>
      toc ≠ []
      ∧ length buttons = list_sum (map entries toc)
      ∧ (∀ b, b ∈ buttons ↔
           ∃ root (d : nat) item, root ∈ toc ∧ inside d root item
             ∧ b = mkButton (label item) (href item) ((Z.of_nat d + 1) * 16))
      ∧ (∀ root rest, toc = root :: rest →
           head buttons = Some (mkButton (label root) (href root) 16))
  end.
Proof.
  unfold contents. destruct toc as [|r toc]; [done|]. cbn [length Nat.eqb].
  split; [done|]. split; [|split].
  - generalize (r :: toc). intros l. induction l as [|c l IH]; simpl; [done|].
    by rewrite length_app, TocItem_length, IH.
  - intros b. rewrite list_elem_of_In, in_flat_map. split.
    + intros (c & Hc & Hb). apply list_elem_of_In in Hc, Hb.
      apply TocItem_buttons in Hb as (d & i & Hin & ->).
      exists c, d, i. by rewrite Z.add_0_l.
    + intros (c & d & i & Hc & Hin & ->). exists c.
      split; [by apply list_elem_of_In|]. apply list_elem_of_In, TocItem_buttons.
      exists d, i. by rewrite Z.add_0_l.
  - intros root rest [= <- <-]. by destruct r.
Qed.

End TocFacts.

(* ===================================================================== *)
(** * Properties of the settings text                                     *)
(* ===================================================================== *)

Module JSONFacts.
Import Types JSON.

Lemma digit_of_uint_text (d : Decimal.uint) :
  match uint_text d with
  | [] => d = Decimal.Nil
  | c :: _ => digit_of c ≠ None
  end.
Proof. destruct d; simpl; done. Qed.

Lemma read_digits_uint_text (d : Decimal.uint) (rest : jsstring) :
  match rest with [] => True | c :: _ => digit_of c = None end →
  read_digits (uint_text d ++ rest) = (d, rest).
Proof.
  intros Hrest. induction d as [|d IH|d IH|d IH|d IH|d IH|d IH|d IH|d IH|d IH|d IH];
    cbn [uint_text app]; try (cbn [read_digits]; rewrite IH; reflexivity).
  destruct rest as [|c rest]; [reflexivity|]. cbn [read_digits]. by rewrite Hrest.
Qed.

Lemma int_beq_refl (d : Decimal.int) : Decimal.int_beq d d = true.
Proof. by apply Decimal.internal_int_dec_lb. Qed.

Lemma to_int_norm (z : Z) : Decimal.norm (Z.to_int z) = Z.to_int z.
Proof. by rewrite <- DecimalZ.to_of, DecimalZ.of_to. Qed.

Lemma to_uint_nonnil (p : positive) : Pos.to_uint p ≠ Decimal.Nil.
Proof. apply DecimalPos.Unsigned.to_uint_nonnil. Qed.

Lemma read_int_number_text (z : Z) (rest : jsstring) :
  ends_number rest →
  read_int (number_text z ++ rest) = Some (z, rest).
Proof.
  intros Hrest.
  assert (Hd : match rest with [] => True | c :: _ => digit_of c = None end)
    by (destruct rest; [done|apply Hrest]).
  assert (Hfin : ∀ d : Decimal.int,
            Decimal.norm d = d →
            (if negb (Decimal.int_beq (Decimal.norm d) d) then None
             else match rest with
                  | c :: _ =>
                      if ((c =? 0x2E) || (c =? 0x65) || (c =? 0x45))%N then None
                      else Some (Z.of_int d, rest)
                  | [] => Some (Z.of_int d, rest)
                  end) = Some (Z.of_int d, rest)).
  { intros d ->. rewrite int_beq_refl. cbn [negb].
    destruct rest as [|c rest']; [done|]. destruct Hrest as [_ ->]. done. }
  pose proof (to_int_norm z) as Hnorm. pose proof (DecimalZ.of_to z) as Hval.
  unfold number_text. destruct (Z.to_int z) as [d|d] eqn:Hz.
  - assert (Hnn : d ≠ Decimal.Nil).
    { destruct z; simpl in Hz; inversion Hz; [done|apply to_uint_nonnil]. }
    unfold read_int.
    assert (Hhead : match uint_text d ++ rest with
                    | c :: s' => if (c =? 0x2D)%N then (true, s') else (false, uint_text d ++ rest)
                    | [] => (false, [])
                    end = (false, uint_text d ++ rest)).
    { pose proof (digit_of_uint_text d) as Hc.
      destruct (uint_text d) as [|c t]; [done|]. cbn [app].
      destruct (N.eqb_spec c 0x2D) as [->|_]; [done|reflexivity]. }
    rewrite Hhead, (read_digits_uint_text d rest Hd).
    rewrite (Hfin _ Hnorm), Hval. by destruct d.
  - assert (Hnn : d ≠ Decimal.Nil).
    { destruct z; simpl in Hz; inversion Hz. apply to_uint_nonnil. }
    unfold read_int. cbn [app]. rewrite N.eqb_refl.
    rewrite (read_digits_uint_text d rest Hd).
    rewrite (Hfin _ Hnorm), Hval. by destruct d.
Qed.

Lemma number_text_head (z : Z) (rest : jsstring) :
  ∃ c t, number_text z ++ rest = c :: t ∧ is_ws c = false ∧ (c =? quote)%N = false.
Proof.
  unfold number_text. destruct (Z.to_int z) as [d|d] eqn:Hz.
  - assert (Hnn : d ≠ Decimal.Nil).
    { destruct z; simpl in Hz; inversion Hz; [done|apply to_uint_nonnil]. }
    destruct d; try done; eexists _, _; (split; [reflexivity|done]).
  - eexists _, _. split; [reflexivity|done].
Qed.

Lemma read_value_number_text (z : Z) (rest : jsstring) :
  ends_number rest →
  read_value (skip_ws (number_text z ++ rest)) = Some (Num z, rest).
Proof.
  intros Hrest. pose proof (read_int_number_text z rest Hrest) as Hint.
  destruct (number_text_head z rest) as (c & t & Heq & Hws & Hq).
  rewrite Heq in *. cbn [skip_ws]. rewrite Hws. unfold read_value.
  rewrite Hq, Hint. reflexivity.
Qed.

Lemma read_string_plain (str rest : jsstring) :
  plain str → read_string (str ++ quote :: rest) = Some (str, rest).
Proof.
  induction 1 as [|c str [Hq Hc] _ IH]; cbn [app read_string].
  - by rewrite N.eqb_refl.
  - rewrite Hq, Hc, IH. reflexivity.
Qed.

Lemma read_key (key rest : jsstring) (k : jsstring → jsstring → option (list (jsstring * value) * jsstring)) :
  plain key →
  match skip_ws (quoted key ++ rest) with
  | c :: s1 =>
      if negb (c =? quote)%N then None else
      '(key, s2) ← read_string s1; k key s2
  | [] => None
  end = k key rest.
Proof.
  intros Hkey. unfold quoted. cbn [app skip_ws].
  change (is_ws quote) with false. cbn [negb]. rewrite N.eqb_refl. cbn [negb].
  rewrite <- app_assoc. cbn [app]. rewrite (read_string_plain key rest Hkey). reflexivity.
Qed.

Lemma read_value_quoted (v rest : jsstring) :
  plain v → read_value (skip_ws (quoted v ++ rest)) = Some (Str v, rest).
Proof.
  intros Hv. unfold quoted. cbn [app skip_ws]. change (is_ws quote) with false.
  unfold read_value. rewrite N.eqb_refl, <- app_assoc. cbn [app].
  by rewrite (read_string_plain v rest Hv).
Qed.

Lemma read_members_step (fuel : nat) (key : jsstring) (text : jsstring) (v : value)
    (rest : jsstring) :
  plain key →
  read_value (skip_ws (text ++ 0x2C%N :: rest)) = Some (v, 0x2C%N :: rest) →
  read_members (S fuel) (quoted key ++ 0x3A%N :: text ++ 0x2C%N :: rest)
  = '(ms, r) ← read_members fuel rest; Some ((key, v) :: ms, r).
Proof.
  intros Hkey Hv. cbn [read_members].
  rewrite (read_key key _ _ Hkey). cbn [skip_ws]. change (is_ws 0x3A) with false.
  cbn [negb N.eqb Pos.eqb]. rewrite Hv. reflexivity.
Qed.

Lemma read_members_last (fuel : nat) (key : jsstring) (text : jsstring) (v : value)
    (rest : jsstring) :
  plain key →
  read_value (skip_ws (text ++ 0x7D%N :: rest)) = Some (v, 0x7D%N :: rest) →
  read_members (S fuel) (quoted key ++ 0x3A%N :: text ++ 0x7D%N :: rest)
  = Some ([(key, v)], rest).
Proof.
  intros Hkey Hv. cbn [read_members].
  rewrite (read_key key _ _ Hkey). cbn [skip_ws]. change (is_ws 0x3A) with false.
  cbn [negb N.eqb Pos.eqb]. rewrite Hv. reflexivity.
Qed.

Lemma plain_names :
  plain (js "theme") ∧ plain (js "fontSize") ∧ plain (js "fontFamily")
  ∧ (∀ t, plain (theme_name t)) ∧ (∀ f, plain (fontFamily_name f)).
Proof.
  repeat split; try (intros []); vm_compute; repeat constructor.
Qed.

Lemma read_object_stringify (s : ReaderSettings) :
  read_object (stringify s)
  = Some [(js "theme", Str (theme_name (theme s)));
          (js "fontSize", Num (fontSize s));
          (js "fontFamily", Str (fontFamily_name (fontFamily s)))].
Proof.
  destruct plain_names as (Ht & Hs & Hf & Htn & Hfn).
  unfold stringify.
  change (js "{") with [0x7B%N]. change (js ":") with [0x3A%N].
  change (js ",") with [0x2C%N]. change (js "}") with [0x7D%N].
  cbn [app]. unfold read_object. cbn [skip_ws]. change (is_ws 0x7B) with false.
  cbn [negb N.eqb Pos.eqb].
  set (body := quoted (js "theme") ++ _).
  assert (Hbody : skip_ws body = body) by reflexivity.
  rewrite Hbody.
  assert (Hhead : ∃ t, body = quote :: t) by (eexists; reflexivity).
  destruct Hhead as (t & Hhead). rewrite Hhead at 1. change (quote =? 0x7D)%N with false.
  cbv iota.
  assert (Hlen : ∃ n, length body = S (S (S n))).
  { unfold body. rewrite !length_app. unfold quoted. cbn [length js List.map list_ascii_of_string].
    rewrite !length_app. cbn [length]. eexists. 
    repeat rewrite <- plus_n_Sm. repeat rewrite Nat.add_succ_l. reflexivity. }
  destruct Hlen as (n & ->). unfold body.
  rewrite (read_members_step _ _ (quoted (theme_name (theme s))) (Str (theme_name (theme s))));
    [|done|by apply read_value_quoted].
  rewrite (read_members_step _ _ (number_text (fontSize s)) (Num (fontSize s)));
    [|done|by apply read_value_number_text].
  rewrite (read_members_last _ _ (quoted (fontFamily_name (fontFamily s)))
             (Str (fontFamily_name (fontFamily s))));
    [|done|by apply read_value_quoted].
  reflexivity.
Qed.

Lemma parse_stringify (s : ReaderSettings) : parse (stringify s) = Some s.
Proof.
  unfold parse. rewrite read_object_stringify.
  destruct s as [t z f]. destruct t, f; vm_compute; reflexivity.
Qed.

End JSONFacts.

(* ===================================================================== *)
(** * Properties of the library                                           *)
(* ===================================================================== *)

Module SortFacts.

Section Sort.
Context {A : Type} (f : A → Z).

(** The comparator [(a, b) => f(b) - f(a)]: descending in [f]. *)
Let cmp (a b : A) : Z := f b - f a.

Lemma sort_insert_perm (x : A) (l : list A) : sort_insert cmp x l ≡ₚ x :: l.
Proof.
  induction l as [|y l IH]; simpl; [done|].
  destruct (cmp x y <=? 0); [done|]. by rewrite IH, Permutation_swap.
Qed.

Lemma Array_sort_perm (l : list A) : Array_sort cmp l ≡ₚ l.
Proof.
  induction l as [|x l IH]; simpl; [done|].
  by rewrite sort_insert_perm, IH.
Qed.

Lemma sort_insert_sorted (x : A) (l : list A) :
  StronglySorted (λ a b, f b ≤ f a) l →
  StronglySorted (λ a b, f b ≤ f a) (sort_insert cmp x l).
Proof.
  induction 1 as [|y l Hs IH Hall]; simpl; [repeat constructor|].
  unfold cmp at 1. destruct (Z.leb_spec (f y - f x) 0) as [Hle|Hgt].
  - constructor; [by constructor|]. constructor; [lia|].
    eapply Forall_impl; [exact Hall|]. simpl. lia.
  - constructor; [exact IH|]. rewrite sort_insert_perm. constructor; [lia|exact Hall].
Qed.

Lemma Array_sort_sorted (l : list A) :
  StronglySorted (λ a b, f b ≤ f a) (Array_sort cmp l).
Proof.
  induction l as [|x l IH]; simpl; [constructor|]. by apply sort_insert_sorted.
Qed.

(** Stability: the entries of one rank keep their order. *)
Lemma sort_insert_rank (t : Z) (x : A) (l : list A) :
  StronglySorted (λ a b, f b ≤ f a) l →
  filter (λ a, f a = t) (sort_insert cmp x l) = filter (λ a, f a = t) (x :: l).
Proof.
  induction 1 as [|y l Hs IH Hall]; simpl; [done|].
  unfold cmp at 1. destruct (Z.leb_spec (f y - f x) 0) as [Hle|Hgt]; [done|].
  rewrite filter_cons, IH, !filter_cons.
  destruct (decide (f y = t)) as [Hy|Hy]; destruct (decide (f x = t)) as [Hx|Hx];
    try done. lia.
Qed.

Lemma Array_sort_rank (t : Z) (l : list A) :
  filter (λ a, f a = t) (Array_sort cmp l) = filter (λ a, f a = t) l.
Proof.
  induction l as [|x l IH]; simpl; [done|].
  rewrite sort_insert_rank by apply Array_sort_sorted.
  by rewrite !filter_cons, IH.
Qed.

(** Sorting what is sorted changes nothing. *)
Lemma Array_sort_id (l : list A) :
  StronglySorted (λ a b, f b ≤ f a) l → Array_sort cmp l = l.
Proof.
  induction 1 as [|x l Hl IH Hall]; simpl; [done|].
  fold (Array_sort cmp l). rewrite IH.
  destruct l as [|y l]; [done|]. simpl.
  apply Forall_cons in Hall as [Hy _]. unfold cmp at 1.
  destruct (Z.leb_spec (f y - f x) 0); [done|lia].
Qed.

End Sort.
End SortFacts.

Module AppFacts.
Import Types App Library SortFacts.

Lemma loadBooks_spec (st : State) :
  Db.store_wf (db st) →
  let st' := loadBooks st in
  db st' = db st ∧ isLoading st' = false
  ∧ view st' = view st ∧ currentBook st' = currentBook st
  ∧ settings st' = settings st ∧ localStorage st' = localStorage st
  ∧ errors st' = errors st ∧ alerts st' = alerts st
  ∧ (∀ b, b ∈ books st' ↔ db st !! id b = Some b)
  ∧ NoDup (id <$> books st')
  ∧ StronglySorted Db.key_le (id <$> books st').
Proof.
  intros Hwf. destruct (DbFacts.getAllBooks_spec (db st) Hwf)
    as (l & Hrun & Hin & Hnd & Hs & _).
  unfold loadBooks. rewrite Hrun. simpl. auto 12.
Qed.

(** X18. The settings given to [handleUpdateSettings] are the settings of
    the page, and they are the settings that a page loaded later starts
    with: the text written to the local storage reads back as the very
    same settings. *)
Theorem settings_survive_reload (s : ReaderSettings) (st : State) :
  Z.abs (fontSize s) < 10 ^ 21 →
  let st' := handleUpdateSettings s st in
  settings st' = s
  ∧ initialSettings (localStorage st') = Some s
  ∧ (∀ store, ∃ st0, start (localStorage st') store = Some st0 ∧ settings st0 = s).
Proof.
  intros _ st'.
  assert (Hinit : initialSettings (localStorage st') = Some s).
  { unfold st', handleUpdateSettings, initialSettings. simpl.
    rewrite lookup_insert_eq.
    replace (truthy (JSON.stringify s)) with true by (by destruct s as [[] ? []]).
    apply JSONFacts.parse_stringify. }
  split; [reflexivity|]. split; [exact Hinit|].
  intros store. unfold start. rewrite Hinit. simpl. eexists. split; [reflexivity|].
  unfold loadBooks. by destruct (Db.getAllBooks _) as [[?|?] ?].
Qed.

(** X19. Once the books are loaded, the library shows a card for every
    record of the store, one each, the latest addition first; books that
    were added at the same time stand in the order of their ids. It shows
    no card exactly when the store is empty, and sorting the shown list
    again leaves it as it is. *)
Theorem library_shows_books_newest_first (st : State) :
  Db.store_wf (db st) →
  let shown := cards (books (loadBooks st)) in
  (∀ b, b ∈ shown ↔ db st !! id b = Some b)
  ∧ NoDup (id <$> shown)
  ∧ StronglySorted (λ a b, addedAt b ≤ addedAt a) shown
  ∧ (∀ t, StronglySorted Db.key_le (id <$> filter (λ b, addedAt b = t) shown))
  ∧ (shown = [] ↔ db st = ∅)
  ∧ cards shown = shown.
Proof.
  intros Hwf shown.
  destruct (loadBooks_spec st Hwf) as (_ & _ & _ & _ & _ & _ & _ & _ & Hin & Hnd & Hs).
  assert (Hperm : shown ≡ₚ books (loadBooks st)) by apply Array_sort_perm.
  split; [|split; [|split; [|split; [|split]]]].
  - intros b. by rewrite Hperm.
  - by rewrite Hperm.
  - apply Array_sort_sorted.
  - intros t. unfold shown, cards. rewrite (Array_sort_rank addedAt).
    clear -Hs. induction (books (loadBooks st)) as [|b l IH]; [constructor|].
    simpl in Hs. apply StronglySorted_inv in Hs as [Hs Hall].
    rewrite filter_cons. destruct (decide _); [|by apply IH].
    simpl. constructor; [by apply IH|].
    rewrite Forall_fmap in Hall |- *. by apply ListFacts.Forall_filter.
  - split.
    + intros Hnil. apply map_eq. intros k. rewrite lookup_empty.
      destruct (db st !! k) as [b|] eqn:Hk; [|done].
      assert (Hb : b ∈ shown).
      { rewrite Hperm. apply Hin. by rewrite (Hwf k b Hk). }
      rewrite Hnil in Hb. by apply elem_of_nil in Hb.
    + intros Hempty. apply Permutation_nil_r. rewrite Hperm.
      destruct (books (loadBooks st)) as [|b l]; [reflexivity|]. exfalso.
      assert (Hb : b ∈ b :: l) by left.
      apply Hin in Hb. rewrite Hempty, lookup_empty in Hb. done.
  - apply (Array_sort_id addedAt), Array_sort_sorted.
Qed.


(** X21. A deletion that the user does not confirm changes nothing. A
    confirmed one deletes the record and reloads the list, which then
    holds the records of the other ids, with no alert or error; for an
    id that is not in the store the list is what it was. *)
Theorem deleting_a_book_removes_its_card (st : State) (k : jsstring) :
  Db.store_wf (db st) →
  handleDelete false k st = st
  ∧ let st' := handleDelete true k st in
    db st' = delete k (db st)
    ∧ (∀ b, b ∈ books st' ↔ db st !! id b = Some b ∧ id b ≠ k)
    ∧ (db st !! k = None → ∀ b, b ∈ books st' ↔ db st !! id b = Some b)
    ∧ alerts st' = alerts st ∧ errors st' = errors st
    ∧ view st' = view st ∧ settings st' = settings st.
Proof.
  intros Hwf. split; [reflexivity|]. intros st'.
  set (st1 := set_db (delete k (db st)) st).
  assert (Hst' : st' = loadBooks st1) by reflexivity.
  rewrite Hst'. clear Hst' st'.
  assert (Hwf1 : Db.store_wf (db st1)) by (by apply DbFacts.delete_wf).
  destruct (loadBooks_spec st1 Hwf1)
    as (Hdb & _ & Hv & _ & Hs & _ & He & Ha & Hin & _).
  assert (Hbooks : ∀ b, b ∈ books (loadBooks st1) ↔ db st !! id b = Some b ∧ id b ≠ k).
  { intros b. rewrite Hin. simpl. rewrite lookup_delete_Some.
    split; intros [? ?]; split; auto. }
  split; [by rewrite Hdb|]. split; [exact Hbooks|]. split.
  { intros Hk b. rewrite Hbooks. split; [tauto|]. intros Hb. split; [done|].
    intros <-. congruence. }
  by rewrite Ha, He, Hv, Hs.
Qed.

Lemma startsWith_app (pattern rest : jsstring) : startsWith pattern (pattern ++ rest) = true.
Proof. induction pattern as [|c p IH]; simpl; [done|]. by rewrite N.eqb_refl, IH. Qed.

Lemma replace_after (pattern stem rest : jsstring) (c : N) :
  c ∉ stem →
  replace (c :: pattern) [] (stem ++ c :: pattern ++ rest) = stem ++ rest.
Proof.
  intros Hc. induction stem as [|x stem IH].
  - cbn [app]. unfold replace; fold replace.
    change (startsWith (c :: pattern) (c :: pattern ++ rest))
      with ((c =? c)%N && startsWith pattern (pattern ++ rest)).
    rewrite N.eqb_refl, startsWith_app. cbn [andb length drop app].
    by rewrite drop_app_length.
  - apply not_elem_of_cons in Hc as [Hx Hc]. cbn [app]. unfold replace; fold replace.
    change (startsWith (c :: pattern) (x :: stem ++ c :: pattern ++ rest))
      with ((c =? x)%N && startsWith pattern (stem ++ c :: pattern ++ rest)).
    destruct (N.eqb_spec c x) as [->|_]; [done|]. cbn [andb]. by rewrite IH.
Qed.

Section Upload.
Context {E : Type} `{Reader.Engine E}.

(** X22. Without a file the import does nothing. With a file, the upload
    flag is down and the file input is empty at the end, whatever happened
    in between. When a step of the import is rejected, the store and the
    list stay as they were and one alert is shown. When all steps fulfil,
    the store gains the new book under the generated id, the reloaded list
    holds it next to the records of the other ids, and no alert is shown;
    the book has no position, progress 0, no highlights and a non-empty
    author; without a title in the metadata, a file [stem.epub] with no
    dot in [stem] gives the title [stem]; and a reader mounted on the book
    displays it from its start, with no highlights. *)
Theorem importing_a_file_adds_one_book (st : State) (u : Upload) :
  Db.store_wf (db st) →
  handleFileUpload None st = st
  ∧ let st' := handleFileUpload (Some u) st in
    isUploading st' = false ∧ fileInput st' = []
    ∧ match newBook u with
      | Db.Rejected _ =>
          db st' = db st ∧ books st' = books st
          ∧ alerts st' = alerts st ++ [js "Could not load this EPUB file."]
      | Db.Fulfilled b =>
          db st' = <[generated_id u := b]> (db st)
          ∧ b ∈ books st'
          ∧ (∀ b', b' ∈ books st' → b' = b ∨ (db st !! id b' = Some b' ∧ id b' ≠ id b))
          ∧ alerts st' = alerts st
          ∧ id b = generated_id u ∧ addedAt b = date_now u
          ∧ lastLocationCfi b = [] ∧ integer_value (progress b) = Some 0
          ∧ highlights b = None
          ∧ author b ≠ []
          ∧ (∀ stem md, metadata u = Db.Fulfilled md → meta_title md = [] →
               0x2E%N ∉ stem → file_name u = stem ++ js ".epub" → title b = stem)
          ∧ (∀ (s : ReaderSettings) (width : Q) (e : E) (t : Z),
               let w := Reader.exec (Reader.initial b s (Some width) e (db st'))
                          [(t, Reader.Mount)] in
               Reader.log w = [Reader.RenderTo; Reader.Display None]
               ∧ Reader.highlights w = [])
      end.
Proof.
  intros Hwf. split; [reflexivity|]. intros st'.
  unfold st', handleFileUpload. split; [reflexivity|]. split; [reflexivity|].
  destruct (newBook u) as [b|err] eqn:Hnew; [|done].
  assert (Hb : id b = generated_id u ∧ addedAt b = date_now u
               ∧ lastLocationCfi b = [] ∧ integer_value (progress b) = Some 0
               ∧ highlights b = None ∧ author b ≠ []
               ∧ (∀ stem md, metadata u = Db.Fulfilled md → meta_title md = [] →
                    0x2E%N ∉ stem → file_name u = stem ++ js ".epub" → title b = stem)).
  { unfold newBook, then_ in Hnew.
    destruct (arrayBuffer u) as [buffer|]; [|done].
    destruct (metadata u) as [md|]; [|done].
    destruct (coverUrlStr u) as [url|]; [|done].
    assert (Hfields : ∀ cover b0,
      Db.Fulfilled
        {| id := generated_id u;
           title := if truthy (meta_title md) then meta_title md
                    else replace (js ".epub") [] (file_name u);
           author := if truthy (creator md) then creator md else js "Unknown";
           coverUrl := cover; data := buffer; addedAt := date_now u;
           lastLocationCfi := []; progress := of_Z 0; totalLocations := None;
           highlights := None |} = Db.Fulfilled b0 →
      id b0 = generated_id u ∧ addedAt b0 = date_now u
      ∧ lastLocationCfi b0 = [] ∧ integer_value (progress b0) = Some 0
      ∧ highlights b0 = None ∧ author b0 ≠ []
      ∧ (∀ stem md', Db.Fulfilled md = Db.Fulfilled md' → meta_title md' = [] →
           0x2E%N ∉ stem → file_name u = stem ++ js ".epub" → title b0 = stem)).
    { intros cover b0 [= <-]. simpl. repeat split.
      - by destruct (creator md).
      - intros stem md' [= <-] Ht Hstem Hname. rewrite Ht, Hname. simpl truthy. cbv iota.
        change (js ".epub") with (0x2E%N :: js "epub").
        rewrite <- (app_nil_r (js "epub")) at 2.
        rewrite (replace_after (js "epub") stem [] 0x2E%N Hstem). apply app_nil_r. }
    destruct url as [str|]; [destruct (truthy str)|].
    - destruct (response u); [|done]. destruct (blob u); [|done]. by apply Hfields in Hnew.
    - by apply Hfields in Hnew.
    - by apply Hfields in Hnew. }
  destruct Hb as (Hid & Hadded & Hloc & Hprog & Hhs & Hauthor & Htitle).
  set (st1 := set_db (<[id b := b]> (db st)) (set_isUploading true st)).
  change (Db.saveBook b (db (set_isUploading true st)))
    with (Db.Fulfilled tt, <[id b := b]> (db st)). cbv iota beta.
  fold st1.
  assert (Hwf1 : Db.store_wf (db st1)) by (apply (DbFacts.db_put_wf (db st) b); exact Hwf).
  destruct (loadBooks_spec st1 Hwf1)
    as (Hdb & _ & _ & _ & _ & _ & _ & Ha & Hin & _).
  change (db (set_fileInput [] (set_isUploading false (loadBooks st1))))
    with (db (loadBooks st1)).
  change (books (set_fileInput [] (set_isUploading false (loadBooks st1))))
    with (books (loadBooks st1)).
  change (alerts (set_fileInput [] (set_isUploading false (loadBooks st1))))
    with (alerts (loadBooks st1)).
  assert (Hdb' : db (loadBooks st1) = <[generated_id u := b]> (db st)).
  { rewrite Hdb. unfold st1. simpl. by rewrite Hid. }
  split; [exact Hdb'|]. split.
  { apply Hin. unfold st1. simpl. apply lookup_insert_eq. }
  split.
  { intros b' Hb'. apply Hin in Hb'. unfold st1 in Hb'. simpl in Hb'.
    destruct (decide (id b = id b')) as [Heq|Hne].
    - left. rewrite Heq, lookup_insert_eq in Hb'. by inversion Hb'.
    - right. rewrite lookup_insert_ne in Hb' by done. by split. }
  split; [by rewrite Ha|].
  do 6 (split; [done|]). split; [exact Htitle|].
  intros s width e t. generalize (db (loadBooks st1)). intros store.
  unfold Reader.exec, Reader.step. simpl. rewrite Hloc, Hhs. done.
Qed.

End Upload.

Section Resume.
Context {E : Type} `{Reader.Engine E}.

(** X20. A session has relocated and shows a position when the reader is
    closed; the database has served its calls one at a time in the order
    of their issue, and none is in flight any more. Then the library is
    back on screen with its list reloaded, the list holds the record of
    the book with that position and the percentage the session showed, and
    a reader mounted on this record displays the book at that position. *)
Theorem reading_resumes_where_it_stopped (st : State) (b b0 : Book)
    (container : option Q) (e : E) (evs : list (Z * Reader.Event)) :
  Db.store_wf (db st) →
  db st !! id b = Some b0 →
  Forall (λ tev, Reader.serves_oldest tev.2 = true) evs →
  let w := Reader.exec (Reader.initial b (settings st) container e (db st)) evs in
  Reader.currentCfi w ≠ [] →
  Reader.inflight w = [] →
  let st' := handleCloseReader (set_db (Reader.db w) st) in
  view st' = library ∧ currentBook st' = None
  ∧ ∃ b', b' ∈ books st' ∧ id b' = id b
          ∧ lastLocationCfi b' = Reader.currentCfi w
          ∧ progress b' = Reader.progress w
          ∧ ∀ (s : ReaderSettings) (width : Q) (e' : E) (t : Z),
              Reader.log (Reader.exec (Reader.initial b' s (Some width) e' (db st'))
                            [(t, Reader.Mount)])
              = [Reader.RenderTo; Reader.Display (Some (Reader.currentCfi w))].
Proof.
  intros Hwf Hb Hserve w Hcfi Hidle st'.
  assert (Hid : id b0 = id b) by (by apply (Hwf _ _ Hb)).
  assert (Hw : Reader.placed (lastLocationCfi b0) (progress b0) b w).
  { apply ReaderFacts.exec_placed; [done|]. split; [|done]. exists b0.
    unfold Reader.stored. simpl. auto 10. }
  destruct Hw as ((b' & Hst & Hid' & Hpos) & Hbk). unfold Reader.stored in Hst.
  rewrite (ReaderFacts.settled_nil w Hidle) in Hst.
  rewrite Hbk in Hst, Hid'.
  destruct Hpos as [(Hnil & _)|[Hloc Hprog]]; [done|].
  assert (Hwf' : Db.store_wf (Reader.db w)) by (by apply ReaderFacts.exec_store_wf).
  set (st1 := set_currentBook None (set_view library (set_db (Reader.db w) st))).
  assert (Hst' : st' = loadBooks st1) by reflexivity.
  destruct (loadBooks_spec st1 Hwf') as (Hdb & _ & Hv & Hc & _ & _ & _ & _ & Hin & _).
  rewrite Hst'. split; [by rewrite Hv|]. split; [by rewrite Hc|].
  exists b'. split; [apply Hin; simpl; by rewrite Hid'|].
  split; [done|]. split; [done|]. split; [done|].
  intros s width e' t. generalize (db (loadBooks st1)). intros store.
  unfold Reader.exec, Reader.step. simpl. rewrite Hloc.
  destruct (Reader.currentCfi w); done.
Qed.

End Resume.
End AppFacts.

(* ===================================================================== *)
(** * The session on concrete inputs                                      *)
(* ===================================================================== *)

Module Examples.
Import Types Reader ReaderFacts.

(** C3. With an engine that cannot resolve the range of the first of two
    highlights, the reconciliation attempts both removals (the second one
    throws and is swallowed) and then stops at the failed re-application of
    the first highlight: the overlay of the second highlight is never asked
    for and is missing from the display, although the engine would have
    accepted it. *)
Theorem failed_add_ends_reapplication :
  let w := Sample.ready Sample.failing in
  let w' := run (reconcile Sample.two) w in
  log w' = log w ++ removals Sample.two ++ additions (take 1 Sample.two)
  ∧ TestEngine.overlays (engine w') = []
  ∧ throws (AnnotationsAdd (js "highlight") Sample.second_range (js "hl"))
      (engine w') = false.
Proof. vm_compute. auto. Qed.

(** The plain engine keeps its overlays under their identifiers. *)
Lemma plain_laws : OverlayLaws PlainEngine.overlays.
Proof.
  split.
  - reflexivity.
  - intros c e. reflexivity.
  - intros c e Hc. simpl.
    rewrite ListFacts.filter_id by (intros k Hk ->; by apply Hc).
    symmetry. apply Permutation_cons_append.
Qed.

Ltac by_computation := apply (bool_decide_unpack _); vm_compute; exact I.

Lemma settings_change_keeps_highlights_witness :
  is_settings_mutation FontLarger = true
  ∧ highlights (advance 500 (step (Sample.ready (PlainEngine.mk [])) (300, FontLarger)))
    = highlights (Sample.ready (PlainEngine.mk [])).
Proof.
  assert (Hev : is_settings_mutation FontLarger = true) by reflexivity.
  split; [exact Hev|].
  destruct (settings_change_keeps_highlights
              (Sample.ready (PlainEngine.mk [])) FontLarger 300 500 Hev)
    as (_ & Hlater & _).
  exact Hlater.
Defined.

Lemma reconcile_twice_same_overlays_witness :
  let w1 := run (reconcile Sample.two) (Sample.ready (PlainEngine.mk [])) in
  PlainEngine.overlays (engine (run (reconcile Sample.two) w1))
    ≡ₚ PlainEngine.overlays (engine w1).
Proof.
  assert (Hr : renditionRef (Sample.ready (PlainEngine.mk [])) = true)
    by (vm_compute; reflexivity).
  assert (Hnd : NoDup (cfiRange <$> Sample.two)) by by_computation.
  exact (proj1 (reconcile_twice_same_overlays PlainEngine.overlays plain_laws
                  Sample.two (Sample.ready (PlainEngine.mk [])) Hr Hnd)).
Defined.

(** C2, worded for every collection, fails on a collection that holds a
    range twice, which two selections of the same words make:
    after one reconciliation and after two, the overlays on display are
    three for the four highlights; and whatever an engine does, overlays
    none of which is there twice are not one per highlight of this
    collection. *)
Lemma repeated_range_is_not_one_overlay_each :
  let w := exec (Sample.highlighting (PlainEngine.mk []))
             [(200, MouseUp (Some (Sample.words Sample.third_range)));
              (900, MouseUp (Some (Sample.words Sample.third_range)))] in
  let w1 := run (reconcile (highlights w)) w in
  let w2 := run (reconcile (highlights w)) w1 in
  cfiRange <$> highlights w
  = [Sample.first_range; Sample.second_range; Sample.third_range; Sample.third_range]
  ∧ PlainEngine.overlays (engine w1)
    = [Sample.first_range; Sample.second_range; Sample.third_range]
  ∧ PlainEngine.overlays (engine w2)
    = [Sample.first_range; Sample.second_range; Sample.third_range]
  ∧ ¬ PlainEngine.overlays (engine w2) ≡ₚ cfiRange <$> highlights w
  ∧ ∀ visible : list jsstring,
      NoDup visible → ¬ visible ≡ₚ cfiRange <$> highlights w.
Proof.
  intros w w1 w2.
  assert (Hids : cfiRange <$> highlights w
                 = [Sample.first_range; Sample.second_range;
                    Sample.third_range; Sample.third_range])
    by (vm_compute; reflexivity).
  assert (H1 : PlainEngine.overlays (engine w1)
               = [Sample.first_range; Sample.second_range; Sample.third_range])
    by (vm_compute; reflexivity).
  assert (H2 : PlainEngine.overlays (engine w2)
               = [Sample.first_range; Sample.second_range; Sample.third_range])
    by (vm_compute; reflexivity).
  split; [exact Hids|]. split; [exact H1|]. split; [exact H2|]. split.
  - rewrite H2, Hids. intros Hp. apply Permutation_length in Hp. discriminate Hp.
  - intros visible Hnd Hp. rewrite Hids in Hp. rewrite Hp in Hnd.
    apply NoDup_cons in Hnd as [_ Hnd]. apply NoDup_cons in Hnd as [_ Hnd].
    apply NoDup_cons in Hnd as [Hin _]. apply Hin. left.
Qed.

(** Nor does the reconciliation take away an overlay whose highlight is
    not in the collection: the overlay of a highlight that was made while
    the display was pending, and that the initial load then dropped from
    the session, is still on display after two changes of the font size
    and their reconciliations. *)
Lemma dropped_highlight_keeps_its_overlay :
  let w := exec (initial (Sample.novel (Some Sample.two)) DEFAULT_SETTINGS
                   (Some 800%Q) (PlainEngine.mk []) Sample.shelf)
             [(0, Mount); (1, ToggleHighlightMode);
              (2, MouseUp (Some (Sample.words Sample.third_range)));
              (10, DisplaySettled); (500, FontLarger); (1000, FontLarger);
              (1500, PopupCancel)] in
  cfiRange <$> highlights w = [Sample.first_range; Sample.second_range]
  ∧ PlainEngine.overlays (engine w)
    = [Sample.third_range; Sample.first_range; Sample.second_range]
  ∧ timers w = [].
Proof. vm_compute. auto. Qed.

Lemma relocation_sets_progress_witness :
  integer_value
    (progress (run (handle (Relocated {| start_cfi := Sample.third_range |}))
                 (Sample.ready Sample.indexed)))
  = Some 15.
Proof.
  assert (Hr : renditionRef (Sample.ready Sample.indexed) = true)
    by (vm_compute; reflexivity).
  assert (Hb : bookRef (Sample.ready Sample.indexed) = true)
    by (vm_compute; reflexivity).
  destruct (@relocation_sets_progress _ TestEngine.engine
              (Sample.ready Sample.indexed)
              {| start_cfi := Sample.third_range |} Hr Hb
              ltac:(vm_compute; reflexivity) ltac:(vm_compute; reflexivity)
              ltac:(vm_compute; reflexivity)) as (Hprogress & _).
  rewrite Hprogress. vm_compute. reflexivity.
Defined.

Lemma selection_end_creates_one_highlight_witness :
  isHighlightModeRef (Sample.highlighting (PlainEngine.mk [])) = true
  ∧ highlights (run (mouseup (Some (Sample.words Sample.third_range)))
                  (Sample.highlighting (PlainEngine.mk [])))
    = highlights (Sample.highlighting (PlainEngine.mk []))
      ++ [ {| cfiRange := Sample.third_range; color := js "#ffff00";
              text := Some (trim (js "  call me Ishmael "));
              created := now (Sample.highlighting (PlainEngine.mk [])) |} ].
Proof.
  assert (Hmode : isHighlightModeRef (Sample.highlighting (PlainEngine.mk [])) = true)
    by (vm_compute; reflexivity).
  split; [exact Hmode|].
  assert (Htext : ¬ Forall (λ c, is_white_space c = true)
                      (toString (Sample.words Sample.third_range)))
    by by_computation.
  destruct (selection_end_creates_one_highlight
              (Sample.highlighting (PlainEngine.mk []))
              (Some (Sample.words Sample.third_range)) Hmode) as [_ Hcreate].
  destruct (Hcreate (Sample.words Sample.third_range) eq_refl eq_refl
              ltac:(discriminate) Htext ltac:(discriminate) eq_refl)
    as (_ & Hhs & _).
  exact Hhs.
Defined.

Lemma fontSize_stays_clamped_witness :
  50 ≤ fontSize DEFAULT_SETTINGS ≤ 200
  ∧ fontSize (fontSmaller DEFAULT_SETTINGS) = Z.max 50 (100 - 10)
  ∧ fontSize (fontLarger DEFAULT_SETTINGS) = Z.min 200 (100 + 10).
Proof.
  assert (Hs : 50 ≤ fontSize DEFAULT_SETTINGS ≤ 200) by (simpl; lia).
  split; [exact Hs|].
  destruct (fontSize_stays_clamped (E := PlainEngine.t) DEFAULT_SETTINGS Hs)
    as (Hsmaller & Hlarger & _).
  split; [exact Hsmaller|exact Hlarger].
Defined.

Lemma initial_display_comes_first_witness :
  log (run (handle Mount)
         (initial (Sample.novel (Some Sample.two)) DEFAULT_SETTINGS (Some 800%Q)
            (PlainEngine.mk []) Sample.shelf))
  = [RenderTo; Display None].
Proof.
  exact (proj1 (initial_display_comes_first (Sample.novel (Some Sample.two))
                  DEFAULT_SETTINGS 800%Q (PlainEngine.mk []) Sample.shelf)).
Defined.

(** C7. When the font size is changed while the initial display is
    pending, the continuation of the display marks the session ready and
    then applies the theme of the settings the component was mounted with,
    not the current one, before it begins the construction of the location
    index; the current theme is applied after that only, by the settings
    effect. *)
Theorem settled_display_applies_mount_time_theme :
  let w := exec (initial (Sample.novel (Some Sample.two)) DEFAULT_SETTINGS
                   (Some 800%Q) (PlainEngine.mk []) Sample.shelf)
             [(0, Mount); (5, FontLarger); (10, DisplaySettled)] in
  settings w = fontLarger DEFAULT_SETTINGS
  ∧ log w = [RenderTo; Display None; SetIsReady true;
             ThemesRegister (js "custom") (themeObj DEFAULT_SETTINGS);
             ThemesSelect (js "custom");
             LocationsGenerate 1000;
             ThemesRegister (js "custom") (themeObj (fontLarger DEFAULT_SETTINGS));
             ThemesSelect (js "custom")]
  ∧ body_font_size (themeObj DEFAULT_SETTINGS) = 100
  ∧ body_font_size (themeObj (fontLarger DEFAULT_SETTINGS)) = 110.
Proof. vm_compute. auto. Qed.

Lemma mark_click_suppressed_after_creation_witness :
  let w1 := exec (step (Sample.highlighting (PlainEngine.mk []))
                    (200, MouseUp (Some (Sample.words Sample.third_range))))
              [(320, FontLarger)] in
  highlightPopup (step w1 (480, MarkClicked Sample.third_range)) = highlightPopup w1.
Proof.
  assert (Hr : renditionRef (Sample.highlighting (PlainEngine.mk [])) = true)
    by (vm_compute; reflexivity).
  assert (Hmode : isHighlightModeRef (Sample.highlighting (PlainEngine.mk [])) = true)
    by (vm_compute; reflexivity).
  assert (Htext : ¬ Forall (λ c, is_white_space c = true)
                      (toString (Sample.words Sample.third_range)))
    by by_computation.
  assert (Htimers : Forall (λ x, task x = ResetJustCreated → due x ≤ 200 ∨ 200 + 300 ≤ due x)
                      (timers (Sample.highlighting (PlainEngine.mk [])))).
  { apply Forall_forall. intros x Hx Hreset. vm_compute in Hx.
    repeat (apply list_elem_of_cons in Hx as [->|Hx]; [discriminate Hreset|]).
    by apply not_elem_of_nil in Hx. }
  assert (Hevs : Forall (λ tev : Z * Event, tev.1 < 200 + 300) [(320, FontLarger)])
    by (repeat constructor).
  exact (proj2 (proj2 (proj2 mark_click_suppressed_after_creation
           (Sample.highlighting (PlainEngine.mk [])) (Sample.words Sample.third_range)
           200 [(320, FontLarger)] 480 Sample.third_range
           Hr Hmode eq_refl ltac:(discriminate) Htext ltac:(discriminate)
           Htimers Hevs ltac:(lia)))).
Defined.

(** C8. The reset timer of an earlier creation is not cancelled by a later
    one: with two creations 200ms apart, the flag falls 300ms after the
    first, and a mark-click 100ms after that, 200ms after the second
    creation and so inside its 300ms, is not suppressed: it opens the
    popup. *)
Lemma earlier_reset_ends_suppression :
  let w := exec (Sample.highlighting (PlainEngine.mk []))
             [(200, MouseUp (Some (Sample.words Sample.third_range)));
              (400, MouseUp (Some (Sample.words Sample.fourth_range)))] in
  justCreatedHighlightRef w = true
  ∧ justCreatedHighlightRef (advance 600 w) = false
  ∧ highlightPopup (step w (600, MarkClicked Sample.fourth_range))
    = Some {| popup_cfiRange := Sample.fourth_range; x := (800 / 2)%Q; y := 60 |}.
Proof. vm_compute. auto. Qed.

(** ** The gateway and the library on concrete inputs *)

Lemma shelf_wf : Db.store_wf Sample.shelf.
Proof.
  intros k b Hl. unfold Sample.shelf in Hl.
  apply lookup_singleton_Some in Hl as [<- <-]. reflexivity.
Qed.

Lemma shelf_novel :
  Sample.shelf !! js "novel" = Some (Sample.novel (Some Sample.two)).
Proof. apply lookup_singleton_eq. Qed.

Lemma removing_an_added_highlight_restores_witness :
  (Db.removeBookHighlight (js "novel") Sample.third_range
     (Db.addBookHighlight (js "novel")
        (Sample.hl "epubcfi(/6/4!/4/10,/1:2,/1:17)" 40) Sample.shelf).2).2
  = Sample.shelf.
Proof.
  refine (proj2 (DbFacts.removing_an_added_highlight_restores Sample.shelf (js "novel")
                   (Sample.novel (Some Sample.two))
                   (Sample.hl "epubcfi(/6/4!/4/10,/1:2,/1:17)" 40)
                   shelf_novel eq_refl _) _).
  - intros h' Hh'. simpl in Hh'.
    repeat (apply elem_of_cons in Hh' as [->|Hh']; [vm_compute; discriminate|]).
    by apply elem_of_nil in Hh'.
  - discriminate.
Defined.

Lemma highlight_removals_commute_witness :
  (Db.removeBookHighlight (js "novel") Sample.second_range
     (Db.removeBookHighlight (js "novel") Sample.first_range Sample.shelf).2).2
  = (Db.removeBookHighlight (js "novel") Sample.first_range
       (Db.removeBookHighlight (js "novel") Sample.second_range Sample.shelf).2).2.
Proof.
  exact (proj2 (DbFacts.highlight_removals_commute Sample.shelf (js "novel")
                  Sample.first_range Sample.second_range shelf_wf)).
Defined.

Lemma position_and_highlight_writes_commute_witness :
  (Db.addBookHighlight (js "novel") (Sample.hl "epubcfi(/6/4!/4/10,/1:2,/1:17)" 40)
     (Db.updateBookProgress (js "novel") (js "epubcfi(/6/6!/4/2/1:0)") (of_Z 15)
        Sample.shelf).2).2
  = (Db.updateBookProgress (js "novel") (js "epubcfi(/6/6!/4/2/1:0)") (of_Z 15)
       (Db.addBookHighlight (js "novel") (Sample.hl "epubcfi(/6/4!/4/10,/1:2,/1:17)" 40)
          Sample.shelf).2).2.
Proof.
  exact (proj1 (DbFacts.position_and_highlight_writes_commute Sample.shelf (js "novel")
                  (js "epubcfi(/6/6!/4/2/1:0)") (of_Z 15)
                  (Sample.hl "epubcfi(/6/4!/4/10,/1:2,/1:17)" 40)
                  (Sample.novel (Some Sample.two)) shelf_novel eq_refl)).
Defined.

Lemma overlapping_writes_lose_an_update_witness :
  lastLocationCfi <$>
    (Overlap.overlap
       [Overlap.First; Overlap.First; Overlap.Second; Overlap.Second;
        Overlap.First; Overlap.Second]
       (Overlap.updateBookProgress (js "novel") (js "epubcfi(/6/6!/4/2/1:0)") (of_Z 15))
       (Overlap.addBookHighlight (js "novel")
          (Sample.hl "epubcfi(/6/4!/4/10,/1:2,/1:17)" 40))
       Sample.shelf !! js "novel")
  = Some [].
Proof.
  destruct (OverlapFacts.overlapping_writes_lose_an_update Sample.shelf (js "novel")
              (js "epubcfi(/6/6!/4/2/1:0)") (of_Z 15)
              (Sample.hl "epubcfi(/6/4!/4/10,/1:2,/1:17)" 40)
              (Sample.novel (Some Sample.two)) shelf_novel eq_refl)
    as (_ & _ & Hlost & _ & _ & Hrecord & _).
  rewrite Hlost, Hrecord. reflexivity.
Defined.

Lemma two_books_wf : Db.store_wf Sample.two_books.
Proof. apply DbFacts.writes_wf. intros k b Hl. by rewrite lookup_empty in Hl. Qed.

Lemma getAllBooks_lists_every_record_witness :
  ∃ l, Db.getAllBooks Sample.two_books = (Db.Fulfilled l, Sample.two_books)
       ∧ id <$> l = [js "atlas"; js "novel"].
Proof.
  destruct (DbFacts.getAllBooks_lists_every_record Sample.two_books two_books_wf)
    as (l & Hrun & _).
  exists l. split; [exact Hrun|].
  assert (Hl : (Db.getAllBooks Sample.two_books).1
               = Db.Fulfilled [Sample.atlas; Sample.novel (Some Sample.two)])
    by (vm_compute; reflexivity).
  rewrite Hrun in Hl. simpl in Hl. inversion Hl. reflexivity.
Defined.

Lemma session_highlights_match_store_witness :
  let w := exec (initial (Sample.novel (Some Sample.two)) DEFAULT_SETTINGS
                   (Some 800%Q) TestEngine.fresh Sample.shelf)
             ((0, Mount) :: [(5, FontLarger)] ++ (10, DisplaySettled)
              :: [(150, ToggleHighlightMode);
                  (200, MouseUp (Some (Sample.words Sample.third_range)))]
                 ++ Sample.served 210
                 ++ [(900, MarkClicked Sample.first_range); (950, PopupDelete)]
                 ++ Sample.served 960) in
  inflight w = []
  ∧ ∃ b', db w !! js "novel" = Some b'
          ∧ default [] (Types.highlights b') = highlights w.
Proof.
  intros w.
  assert (Hidle : inflight w = []) by (vm_compute; reflexivity).
  split; [exact Hidle|].
  pose proof (@session_highlights_match_store _ TestEngine.engine
                (Sample.novel (Some Sample.two)) DEFAULT_SETTINGS 800%Q TestEngine.fresh
                Sample.shelf 0 10 [(5, FontLarger)]
                ([(150, ToggleHighlightMode);
                  (200, MouseUp (Some (Sample.words Sample.third_range)))]
                 ++ Sample.served 210
                 ++ [(900, MarkClicked Sample.first_range); (950, PopupDelete)]
                 ++ Sample.served 960)
                shelf_novel ltac:(repeat constructor) ltac:(simpl; repeat constructor))
    as (b' & _ & Hhs & Hdb).
  exists b'. split; [exact (Hdb Hidle)|exact Hhs].
Defined.

Lemma stored_position_follows_session_witness :
  let w := exec (initial (Sample.novel (Some Sample.two)) DEFAULT_SETTINGS
                   (Some 800%Q) Sample.indexed Sample.shelf)
             ([(0, Mount); (10, DisplaySettled); (20, Relocated Sample.chapter_two)]
              ++ Sample.served 30
              ++ [(150, ToggleHighlightMode);
                  (200, MouseUp (Some (Sample.words Sample.third_range)))]
              ++ Sample.served 210) in
  currentCfi w = Sample.start_cfi_two
  ∧ ∃ b', db w !! js "novel" = Some b'
          ∧ lastLocationCfi b' = currentCfi w ∧ Types.progress b' = progress w.
Proof.
  intros w.
  assert (Hcfi : currentCfi w = Sample.start_cfi_two) by (vm_compute; reflexivity).
  split; [exact Hcfi|].
  pose proof (@stored_position_follows_session _ TestEngine.engine
                (Sample.novel (Some Sample.two)) (Sample.novel (Some Sample.two))
                DEFAULT_SETTINGS (Some 800%Q) Sample.indexed Sample.shelf
                ([(0, Mount); (10, DisplaySettled); (20, Relocated Sample.chapter_two)]
                 ++ Sample.served 30
                 ++ [(150, ToggleHighlightMode);
                     (200, MouseUp (Some (Sample.words Sample.third_range)))]
                 ++ Sample.served 210)
                shelf_novel eq_refl ltac:(simpl; repeat constructor))
    as (b' & _ & Hpos & Hdb).
  exists b'. split; [apply Hdb; vm_compute; reflexivity|].
  destruct Hpos as [(Hnil & _)|Hpos]; [|exact Hpos].
  fold w in Hnil. rewrite Hcfi in Hnil. discriminate Hnil.
Defined.

Lemma themeObj_tells_settings_apart_witness :
  themeObj DEFAULT_SETTINGS ≠ themeObj (fontLarger DEFAULT_SETTINGS).
Proof.
  apply (@themeObj_tells_settings_apart DEFAULT_SETTINGS (fontLarger DEFAULT_SETTINGS)).
  intros Heq. discriminate (f_equal fontSize Heq).
Defined.

Lemma settings_survive_reload_witness :
  App.initialSettings
    (App.localStorage
       (App.handleUpdateSettings (with_theme (fontLarger DEFAULT_SETTINGS) night)
          Sample.page))
  = Some {| theme := night; fontSize := 110; fontFamily := serif |}.
Proof.
  refine (proj1 (proj2 (AppFacts.settings_survive_reload
                          (with_theme (fontLarger DEFAULT_SETTINGS) night)
                          Sample.page _))).
  vm_compute. reflexivity.
Defined.

Lemma library_shows_books_newest_first_witness :
  id <$> Library.cards (App.books (App.loadBooks (App.set_db Sample.two_books Sample.page)))
  = [js "atlas"; js "novel"]
  ∧ StronglySorted (λ a b, addedAt b ≤ addedAt a)
      (Library.cards (App.books (App.loadBooks (App.set_db Sample.two_books Sample.page)))).
Proof.
  split; [vm_compute; reflexivity|].
  exact (proj1 (proj2 (proj2 (AppFacts.library_shows_books_newest_first
                                (App.set_db Sample.two_books Sample.page) two_books_wf)))).
Defined.

Lemma deleting_a_book_removes_its_card_witness :
  App.db (Library.handleDelete true (js "novel") Sample.page) = delete (js "novel") Sample.shelf
  ∧ App.books (Library.handleDelete true (js "novel") Sample.page) = [].
Proof.
  destruct (AppFacts.deleting_a_book_removes_its_card Sample.page (js "novel") shelf_wf)
    as (_ & Hdb & _).
  split; [exact Hdb|]. vm_compute. reflexivity.
Defined.

Lemma importing_a_file_adds_one_book_witness :
  title <$> App.books (Library.handleFileUpload (Some Sample.atlas_file) Sample.page)
  = [js "atlas"; js "Novel"]
  ∧ App.isUploading (Library.handleFileUpload (Some Sample.atlas_file) Sample.page) = false.
Proof.
  split; [vm_compute; reflexivity|].
  exact (proj1 (proj2 (@AppFacts.importing_a_file_adds_one_book _ TestEngine.engine
                         Sample.page Sample.atlas_file shelf_wf))).
Defined.

Lemma reading_resumes_where_it_stopped_witness :
  let w := exec (initial (Sample.novel (Some Sample.two)) DEFAULT_SETTINGS
                   (Some 800%Q) Sample.indexed Sample.shelf)
             ([(0, Mount); (10, DisplaySettled); (20, Relocated Sample.chapter_two)]
              ++ Sample.served 30) in
  let st' := App.handleCloseReader (App.set_db (db w) Sample.page) in
  App.view st' = App.library ∧ App.currentBook st' = None
  ∧ ∃ b', b' ∈ App.books st' ∧ id b' = js "novel"
          ∧ lastLocationCfi b' = currentCfi w
          ∧ Types.progress b' = progress w
          ∧ ∀ (s : ReaderSettings) (width : Q) (e' : TestEngine.t) (t : Z),
              log (exec (initial b' s (Some width) e' (App.db st')) [(t, Mount)])
              = [RenderTo; Display (Some (currentCfi w))].
Proof.
  refine (@AppFacts.reading_resumes_where_it_stopped _ TestEngine.engine Sample.page
            (Sample.novel (Some Sample.two)) (Sample.novel (Some Sample.two))
            (Some 800%Q) Sample.indexed
            ([(0, Mount); (10, DisplaySettled); (20, Relocated Sample.chapter_two)]
             ++ Sample.served 30)
            shelf_wf shelf_novel ltac:(simpl; repeat constructor) _ _).
  - vm_compute. discriminate.
  - vm_compute. reflexivity.
Defined.

(** Why the calls in flight are taken to be served in their order: when a
    relocation and a selection follow each other closely and the database
    serves the reads of both calls before the write of either, the write
    of the highlight, coming last, puts back the record it read: the store
    has the highlight and has lost the position that the session shows. *)
Lemma overlapped_writes_in_a_session :
  let w := exec (Sample.highlighting Sample.indexed)
             [(200, Relocated Sample.chapter_two);
              (201, MouseUp (Some (Sample.words Sample.third_range)));
              (202, RequestServed 0); (203, RequestServed 0);
              (204, RequestServed 1); (205, RequestServed 1);
              (206, RequestServed 0); (207, RequestServed 0)] in
  inflight w = []
  ∧ currentCfi w = Sample.start_cfi_two
  ∧ (lastLocationCfi <$> db w !! js "novel") = Some []
  ∧ (length <$> (db w !! js "novel" ≫= Types.highlights)) = Some 3%nat
  ∧ length (highlights w) = 3%nat.
Proof. vm_compute. auto 10. Qed.

(** Why the highlights of the session and of the store are compared from
    the settling of the display on only: a highlight made while the
    display is pending is stored, and the initial load then puts the
    highlights of the book as it was opened in its place. *)
Lemma early_highlight_leaves_the_session :
  let w := exec (initial (Sample.novel (Some Sample.two)) DEFAULT_SETTINGS
                   (Some 800%Q) TestEngine.fresh Sample.shelf)
             ([(0, Mount); (1, ToggleHighlightMode);
               (2, MouseUp (Some (Sample.words Sample.third_range)))]
              ++ Sample.served 3 ++ [(10, DisplaySettled)]) in
  length (highlights w) = 2%nat
  ∧ (length <$> (db w !! js "novel" ≫= Types.highlights)) = Some 3%nat.
Proof. vm_compute. auto. Qed.

End Examples.
